(** * CustomDevice: the Hadamard dispatch layer of [circuit.py]

    A shallow embedding of
    [src/catalyst/runtime/lib/backend/custom_device/circuit.py].

    - Python integers are [Z]; [<<] and [^] are [Z.shiftl] and [Z.lxor].
    - Amplitudes are [complex128] in the source.  Here they are pairs of
      exact reals: every statement below is about exact arithmetic, the
      rounding of binary64 is not modelled.
    - numpy arrays, ctypes arrays and the device object live in a heap and
      are referred to by address, so that copying, aliasing and in-place
      writes are visible.
    - Python exceptions are an explicit outcome; [try]/[except Exception]
      is a combinator of the monad, which lets through the classes that do
      not derive from [Exception].
    - Memory is not bounded: the allocation of a buffer or of an integer
      succeeds.  Statements about numbers that no existing buffer bounds (a
      target or a qubit count that does not fit the state, the wire count
      of [execute]) are made below explicit limits, [shift_limit] and
      [max_qubits].
    - The native kernel is foreign code: it is a function carried by the
      loaded library, and every theorem quantifies over it. *)

From Stdlib Require Import ZArith Reals Lra Lia List String Permutation.
From stdpp Require Import base list strings.

Set Default Proof Using "Type".

(** ** Complex numbers over exact reals *)

Module Cx.

Definition C : Type := (R * R)%type.

Definition RtoC (x : R) : C := (x, 0%R).
Definition Re (a : C) : R := fst a.
Definition Im (a : C) : R := snd a.

Definition Cadd (a b : C) : C := (Re a + Re b, Im a + Im b)%R.
Definition Csub (a b : C) : C := (Re a - Re b, Im a - Im b)%R.
Definition Cmul (a b : C) : C :=
  (Re a * Re b - Im a * Im b, Re a * Im b + Im a * Re b)%R.

(** squared magnitude, [abs(a)**2] *)
Definition Cnorm2 (a : C) : R := (Re a * Re a + Im a * Im a)%R.

Definition C0 : C := RtoC 0.
Definition C1 : C := RtoC 1.

End Cx.
Export Cx.

(** ** Python values of the module *)

(** The exception classes the module can meet.  The first five are
    builtin subclasses of [Exception].  [UserError] stands for any other
    class that derives from [Exception], by name.  [Interrupt] stands for a
    class that derives from [BaseException] and not from [Exception]
    ([KeyboardInterrupt], [SystemExit], [GeneratorExit]), by name. *)
Inductive exn : Type :=
| IndexError
| ValueError
| AttributeError
| TypeError
| OSError
| UserError (name : string)
| Interrupt (name : string).

(** [isinstance(e, Exception)] *)
Definition is_exception (e : exn) : bool :=
  match e with
  | Interrupt _ => false
  | _ => true
  end.

Inductive outcome (A : Type) : Type :=
| Ret (a : A)
| Raise (e : exn).
Arguments Ret {A} a.
Arguments Raise {A} e.

(** What one call of the foreign entry point leaves behind: the contents of
    the four [c_double] buffers it was handed pointers to, and either the
    returned status or an exception raised at the call boundary. *)
Record kernel_result : Type := KernelResult {
  k_input_real : list R;
  k_input_imag : list R;
  k_output_real : list R;
  k_output_imag : list R;
  k_status : outcome Z
}.

(** [hadamard_kernel_execute_c(xclbin_path, input_real, input_imag,
    output_real, output_imag, target, num_qubits, state_size)] *)
Definition kernel_fn : Type :=
  string -> list R -> list R -> list R -> list R -> Z -> Z -> Z -> kernel_result.

(** A [ctypes.CDLL] handle: the one symbol the module looks up in it. *)
Record cdll : Type := CDLL {
  hadamard_kernel_execute_c : option kernel_fn
}.

(** The attributes of a [CustomDevice] instance. *)
Record device : Type := Dev {
  wires : option (list Z);
  shots : option Z;
  xclbin_path : string;
  use_fpga : bool;
  cpp_lib : option cdll
}.

Definition addr : Type := nat.

Inductive obj : Type :=
| NdArray (data : list C)        (* np.ndarray, dtype complex128 *)
| CDoubleArray (data : list R)   (* (ctypes.c_double * n)() *)
| DeviceObj (d : device).

(** Lines written by [print], with their interpolated values. *)
Inductive message : Type :=
| MsgBitstreamNotFound (path : string)
| MsgFallingBackToCPU
| MsgLibraryNotFound (path : string)
| MsgLibraryLoaded (path : string)
| MsgLibraryLoadFailed (e : exn)
| MsgKernelFailed (status : Z)
| MsgKernelError (e : exn)
| MsgExecutingFPGA (path : string)
| MsgExecutingCPU
| MsgAfterHadamard (qubit : Z) (state : option obj).

(** ** The machine *)

Record machine : Type := Machine {
  heap : list obj;
  files : string -> bool;              (* os.path.exists *)
  libraries : string -> outcome cdll;  (* ctypes.CDLL(path) *)
  stdout : list message;
  writes : list (addr * Z)             (* ghost: every item assignment, in order *)
}.

Definition set_heap (h : list obj) (m : machine) : machine :=
  Machine h (files m) (libraries m) (stdout m) (writes m).

Definition log_write (a : addr) (i : Z) (m : machine) : machine :=
  Machine (heap m) (files m) (libraries m) (stdout m) (writes m ++ [(a, i)]).

Definition log_print (msg : message) (m : machine) : machine :=
  Machine (heap m) (files m) (libraries m) (stdout m ++ [msg]) (writes m).

(** ** A state and exception monad *)

Definition M (A : Type) : Type := machine -> outcome A * machine.

Definition ret {A} (a : A) : M A := fun m => (Ret a, m).

Definition raise {A} (e : exn) : M A := fun m => (Raise e, m).

Definition bind {A B} (c : M A) (k : A -> M B) : M B :=
  fun m =>
    match c m with
    | (Ret a, m') => k a m'
    | (Raise e, m') => (Raise e, m')
    end.

(** [try: c except Exception as e: h e]: an exception whose class does
    not derive from [Exception] is not caught. *)
Definition try_except {A} (c : M A) (h : exn -> M A) : M A :=
  fun m =>
    match c m with
    | (Ret a, m') => (Ret a, m')
    | (Raise e, m') => if is_exception e then h e m' else (Raise e, m')
    end.

Declare Scope py_scope.
Delimit Scope py_scope with py.
Notation "x <- c ;; k" := (bind c (fun x => k))
  (at level 100, c at next level, right associativity) : py_scope.
Notation "c ;; k" := (bind c (fun _ => k))
  (at level 100, right associativity) : py_scope.
Local Open Scope py_scope.

(** [for x in xs: body x] *)
Fixpoint for_each (xs : list Z) (body : Z -> M unit) : M unit :=
  match xs with
  | [] => ret tt
  | x :: rest => body x ;; for_each rest body
  end.

(** [for x in xs: s = body s x], with the local [s] that the body rebinds *)
Fixpoint for_loop {S} (xs : list Z) (body : S -> Z -> M S) (s : S) : M S :=
  match xs with
  | [] => ret s
  | x :: rest => s' <- body s x ;; for_loop rest body s'
  end.

(** [[f(x) for x in xs]], built by successive [append]s *)
Fixpoint collect {A} (xs : list Z) (f : Z -> M A) : M (list A) :=
  match xs with
  | [] => ret []
  | x :: rest => v <- f x ;; vs <- collect rest f ;; ret (v :: vs)
  end.

(** [range(n)] *)
Definition range (n : Z) : list Z := map Z.of_nat (seq 0 (Z.to_nat n)).

(** ** Primitive operations *)

(** Position designated by a Python index in a sequence of length [len]:
    negative indices count from the end. *)
Definition py_index (len : nat) (i : Z) : option nat :=
  if (0 <=? i)%Z && (i <? Z.of_nat len)%Z then Some (Z.to_nat i)
  else if (- Z.of_nat len <=? i)%Z && (i <? 0)%Z then Some (Z.to_nat (i + Z.of_nat len))
  else None.

Definition alloc (o : obj) : M addr :=
  fun m => (Ret (length (heap m)), set_heap (heap m ++ [o]) m).

Definition print (msg : message) : M unit :=
  fun m => (Ret tt, log_print msg m).

(** [x << y] on Python integers: a negative count raises [ValueError].
    The result has about [y] more bits than [x]; that CPython fails to
    allocate it for a huge count ([MemoryError], [OverflowError]) is not
    modelled, see [shift_limit]. *)
Definition py_lshift (x y : Z) : M Z :=
  if (y <? 0)%Z then raise ValueError else ret (Z.shiftl x y).

(** [state.copy()] *)
Definition ndarray_copy (a : addr) : M addr :=
  fun m =>
    match heap m !! a with
    | Some (NdArray d) => alloc (NdArray d) m
    | _ => (Raise AttributeError, m)
    end.

(** [len(state)] *)
Definition ndarray_len (a : addr) : M Z :=
  fun m =>
    match heap m !! a with
    | Some (NdArray d) => (Ret (Z.of_nat (length d)), m)
    | _ => (Raise TypeError, m)
    end.

(** [a[i]] *)
Definition ndarray_getitem (a : addr) (i : Z) : M C :=
  fun m =>
    match heap m !! a with
    | Some (NdArray d) =>
        match py_index (length d) i with
        | Some k =>
            match d !! k with
            | Some v => (Ret v, m)
            | None => (Raise IndexError, m)
            end
        | None => (Raise IndexError, m)
        end
    | _ => (Raise TypeError, m)
    end.

(** [a[i] = v] *)
Definition ndarray_setitem (a : addr) (i : Z) (v : C) : M unit :=
  fun m =>
    match heap m !! a with
    | Some (NdArray d) =>
        match py_index (length d) i with
        | Some k =>
            (Ret tt,
             log_write a (Z.of_nat k) (set_heap (<[a := NdArray (<[k := v]> d)]> (heap m)) m))
        | None => (Raise IndexError, m)
        end
    | _ => (Raise TypeError, m)
    end.

(** [np.zeros(n, dtype=np.complex128)]; that numpy fails to allocate a
    huge buffer is not modelled, see [max_qubits]. *)
Definition np_zeros (n : Z) : M addr :=
  if (n <? 0)%Z then raise ValueError
  else alloc (NdArray (replicate (Z.to_nat n) C0)).

(** [np.array(l, dtype=np.complex128)] *)
Definition np_array (l : list C) : M addr := alloc (NdArray l).

(** [(ctypes.c_double * n)()]: zero-initialised *)
Definition carray_new (n : Z) : M addr :=
  if (n <? 0)%Z then raise ValueError
  else alloc (CDoubleArray (replicate (Z.to_nat n) 0%R)).

Definition carray_getitem (a : addr) (i : Z) : M R :=
  fun m =>
    match heap m !! a with
    | Some (CDoubleArray d) =>
        match py_index (length d) i with
        | Some k =>
            match d !! k with
            | Some v => (Ret v, m)
            | None => (Raise IndexError, m)
            end
        | None => (Raise IndexError, m)
        end
    | _ => (Raise TypeError, m)
    end.

Definition carray_setitem (a : addr) (i : Z) (v : R) : M unit :=
  fun m =>
    match heap m !! a with
    | Some (CDoubleArray d) =>
        match py_index (length d) i with
        | Some k =>
            (Ret tt,
             log_write a (Z.of_nat k)
               (set_heap (<[a := CDoubleArray (<[k := v]> d)]> (heap m)) m))
        | None => (Raise IndexError, m)
        end
    | _ => (Raise TypeError, m)
    end.

(** [self.<attr>] *)
Definition getattr {A} (self : addr) (field : device -> A) : M A :=
  fun m =>
    match heap m !! self with
    | Some (DeviceObj d) => (Ret (field d), m)
    | _ => (Raise AttributeError, m)
    end.

(** [self.<attr> = v], as an update of the record *)
Definition setattr (self : addr) (upd : device -> device) : M unit :=
  fun m =>
    match heap m !! self with
    | Some (DeviceObj d) => (Ret tt, set_heap (<[self := DeviceObj (upd d)]> (heap m)) m)
    | _ => (Raise AttributeError, m)
    end.

(** Conversion of a Python integer to [ctypes.c_int]: no overflow check,
    the value wraps to 32 bits, signed. *)
Definition c_int (z : Z) : Z := ((z + 2 ^ 31) mod 2 ^ 32 - 2 ^ 31)%Z.

(** [self.cpp_lib.hadamard_kernel_execute_c(xclbin_path, input_real,
    input_imag, output_real, output_imag, target_qubit, num_qubits,
    state_size)].  The kernel sees the four ctypes buffers and nothing else
    of the heap; what it leaves in them is stored back. *)
Definition call_hadamard_kernel (lib : cdll) (path : string)
    (input_real input_imag output_real output_imag : addr)
    (target_qubit num_qubits state_size : Z) : M Z :=
  fun m =>
    match hadamard_kernel_execute_c lib with
    | None => (Raise AttributeError, m)
    | Some kernel =>
        match heap m !! input_real, heap m !! input_imag,
              heap m !! output_real, heap m !! output_imag with
        | Some (CDoubleArray ir), Some (CDoubleArray ii),
          Some (CDoubleArray or), Some (CDoubleArray oi) =>
            let r := kernel path ir ii or oi
                       (c_int target_qubit) (c_int num_qubits) (c_int state_size) in
            let h := <[output_imag := CDoubleArray (k_output_imag r)]>
                     (<[output_real := CDoubleArray (k_output_real r)]>
                      (<[input_imag := CDoubleArray (k_input_imag r)]>
                       (<[input_real := CDoubleArray (k_input_real r)]> (heap m)))) in
            (match k_status r with
             | Ret s => Ret (c_int s)
             | Raise e => Raise e
             end, set_heap h m)
        | _, _, _, _ => (Raise TypeError, m)
        end
    end.

(** [os.path.exists(p)], [Path.exists()] *)
Definition path_exists (p : string) : M bool :=
  fun m => (Ret (files m p), m).

(** [ctypes.CDLL(p)] *)
Definition ctypes_CDLL (p : string) : M cdll :=
  fun m => (libraries m p, m).

(** [x or default] on an optional string: [None] and the empty string are
    falsy. *)
Definition str_or (x : option string) (default : string) : string :=
  match x with
  | Some EmptyString | None => default
  | Some s => s
  end.

(** ** The class [CustomDevice] *)

Definition sqrt2_inv : R := (1 / sqrt 2)%R.

Section CustomDevice.

(** [pathlib.Path(__file__).parent.parent.parent.parent / "build" / "lib"
    / "librtd_custom_device.so"], as a string: it depends on where the
    module is installed. *)
Variable so_path : string.

Definition get_c_interface : string * string := ("CustomDevice"%string, so_path).

Definition _setup_function_signatures (self : addr) : M unit :=
  lib <- getattr self cpp_lib ;;
  match lib with
  | None => ret tt
  | Some l =>
      (* the attribute lookup [self.cpp_lib.hadamard_kernel_execute_c] *)
      match hadamard_kernel_execute_c l with
      | Some _ => ret tt
      | None => raise AttributeError
      end
  end.

Definition set_cpp_lib (v : option cdll) (d : device) : device :=
  Dev (wires d) (shots d) (xclbin_path d) (use_fpga d) v.

Definition set_use_fpga (v : bool) (d : device) : device :=
  Dev (wires d) (shots d) (xclbin_path d) v (cpp_lib d).

Definition set_xclbin_path (v : string) (d : device) : device :=
  Dev (wires d) (shots d) v (use_fpga d) (cpp_lib d).

Definition _load_cpp_library (self : addr) : M unit :=
  try_except
    (ex <- path_exists so_path ;;
     if negb ex then
       print (MsgLibraryNotFound so_path) ;;
       setattr self (set_cpp_lib None)
     else
       lib <- ctypes_CDLL so_path ;;
       setattr self (set_cpp_lib (Some lib)) ;;
       print (MsgLibraryLoaded so_path) ;;
       _setup_function_signatures self)
    (fun e =>
       print (MsgLibraryLoadFailed e) ;;
       setattr self (set_cpp_lib None)).

(** [super().__init__(wires=wires, shots=shots)]: the constructor of
    PennyLane's [Device], which is not part of this module.  It rejects a
    shot count below 1 with [ValueError] and wire labels that repeat with
    [WireError] (a subclass of [Exception]); otherwise it stores both.  The
    shot count is checked first; no statement below depends on the
    order. *)
Definition WireError : exn := UserError "WireError".

Definition super_init (shots_arg : option Z) (wires_arg : option (list Z)) : M unit :=
  match shots_arg with
  | Some s => if (s <? 1)%Z then raise ValueError else ret tt
  | None => ret tt
  end ;;
  match wires_arg with
  | Some w => if bool_decide (NoDup w) then ret tt else raise WireError
  | None => ret tt
  end.

(** [CustomDevice(shots, wires, xclbin_path, use_fpga)]: [super().__init__]
    checks [shots] and [wires]; then the object holds them, and the body of
    [__init__] runs. *)
Definition __init__ (shots_arg : option Z) (wires_arg : option (list Z))
    (xclbin_path_arg : option string) (use_fpga_arg : bool) : M addr :=
  super_init shots_arg wires_arg ;;
  self <- alloc (DeviceObj (Dev wires_arg shots_arg EmptyString false None)) ;;
  setattr self (set_xclbin_path (str_or xclbin_path_arg "libadf.xclbin")) ;;
  setattr self (set_use_fpga use_fpga_arg) ;;
  use <- getattr self use_fpga ;;
  path <- getattr self xclbin_path ;;
  ex <- (if use then path_exists path else ret true) ;;
  (if use && negb ex then
     print (MsgBitstreamNotFound path) ;;
     print MsgFallingBackToCPU ;;
     setattr self (set_use_fpga false)
   else ret tt) ;;
  _load_cpp_library self ;;
  ret self.

(** one pass of the loop of [_apply_hadamard_python], at index [i] *)
Definition hadamard_loop_body (result : addr) (target_qubit : Z) (i : Z) : M unit :=
  let idx0 := i in
  bit <- py_lshift 1 target_qubit ;;
  let idx1 := Z.lxor i bit in
  if (idx0 <? idx1)%Z then
    temp0 <- ndarray_getitem result idx0 ;;
    temp1 <- ndarray_getitem result idx1 ;;
    ndarray_setitem result idx0 (Cmul (RtoC sqrt2_inv) (Cadd temp0 temp1)) ;;
    ndarray_setitem result idx1 (Cmul (RtoC sqrt2_inv) (Csub temp0 temp1))
  else ret tt.

Definition _apply_hadamard_python (self state : addr)
    (target_qubit num_qubits : Z) : M addr :=
  result <- ndarray_copy state ;;
  dim <- py_lshift 1 num_qubits ;;
  for_each (range dim) (hadamard_loop_body result target_qubit) ;;
  ret result.

(** [for i, c in enumerate(state): input_real[i] = c.real;
    input_imag[i] = c.imag], at index [i] *)
Definition marshal_body (state input_real input_imag : addr) (i : Z) : M unit :=
  c <- ndarray_getitem state i ;;
  carray_setitem input_real i (Re c) ;;
  carray_setitem input_imag i (Im c).

(** [complex(output_real[i], output_imag[i])] *)
Definition unmarshal_item (output_real output_imag : addr) (i : Z) : M C :=
  re <- carray_getitem output_real i ;;
  im <- carray_getitem output_imag i ;;
  ret (re, im).

Definition _apply_hadamard_cpp (self state : addr)
    (target_qubit num_qubits : Z) : M addr :=
  lib <- getattr self cpp_lib ;;
  match lib with
  | None => _apply_hadamard_python self state target_qubit num_qubits
  | Some lib =>
      try_except
        (state_size <- ndarray_len state ;;
         input_real <- carray_new state_size ;;
         input_imag <- carray_new state_size ;;
         output_real <- carray_new state_size ;;
         output_imag <- carray_new state_size ;;
         for_each (range state_size) (marshal_body state input_real input_imag) ;;
         path <- getattr self xclbin_path ;;
         status <- call_hadamard_kernel lib path
                     input_real input_imag output_real output_imag
                     target_qubit num_qubits state_size ;;
         if (status =? 0)%Z then
           result <- collect (range state_size) (unmarshal_item output_real output_imag) ;;
           np_array result
         else
           print (MsgKernelFailed status) ;;
           _apply_hadamard_python self state target_qubit num_qubits)
        (fun e =>
           print (MsgKernelError e) ;;
           _apply_hadamard_python self state target_qubit num_qubits)
  end.

Definition operations : list string := ["Hadamard"%string].
Definition observables : list string := ["State"%string].

(** [len(self.wires) if self.wires else 1]: a missing or empty [wires]
    is falsy. *)
Definition wire_count (w : option (list Z)) : Z :=
  match w with
  | Some (x :: l) => Z.of_nat (length (x :: l))
  | _ => 1
  end.

(** [print(f"After Hadamard on qubit {qubit}: {state}")] *)
Definition print_state (qubit : Z) (state : addr) : M unit :=
  fun m => print (MsgAfterHadamard qubit (heap m !! state)) m.

(** one pass of the loop of [execute]: [state] is rebound *)
Definition execute_body (self : addr) (num_qubits : Z) (state : addr) (qubit : Z) : M addr :=
  state' <- _apply_hadamard_cpp self state qubit num_qubits ;;
  print_state qubit state' ;;
  ret state'.

Definition execute (self : addr) : M addr :=
  use <- getattr self use_fpga ;;
  (if use then
     path <- getattr self xclbin_path ;;
     print (MsgExecutingFPGA path)
   else print MsgExecutingCPU) ;;
  w <- getattr self wires ;;
  let num_qubits := wire_count w in
  let state_size := (2 ^ num_qubits)%Z in
  state <- np_zeros state_size ;;
  ndarray_setitem state 0 (RtoC 1) ;;
  for_loop (range num_qubits) (execute_body self num_qubits) state.

End CustomDevice.

(** ** The pair algorithm, as the specification words it

    These definitions follow the description of the Hadamard update, not
    the code: the code is compared with them below. *)

(** [amp[i]], with a default outside the buffer *)
Definition aget (amp : list C) (i : Z) : C := default C0 (amp !! Z.to_nat i).

(** the buffer [f 0, f 1, ..., f (n-1)] *)
Definition tabulate (f : Z -> C) (n : nat) : list C :=
  map (fun k => f (Z.of_nat k)) (seq 0 n).

(** the smaller index of the pair of [x]: [x] with bit [t] cleared *)
Definition pair_low (t x : Z) : Z :=
  if Z.testbit x t then (x - 2 ^ t)%Z else x.

(** the new amplitude at [x]: [invSqrt2 * (amp[i] + amp[j])] at the index
    [i] with bit [t] clear, [invSqrt2 * (amp[i] - amp[j])] at [j = i | bit] *)
Definition hadamard_at (amp : list C) (t x : Z) : C :=
  if Z.testbit x t
  then Cmul (RtoC sqrt2_inv) (Csub (aget amp (x - 2 ^ t)) (aget amp x))
  else Cmul (RtoC sqrt2_inv) (Cadd (aget amp x) (aget amp (x + 2 ^ t))).

Definition pair_transform (amp : list C) (t : Z) : list C :=
  tabulate (hadamard_at amp t) (length amp).

(** the buffer once the pairs whose smaller index is below [k] are done *)
Definition pair_partial (amp : list C) (t k : Z) : list C :=
  tabulate (fun x => if (pair_low t x <? k)%Z then hadamard_at amp t x else aget amp x)
           (length amp).

(** the positions assigned while index [i] is visited *)
Definition pair_writes (t i : Z) : list Z :=
  if Z.testbit i t then [] else [i; Z.lor i (Z.shiftl 1 t)].

(** sum of squared magnitudes *)
Definition norm2 (amp : list C) : R := fold_right Rplus 0%R (map Cnorm2 amp).

(** the basis state |0...0> on [n] qubits *)
Definition basis_zero (n : Z) : list C :=
  <[0%nat := RtoC 1]> (replicate (Z.to_nat (2 ^ n)) C0).

(** ** Vocabulary of the statements *)

(** the outcome and final machine of running [c] from [m] *)
Definition run {A} (c : M A) (m : machine) : outcome A * machine := c m.

(** [a] holds a complex buffer with contents [d] *)
Definition holds_array (m : machine) (a : addr) (d : list C) : Prop :=
  heap m !! a = Some (NdArray d).

(** every object of [m] is still in [m'], at the same address, unchanged *)
Definition preserved (m m' : machine) : Prop := heap m `prefix_of` heap m'.

(** [m] with the buffer at [a] replaced and the writes [w] logged *)
Definition with_array (a : addr) (d : list C) (w : list (addr * Z)) (m : machine) : machine :=
  Machine (<[a := NdArray d]> (heap m)) (files m) (libraries m) (stdout m) (writes m ++ w).

(** a register of [n] qubits and a target inside it *)
Definition well_formed (amp : list C) (t n : Z) : Prop :=
  length amp = Z.to_nat (2 ^ n) /\ (0 <= t < n)%Z.

(** ** Triples

    Programs are total functions of the machine, so a triple is a statement
    of total correctness: from every machine in [P], the run ends, and its
    outcome and final machine are in [Q]. *)
Definition hoare {A} (P : machine -> Prop) (c : M A)
    (Q : outcome A -> machine -> Prop) : Prop :=
  forall m, P m -> Q (c m).1 (c m).2.

(** [c] leaves the objects [h0] where and as they are, whatever its
    outcome, and a returned value satisfies [Q]. *)
Definition frames {A} (h0 : list obj) (c : M A) (Q : A -> Prop) : Prop :=
  hoare (fun m => h0 `prefix_of` heap m) c
        (fun o m => h0 `prefix_of` heap m /\ forall a, o = Ret a -> Q a).

(** [c], started on the heap [h], returns [v] and leaves the heap [h'] *)
Definition steps {A} (h : list obj) (c : M A) (v : A) (h' : list obj) : Prop :=
  hoare (fun m => heap m = h) c (fun o m => o = Ret v /\ heap m = h').

(** [c], started on the heap [h], raises [e] and leaves the heap [h'] *)
Definition fails {A} (h : list obj) (c : M A) (e : exn) (h' : list obj) : Prop :=
  hoare (fun m => heap m = h) c (fun o m => o = Raise e /\ heap m = h').

(** What the call of the kernel on the marshalled [amp] reports: a status,
    as [ctypes] converts it, or an exception.  A library without the symbol
    raises [AttributeError] at the attribute lookup. *)
Definition kernel_report (lib : cdll) (path : string) (amp : list C) (t n : Z) : outcome Z :=
  match hadamard_kernel_execute_c lib with
  | None => Raise AttributeError
  | Some kernel =>
      let zeros := replicate (length amp) 0%R in
      match k_status (kernel path (map Re amp) (map Im amp) zeros zeros
                        (c_int t) (c_int n) (c_int (Z.of_nat (length amp)))) with
      | Ret s => Ret (c_int s)
      | Raise e => Raise e
      end
  end.

(** the call does not succeed: nonzero status, or an exception that
    [except Exception] catches *)
Definition kernel_declines (lib : cdll) (path : string) (amp : list C) (t n : Z) : Prop :=
  match kernel_report lib path amp t n with
  | Ret s => s <> 0%Z
  | Raise e => is_exception e = true
  end.

(** the call is interrupted: it raises an exception that [except Exception]
    does not catch *)
Definition kernel_interrupted (lib : cdll) (path : string) (amp : list C) (t n : Z)
    (e : exn) : Prop :=
  kernel_report lib path amp t n = Raise e /\ is_exception e = false.

(** an input buffer of the kernel once the first [k] amplitudes are
    marshalled into it: the part [part] of each, zero beyond *)
Definition marshalled (part : C -> R) (amp : list C) (k : nat) : list R :=
  map (fun x => if (x <? k)%nat then part (aget amp (Z.of_nat x)) else 0%R)
      (seq 0 (length amp)).

(** the heap [h] followed by the four buffers of a kernel call *)
Definition call_heap (h : list obj) (ir ii or oi : list R) : list obj :=
  h ++ [CDoubleArray ir; CDoubleArray ii; CDoubleArray or; CDoubleArray oi].

(** the sum of [f] over the indices [xs] *)
Definition sumR (f : Z -> R) (xs : list Z) : R := fold_right Rplus 0%R (map f xs).

(** when the call on the marshalled [amp] succeeds, the output buffers hold
    the real and imaginary parts of the pair transform; when it raises, the
    exception is one that [except Exception] catches *)
Definition kernel_faithful (lib : cdll) (path : string) (amp : list C) (t n : Z) : Prop :=
  match hadamard_kernel_execute_c lib with
  | None => True
  | Some kernel =>
      let zeros := replicate (length amp) 0%R in
      let r := kernel path (map Re amp) (map Im amp) zeros zeros
                 (c_int t) (c_int n) (c_int (Z.of_nat (length amp))) in
      match k_status r with
      | Ret s => c_int s = 0%Z ->
                 k_output_real r = map Re (pair_transform amp t)
                 /\ k_output_imag r = map Im (pair_transform amp t)
      | Raise e => is_exception e = true
      end
  end.

(** the registers of the kernel's interface: the qubit count and the state
    size are passed as [c_int], which holds [2^n] up to [n = 30] *)
Definition c_int_qubits : Z := 30.

(** the device has no library, or one whose kernel is faithful on every
    well-formed request that its interface can express *)
Definition library_faithful (d : device) : Prop :=
  match cpp_lib d with
  | None => True
  | Some lib =>
      forall amp t n, well_formed amp t n -> (n <= c_int_qubits)%Z ->
        kernel_faithful lib (xclbin_path d) amp t n
  end.

(** the call is not interrupted: what it raises, if anything,
    [except Exception] catches *)
Definition kernel_catchable (lib : cdll) (path : string) (amp : list C) (t n : Z) : Prop :=
  match kernel_report lib path amp t n with
  | Ret _ => True
  | Raise e => is_exception e = true
  end.

(** the library of the device, if any, is never interrupted *)
Definition library_catchable (d : device) : Prop :=
  match cpp_lib d with
  | None => True
  | Some lib => forall amp t n, kernel_catchable lib (xclbin_path d) amp t n
  end.

(** the register sizes covered by the statements on [execute]: up to
    [2^20] amplitudes (16 MiB a buffer), for which the allocations of
    [np.zeros] and of the buffers of a call are taken to succeed *)
Definition max_qubits : Z := 20.


(** the state of [execute] once the first [k] qubits are done: [2^k] equal
    amplitudes, then zeros *)
Definition uniform_upto (n : Z) (k : nat) : list C :=
  tabulate (fun x => if (x <? 2 ^ Z.of_nat k)%Z then RtoC (sqrt2_inv ^ k) else C0)
           (Z.to_nat (2 ^ n)).



(** the arguments that [super().__init__] accepts: a shot count, if given,
    is at least 1, and the wire labels, if given, are distinct *)
Definition device_args_ok (shots_arg : option Z) (wires_arg : option (list Z)) : Prop :=
  match shots_arg with Some s => (1 <= s)%Z | None => True end
  /\ match wires_arg with Some w => NoDup w | None => True end.

(** what [_load_cpp_library] leaves in [cpp_lib]: the library, when its
    file exists, loads, and has the kernel symbol *)
Definition loaded_library (so_path : string) (m : machine) : option cdll :=
  if files m so_path then
    match libraries m so_path with
    | Ret lib =>
        match hadamard_kernel_execute_c lib with
        | Some _ => Some lib
        | None => None
        end
    | Raise _ => None
    end
  else None.

(** ** Sample machines and devices *)

Definition no_files : string -> bool := fun _ => false.
Definition no_libraries : string -> outcome cdll := fun _ => Raise OSError.

Definition machine_of (h : list obj) : machine :=
  Machine h no_files no_libraries [] [].

(** a kernel that reports failure and leaves its buffers alone *)
Definition declining_kernel : kernel_fn :=
  fun _ ir ii or oi _ _ _ => KernelResult ir ii or oi (Ret 1%Z).

(** a kernel whose call raises [OSError] *)
Definition raising_kernel : kernel_fn :=
  fun _ ir ii or oi _ _ _ => KernelResult ir ii or oi (Raise OSError).

(** a kernel whose call is interrupted from the keyboard *)
Definition interrupted_kernel : kernel_fn :=
  fun _ ir ii or oi _ _ _ => KernelResult ir ii or oi (Raise (Interrupt "KeyboardInterrupt")).

(** a kernel that reports success and leaves zeros in its output buffers *)
Definition idle_kernel : kernel_fn :=
  fun _ ir ii or oi _ _ _ => KernelResult ir ii or oi (Ret 0%Z).

Definition sample_device (n : nat) (fpga : bool) (lib : option cdll) : device :=
  Dev (Some (map Z.of_nat (seq 0 n))) None "libadf.xclbin" fpga lib.

(** a kernel that copies its input buffers to its output buffers *)
Definition echo_kernel : kernel_fn :=
  fun _ ir ii _ _ _ _ _ => KernelResult ir ii ir ii (Ret 0%Z).

(** a kernel that computes the pair transform of the state it is handed,
    as a software stand-in for the accelerator *)
Definition reference_kernel : kernel_fn :=
  fun _ ir ii _ _ t _ _ =>
    let new := pair_transform (zip ir ii) t in
    KernelResult ir ii (map Re new) (map Im new) (Ret 0%Z).

(** [o] with the device's [use_fpga] set to [b]; other objects as they are *)
Definition flag_obj (b : bool) (o : obj) : obj :=
  match o with
  | DeviceObj d => DeviceObj (set_use_fpga b d)
  | _ => o
  end.

(** [m] with [self.use_fpga = b] *)
Definition with_flag (self : addr) (b : bool) (m : machine) : machine :=
  set_heap (alter (flag_obj b) self (heap m)) m.

(** [c] never reads [self.use_fpga]: with another value of the flag it has
    the same outcome and makes the same changes *)
Definition flag_blind {A} (self : addr) (c : M A) : Prop :=
  forall m b, c (with_flag self b m) = ((c m).1, with_flag self b (c m).2).

(** [ctypes.CDLL(so_path)], if it is reached, is not interrupted: what it
    raises, [except Exception] catches *)
Definition load_catchable (so_path : string) (m : machine) : Prop :=
  files m so_path = true ->
  forall e, libraries m so_path = Raise e -> is_exception e = true.


(** [c] prints nothing *)
Definition quiet {A} (c : M A) : Prop := forall m, stdout (c m).2 = stdout m.

(** [c], started on the heap [h], returns [v], leaves the heap [h'] and
    prints the lines [out] *)
Definition steps_out {A} (h : list obj) (c : M A) (v : A) (h' : list obj)
    (out : list message) : Prop :=
  forall m, heap m = h ->
    (c m).1 = Ret v /\ heap (c m).2 = h' /\ stdout (c m).2 = stdout m ++ out.

(** [c], started on the heap [h], raises [e], leaves the heap [h'] and
    prints the lines [out] *)
Definition fails_out {A} (h : list obj) (c : M A) (e : exn) (h' : list obj)
    (out : list message) : Prop :=
  forall m, heap m = h ->
    (c m).1 = Raise e /\ heap (c m).2 = h' /\ stdout (c m).2 = stdout m ++ out.

(** the line that reports a fallback, from what the call reported *)
Definition fallback_line (report : outcome Z) : message :=
  match report with
  | Ret s => MsgKernelFailed s
  | Raise e => MsgKernelError e
  end.

(** the line [execute] starts with *)
Definition mode_line (d : device) : message :=
  if use_fpga d then MsgExecutingFPGA (xclbin_path d) else MsgExecutingCPU.

(** the lines of [execute] that are not reports of a fallback *)
Definition is_progress (msg : message) : bool :=
  match msg with
  | MsgKernelFailed _ | MsgKernelError _ => false
  | _ => true
  end.


(** an empty machine on which every path exists and loads as [lib] *)
Definition machine_with_library (lib : cdll) : machine :=
  Machine [] (fun _ => true) (fun _ => Ret lib) [] [].

(** |0> and |00> *)
Definition ket0 : list C := [RtoC 1; RtoC 0].
Definition ket00 : list C := [RtoC 1; RtoC 0; RtoC 0; RtoC 0].


(** * Properties *)

Local Open Scope Z_scope.

(** ** Bits *)

Lemma shiftl_1_pow2 t : 0 <= t -> Z.shiftl 1 t = 2 ^ t.
Proof. intros. rewrite Z.shiftl_mul_pow2 by done. lia. Qed.

Lemma land_pow2_clear i t : 0 <= t -> Z.testbit i t = false -> Z.land i (2 ^ t) = 0.
Proof.
  intros Ht Hb. apply Z.bits_inj'. intros k Hk.
  rewrite Z.land_spec, Z.bits_0, Z.pow2_bits_eqb by done.
  destruct (Z.eqb_spec t k) as [->|]; [by rewrite Hb | apply andb_false_r].
Qed.

Lemma lxor_pow2_clear i t : 0 <= t -> Z.testbit i t = false -> Z.lxor i (2 ^ t) = i + 2 ^ t.
Proof. intros. symmetry. apply Z.add_nocarry_lxor. by apply land_pow2_clear. Qed.

Lemma lor_pow2_clear i t : 0 <= t -> Z.testbit i t = false -> Z.lor i (2 ^ t) = i + 2 ^ t.
Proof.
  intros. rewrite <- lxor_pow2_clear by done. symmetry. apply Z.lxor_lor.
  by apply land_pow2_clear.
Qed.

Lemma testbit_lxor_pow2 i t : 0 <= t -> Z.testbit (Z.lxor i (2 ^ t)) t = negb (Z.testbit i t).
Proof.
  intros. rewrite Z.lxor_spec, Z.pow2_bits_eqb, Z.eqb_refl by done. apply xorb_true_r.
Qed.

Lemma lxor_pow2_set i t : 0 <= t -> Z.testbit i t = true -> Z.lxor i (2 ^ t) = i - 2 ^ t.
Proof.
  intros Ht Hb.
  assert (Hc : Z.testbit (Z.lxor i (2 ^ t)) t = false) by (rewrite testbit_lxor_pow2, Hb; done).
  pose proof (lxor_pow2_clear _ _ Ht Hc) as E.
  rewrite Z.lxor_assoc, Z.lxor_nilpotent, Z.lxor_0_r in E. lia.
Qed.

Lemma testbit_add_pow2 i t : 0 <= t -> Z.testbit i t = false -> Z.testbit (i + 2 ^ t) t = true.
Proof.
  intros. rewrite <- lxor_pow2_clear, testbit_lxor_pow2 by done. by destruct (Z.testbit i t).
Qed.

Lemma testbit_sub_pow2 i t : 0 <= t -> Z.testbit i t = true -> Z.testbit (i - 2 ^ t) t = false.
Proof.
  intros. rewrite <- lxor_pow2_set, testbit_lxor_pow2 by done. by destruct (Z.testbit i t).
Qed.

Lemma testbit_false_lt_pow2 i t : 0 <= i < 2 ^ t -> Z.testbit i t = false.
Proof.
  intros [H0 H1]. destruct (Z.eq_dec i 0) as [->|]. { apply Z.bits_0. }
  apply Z.bits_above_log2; [done|]. apply Z.log2_lt_pow2; lia.
Qed.

(** Setting bit [t < n] of an index below [2^n] stays below [2^n]. *)
Lemma add_pow2_lt i t n :
  0 <= t < n -> 0 <= i < 2 ^ n -> Z.testbit i t = false -> i + 2 ^ t < 2 ^ n.
Proof.
  intros Ht Hi Hb.
  rewrite <- lor_pow2_clear by (lia || done).
  destruct (Z.eq_dec (Z.lor i (2 ^ t)) 0) as [->|Hne]. { lia. }
  assert (0 <= Z.lor i (2 ^ t)) by (apply Z.lor_nonneg; lia).
  apply Z.log2_lt_pow2; [lia|].
  rewrite Z.log2_lor by lia.
  apply Z.max_lub_lt.
  - destruct (Z.eq_dec i 0) as [->|]; [simpl; lia|]. apply Z.log2_lt_pow2; lia.
  - rewrite Z.log2_pow2 by lia. lia.
Qed.

Lemma sub_pow2_nonneg i t : 0 <= t -> 0 <= i -> Z.testbit i t = true -> 0 <= i - 2 ^ t.
Proof.
  intros Ht Hi Hb. destruct (Z.lt_ge_cases i (2 ^ t)); [|lia].
  rewrite testbit_false_lt_pow2 in Hb by lia. done.
Qed.

(** An index at or above [2^k] whose bit [k] is clear is at or above
    [2^(k+1)]. *)
Lemma clear_ge_pow2 i k : 0 <= k -> 2 ^ k <= i -> Z.testbit i k = false -> 2 ^ (k + 1) <= i.
Proof.
  intros Hk Hi Hb.
  destruct (Z.lt_ge_cases i (2 ^ (k + 1))) as [Hlt|]; [|done]. exfalso.
  assert (Hs : Z.testbit (i - 2 ^ k) k = false).
  { apply testbit_false_lt_pow2. rewrite Z.pow_add_r in Hlt by lia. lia. }
  assert (Z.testbit (i - 2 ^ k + 2 ^ k) k = true) by (by apply testbit_add_pow2).
  replace (i - 2 ^ k + 2 ^ k) with i in * by lia. congruence.
Qed.

Lemma pair_low_clear t x : 0 <= t -> Z.testbit (pair_low t x) t = false.
Proof.
  intros. unfold pair_low. destruct (Z.testbit x t) eqn:E; [|done].
  by apply testbit_sub_pow2.
Qed.

Lemma pair_low_eq t x k :
  0 <= t -> pair_low t x = k -> x = k \/ x = k + 2 ^ t.
Proof. unfold pair_low. destruct (Z.testbit x t); lia. Qed.

Lemma pair_low_le t x : 0 <= t -> pair_low t x <= x.
Proof. intros. unfold pair_low. destruct (Z.testbit x t); lia. Qed.

(** ** Buffers *)

Lemma length_tabulate f n : length (tabulate f n) = n.
Proof. unfold tabulate. by rewrite length_map, length_seq. Qed.

Lemma lookup_tabulate f n (k : nat) :
  (k < n)%nat -> tabulate f n !! k = Some (f (Z.of_nat k)).
Proof. intros. unfold tabulate. rewrite list_lookup_fmap, lookup_seq_lt by done. done. Qed.

Lemma aget_tabulate f n i : 0 <= i < Z.of_nat n -> aget (tabulate f n) i = f i.
Proof.
  intros. unfold aget. rewrite lookup_tabulate by lia. simpl. f_equal. lia.
Qed.

Lemma aget_lookup (amp : list C) i :
  0 <= i < Z.of_nat (length amp) -> amp !! Z.to_nat i = Some (aget amp i).
Proof.
  intros. unfold aget. destruct (lookup_lt_is_Some_2 amp (Z.to_nat i)) as [v ->]; [lia|done].
Qed.

Lemma tabulate_aget (amp : list C) : tabulate (aget amp) (length amp) = amp.
Proof.
  apply list_eq. intros k. destruct (decide (k < length amp)%nat).
  - rewrite lookup_tabulate by done. rewrite <- (Nat2Z.id k) at 2.
    symmetry. apply aget_lookup. lia.
  - rewrite !lookup_ge_None_2; [done | lia | rewrite length_tabulate; lia].
Qed.

Lemma tabulate_ext f g n :
  (forall i, 0 <= i < Z.of_nat n -> f i = g i) -> tabulate f n = tabulate g n.
Proof.
  intros H. apply list_eq. intros k. destruct (decide (k < n)%nat).
  - rewrite !lookup_tabulate by done. f_equal. apply H. lia.
  - rewrite !lookup_ge_None_2; [done | rewrite length_tabulate; lia ..].
Qed.

Lemma length_pair_transform amp t : length (pair_transform amp t) = length amp.
Proof. apply length_tabulate. Qed.

Lemma length_pair_partial amp t k : length (pair_partial amp t k) = length amp.
Proof. apply length_tabulate. Qed.

Lemma pair_partial_0 amp t : 0 <= t -> pair_partial amp t 0 = amp.
Proof.
  intros Ht. rewrite <- (tabulate_aget amp) at 2. apply tabulate_ext. intros i Hi.
  destruct (Z.ltb_spec (pair_low t i) 0) as [Hlt|]; [|done].
  unfold pair_low in Hlt. destruct (Z.testbit i t) eqn:E; [|lia].
  pose proof (sub_pow2_nonneg i t Ht (proj1 Hi) E). lia.
Qed.

Lemma pair_partial_all amp t :
  0 <= t -> pair_partial amp t (Z.of_nat (length amp)) = pair_transform amp t.
Proof.
  intros Ht. apply tabulate_ext. intros i Hi.
  pose proof (pair_low_le t i Ht). destruct (Z.ltb_spec (pair_low t i) (Z.of_nat (length amp))); [done | lia].
Qed.

(** Visiting an index whose bit [t] is set changes nothing. *)
Lemma pair_partial_skip amp t k :
  0 <= t -> Z.testbit k t = true -> pair_partial amp t (k + 1) = pair_partial amp t k.
Proof.
  intros Ht Hb. apply tabulate_ext. intros i Hi.
  destruct (Z.ltb_spec (pair_low t i) (k + 1)), (Z.ltb_spec (pair_low t i) k); try done; try lia.
  assert (pair_low t i = k) as E by lia.
  pose proof (pair_low_clear t i Ht) as Hc. rewrite E in Hc. congruence.
Qed.

(** Visiting an index [k] whose bit [t] is clear assigns the pair
    [{k, k + 2^t}]. *)
Lemma pair_partial_step amp t k :
  0 <= t -> 0 <= k -> Z.testbit k t = false ->
  <[Z.to_nat (k + 2 ^ t) := hadamard_at amp t (k + 2 ^ t)]>
    (<[Z.to_nat k := hadamard_at amp t k]> (pair_partial amp t k))
  = pair_partial amp t (k + 1).
Proof.
  intros Ht Hk Hb. apply list_eq. intros x.
  assert (0 < 2 ^ t) by (apply Z.pow_pos_nonneg; lia).
  destruct (decide (x < length amp)%nat) as [Hx|Hx].
  2:{ rewrite !lookup_ge_None_2; [done | rewrite ?length_insert, length_pair_partial; lia ..]. }
  unfold pair_partial at 2. rewrite lookup_tabulate by done.
  destruct (decide (x = Z.to_nat (k + 2 ^ t))) as [->|Hj].
  { rewrite list_lookup_insert_eq by (rewrite length_insert, length_pair_partial; lia).
    rewrite Z2Nat.id by lia. unfold pair_low.
    rewrite testbit_add_pow2 by done.
    destruct (Z.ltb_spec (k + 2 ^ t - 2 ^ t) (k + 1)); [done | lia]. }
  rewrite list_lookup_insert_ne by done.
  destruct (decide (x = Z.to_nat k)) as [->|Hi].
  { rewrite list_lookup_insert_eq by (rewrite length_pair_partial; lia).
    rewrite Z2Nat.id by lia. unfold pair_low. rewrite Hb.
    destruct (Z.ltb_spec k (k + 1)); [done | lia]. }
  rewrite list_lookup_insert_ne by done.
  unfold pair_partial. rewrite lookup_tabulate by done.
  destruct (Z.ltb_spec (pair_low t (Z.of_nat x)) (k + 1)),
           (Z.ltb_spec (pair_low t (Z.of_nat x)) k); try done; try lia.
  assert (pair_low t (Z.of_nat x) = k) as E by lia.
  apply pair_low_eq in E; [|done]. lia.
Qed.

(** ** Running the primitives *)

Lemma py_index_in len i : 0 <= i < Z.of_nat len -> py_index len i = Some (Z.to_nat i).
Proof.
  intros. unfold py_index.
  destruct (Z.leb_spec 0 i), (Z.ltb_spec i (Z.of_nat len)); simpl; done || lia.
Qed.


Lemma py_index_lt len i k : py_index len i = Some k -> (k < len)%nat.
Proof.
  unfold py_index.
  destruct (Z.leb_spec 0 i), (Z.ltb_spec i (Z.of_nat len)),
           (Z.leb_spec (- Z.of_nat len) i), (Z.ltb_spec i 0); simpl;
    intros; simplify_eq; lia.
Qed.

Lemma run_bind {A B} (c : M A) (k : A -> M B) m a m' :
  c m = (Ret a, m') -> bind c k m = k a m'.
Proof. intros E. unfold bind. by rewrite E. Qed.

Lemma run_bind_raise {A B} (c : M A) (k : A -> M B) m e m' :
  c m = (Raise e, m') -> bind c k m = (Raise e, m').
Proof. intros E. unfold bind. by rewrite E. Qed.

Lemma run_lshift_1 t m : 0 <= t -> py_lshift 1 t m = (Ret (2 ^ t), m).
Proof.
  intros. unfold py_lshift. destruct (Z.ltb_spec t 0); [lia|].
  by rewrite shiftl_1_pow2.
Qed.


Lemma run_getitem m a d i :
  holds_array m a d -> 0 <= i < Z.of_nat (length d) ->
  ndarray_getitem a i m = (Ret (aget d i), m).
Proof.
  intros Ha Hi. unfold ndarray_getitem. rewrite Ha, py_index_in by done.
  by rewrite aget_lookup.
Qed.


Lemma run_setitem m a d i v :
  holds_array m a d -> 0 <= i < Z.of_nat (length d) ->
  ndarray_setitem a i v m = (Ret tt, with_array a (<[Z.to_nat i := v]> d) [(a, i)] m).
Proof.
  intros Ha Hi. unfold ndarray_setitem. rewrite Ha, py_index_in by done.
  unfold with_array, log_write, set_heap. simpl. by rewrite Z2Nat.id by lia.
Qed.

Lemma holds_with_array m a d d' w :
  holds_array m a d -> holds_array (with_array a d' w m) a d'.
Proof.
  unfold holds_array, with_array. simpl. intros H.
  apply list_lookup_insert_eq. by eapply lookup_lt_Some.
Qed.

Lemma with_array_twice a d1 d2 w1 w2 m :
  with_array a d2 w2 (with_array a d1 w1 m) = with_array a d2 (w1 ++ w2) m.
Proof.
  unfold with_array. simpl. by rewrite list_insert_insert_eq, app_assoc.
Qed.

Lemma with_array_id m a d : holds_array m a d -> with_array a d [] m = m.
Proof.
  unfold holds_array, with_array. intros H. rewrite list_insert_id, app_nil_r by done.
  by destruct m.
Qed.

(** ** The loop of the software path *)

Section SoftwareLoop.

Variables (amp : list C) (t n : Z) (res : addr).
Hypothesis Hwf : well_formed amp t n.

Local Lemma wf_dim : Z.of_nat (length amp) = 2 ^ n.
Proof using Hwf. destruct Hwf as [-> ?]. rewrite Z2Nat.id; [done|]. apply Z.pow_nonneg. lia. Qed.

(** One pass at an index below the dimension: the buffer moves from
    [pair_partial k] to [pair_partial (k+1)], and the writes are those of
    [pair_writes]. *)
Lemma run_hadamard_loop_body m k :
  0 <= k < 2 ^ n ->
  holds_array m res (pair_partial amp t k) ->
  hadamard_loop_body res t k m
  = (Ret tt, with_array res (pair_partial amp t (k + 1))
               (map (pair res) (pair_writes t k)) m).
Proof using Hwf.
  intros Hk Hm. pose proof wf_dim as Hdim. destruct Hwf as [Hlen Ht].
  assert (0 < 2 ^ t) by (apply Z.pow_pos_nonneg; lia).
  unfold hadamard_loop_body, pair_writes.
  rewrite (run_bind _ _ _ _ _ (run_lshift_1 t m ltac:(lia))).
  destruct (Z.testbit k t) eqn:Hb.
  - rewrite lxor_pow2_set by (lia || done).
    destruct (Z.ltb_spec k (k - 2 ^ t)); [lia|].
    unfold ret. simpl. rewrite pair_partial_skip by (lia || done).
    by rewrite with_array_id.
  - rewrite lxor_pow2_clear by (lia || done).
    destruct (Z.ltb_spec k (k + 2 ^ t)); [|lia].
    pose proof (add_pow2_lt k t n Ht Hk Hb) as Hj.
    erewrite run_bind; [|apply (run_getitem _ _ _ _ Hm); rewrite length_pair_partial; lia].
    erewrite run_bind; [|apply (run_getitem _ _ _ _ Hm); rewrite length_pair_partial; lia].
    erewrite run_bind; [|apply (run_setitem _ _ _ _ _ Hm); rewrite length_pair_partial; lia].
    erewrite run_setitem;
      [|by eapply holds_with_array | rewrite length_insert, length_pair_partial; lia].
    rewrite with_array_twice.
    match goal with
    | |- (_, with_array _ ?d ?w _) = (_, with_array _ ?d' ?w' _) =>
        assert (E1 : d = d'); [|assert (E2 : w = w'); [|by rewrite E1, E2]]
    end.
    + assert (Ei : aget (pair_partial amp t k) k = aget amp k).
      { unfold pair_partial. rewrite aget_tabulate by lia.
        unfold pair_low. rewrite Hb. destruct (Z.ltb_spec k k); [lia | done]. }
      assert (Ej : aget (pair_partial amp t k) (k + 2 ^ t) = aget amp (k + 2 ^ t)).
      { unfold pair_partial. rewrite aget_tabulate by lia.
        unfold pair_low. rewrite testbit_add_pow2 by (lia || done).
        destruct (Z.ltb_spec (k + 2 ^ t - 2 ^ t) k); [lia | done]. }
      rewrite Ei, Ej, <- (pair_partial_step amp t k) by (lia || done).
      unfold hadamard_at. rewrite Hb, testbit_add_pow2 by (lia || done).
      by replace (k + 2 ^ t - 2 ^ t) with k by lia.
    + simpl. rewrite shiftl_1_pow2, lor_pow2_clear by (lia || done). done.
Qed.

(** The passes from index [k] on. *)
Lemma run_hadamard_loop_from d : forall (k : nat) m,
  (k + d = length amp)%nat ->
  holds_array m res (pair_partial amp t (Z.of_nat k)) ->
  for_each (map Z.of_nat (seq k d)) (hadamard_loop_body res t) m
  = (Ret tt, with_array res (pair_transform amp t)
               (map (pair res) (flat_map (pair_writes t) (map Z.of_nat (seq k d)))) m).
Proof using Hwf.
  pose proof wf_dim as Hdim.
  induction d as [|d IH]; intros k m Hkd Hm.
  - simpl. unfold ret. rewrite <- pair_partial_all by (destruct Hwf; lia).
    replace (Z.of_nat (length amp)) with (Z.of_nat k) by lia.
    by rewrite with_array_id.
  - simpl seq. simpl map. simpl for_each.
    erewrite run_bind; [|apply run_hadamard_loop_body; [lia | done]].
    rewrite (IH (S k)).
    + rewrite with_array_twice. simpl flat_map. by rewrite map_app.
    + lia.
    + replace (Z.of_nat (S k)) with (Z.of_nat k + 1) by lia.
      by eapply holds_with_array.
Qed.

End SoftwareLoop.

(** ** The software path on a well-formed request *)

Lemma range_length_amp amp t n :
  well_formed amp t n -> range (2 ^ n) = map Z.of_nat (seq 0 (length amp)).
Proof. intros [-> _]. done. Qed.

(** The whole run: a fresh buffer is appended to the heap, it holds the
    pair transform of the input, and nothing else changes. *)
Lemma run_apply_hadamard_python self st amp t n m :
  holds_array m st amp -> well_formed amp t n ->
  _apply_hadamard_python self st t n m
  = (Ret (length (heap m)),
     Machine (heap m ++ [NdArray (pair_transform amp t)])
             (files m) (libraries m) (stdout m)
             (writes m ++ map (pair (length (heap m)))
                            (flat_map (pair_writes t) (range (2 ^ n))))).
Proof.
  intros Hst Hwf. unfold _apply_hadamard_python.
  assert (Hcopy : ndarray_copy st m
                  = (Ret (length (heap m)), set_heap (heap m ++ [NdArray amp]) m)).
  { unfold ndarray_copy. by rewrite Hst. }
  rewrite (run_bind _ _ _ _ _ Hcopy).
  erewrite run_bind; [|apply run_lshift_1; destruct Hwf; lia].
  rewrite (range_length_amp amp t n Hwf).
  erewrite run_bind.
  2:{ apply (run_hadamard_loop_from amp t n (length (heap m)) Hwf (length amp) 0%nat); [done|].
      rewrite pair_partial_0 by (destruct Hwf; lia).
      unfold holds_array. simpl. rewrite lookup_app_r by done.
      by rewrite Nat.sub_diag. }
  unfold ret, with_array. simpl. f_equal. f_equal.
  rewrite insert_app_r_alt by done. by rewrite Nat.sub_diag.
Qed.

(** ** Every index is assigned once *)

Lemma elem_of_range n x : x ∈ range n <-> 0 <= x < n.
Proof.
  unfold range. rewrite list_elem_of_fmap. split.
  - intros (k & -> & Hk). apply elem_of_seq in Hk. lia.
  - intros Hx. exists (Z.to_nat x). split; [lia|]. apply elem_of_seq. lia.
Qed.

Lemma NoDup_range n : NoDup (range n).
Proof.
  unfold range. apply NoDup_fmap_2; [|apply NoDup_seq].
  intros ???. lia.
Qed.

Lemma elem_of_pair_writes t i x :
  0 <= t ->
  x ∈ pair_writes t i <-> Z.testbit i t = false /\ (x = i \/ x = i + 2 ^ t).
Proof.
  intros Ht. unfold pair_writes. destruct (Z.testbit i t) eqn:Hb.
  - rewrite elem_of_nil. split; [done | by intros [? _]].
  - rewrite shiftl_1_pow2, lor_pow2_clear by done.
    rewrite !elem_of_cons, elem_of_nil. split; [|tauto]. intros [?|[?|[]]]; auto.
Qed.

Lemma NoDup_pair_writes t i : 0 <= t -> NoDup (pair_writes t i).
Proof.
  intros Ht. unfold pair_writes. destruct (Z.testbit i t) eqn:Hb; [constructor|].
  rewrite shiftl_1_pow2, lor_pow2_clear by done.
  assert (0 < 2 ^ t) by (apply Z.pow_pos_nonneg; lia).
  apply NoDup_cons. split; [|apply NoDup_singleton].
  rewrite elem_of_cons, elem_of_nil. lia.
Qed.

(** two visited indices that assign a common position are the same index *)
Lemma pair_writes_disjoint t i j x :
  0 <= t -> x ∈ pair_writes t i -> x ∈ pair_writes t j -> i = j.
Proof.
  intros Ht Hi Hj.
  apply elem_of_pair_writes in Hi as [Hbi Hi]; [|done].
  apply elem_of_pair_writes in Hj as [Hbj Hj]; [|done].
  pose proof (testbit_add_pow2 i t Ht Hbi) as Hi'.
  pose proof (testbit_add_pow2 j t Ht Hbj) as Hj'.
  destruct Hi as [Hi|Hi], Hj as [Hj|Hj]; subst x; try lia.
  - subst i. congruence.
  - subst j. congruence.
Qed.

Lemma NoDup_flat_map_pair_writes t l :
  0 <= t -> NoDup l -> NoDup (flat_map (pair_writes t) l).
Proof.
  intros Ht. induction 1 as [|i l Hi Hl IH]; simpl; [constructor|].
  apply NoDup_app. split; [by apply NoDup_pair_writes|]. split; [|done].
  intros x Hx Hx'. apply list_elem_of_In, in_flat_map in Hx' as (j & Hj & Hxj).
  apply list_elem_of_In in Hj, Hxj.
  assert (i = j) by (by eapply pair_writes_disjoint). by subst.
Qed.

(** The positions assigned by the loop, in order, are a rearrangement of
    all the indices of the buffer. *)
Lemma pair_writes_permutation t n :
  0 <= t < n -> flat_map (pair_writes t) (range (2 ^ n)) ≡ₚ range (2 ^ n).
Proof.
  intros Ht. apply NoDup_Permutation.
  - apply NoDup_flat_map_pair_writes; [lia | apply NoDup_range].
  - apply NoDup_range.
  - intros x. rewrite list_elem_of_In, in_flat_map. split.
    + intros (i & Hi & Hx). apply list_elem_of_In in Hi, Hx.
      apply elem_of_range in Hi. apply elem_of_pair_writes in Hx as [Hb Hx]; [|lia].
      apply elem_of_range. pose proof (add_pow2_lt i t n Ht Hi Hb).
      assert (0 < 2 ^ t) by (apply Z.pow_pos_nonneg; lia). lia.
    + intros Hx. apply elem_of_range in Hx. exists (pair_low t x).
      rewrite <- !list_elem_of_In. split.
      * apply elem_of_range. unfold pair_low.
        assert (0 < 2 ^ t) by (apply Z.pow_pos_nonneg; lia).
        destruct (Z.testbit x t) eqn:Hb; [|lia].
        pose proof (sub_pow2_nonneg x t ltac:(lia) ltac:(lia) Hb). lia.
      * apply elem_of_pair_writes; [lia|]. split; [apply pair_low_clear; lia|].
        unfold pair_low. destruct (Z.testbit x t); lia.
Qed.

Lemma pair_transform_at amp t n i :
  well_formed amp t n -> 0 <= i < 2 ^ n ->
  aget (pair_transform amp t) i = hadamard_at amp t i.
Proof.
  intros [Hlen Ht] Hi. unfold pair_transform. apply aget_tabulate.
  rewrite Hlen, Z2Nat.id; [done|]. apply Z.pow_nonneg. lia.
Qed.

(** C1.  On a buffer of length [2^num_qubits] and a target qubit inside
    the register, [_apply_hadamard_python] returns a fresh buffer that is
    the pair transform of the input: at every index [i] with bit [t] clear
    and [j = i | (1 << t)], [new[i] = (1/sqrt 2) * (amp[i] + amp[j])] and
    [new[j] = (1/sqrt 2) * (amp[i] - amp[j])].  The item assignments of the
    run are, in order, the two positions of each pair at its smaller index,
    and together they are a rearrangement of all indices: each pair is
    processed once and each index is written once. *)
Theorem apply_hadamard_python_pair_algorithm self st amp t n m :
  holds_array m st amp -> well_formed amp t n ->
  exists new m',
    run (_apply_hadamard_python self st t n) m = (Ret (length (heap m)), m')
    /\ holds_array m' (length (heap m)) new
    /\ new = pair_transform amp t
    /\ length new = length amp
    /\ (forall i j, 0 <= i < 2 ^ n -> Z.testbit i t = false ->
          j = Z.lor i (Z.shiftl 1 t) ->
          aget new i = Cmul (RtoC sqrt2_inv) (Cadd (aget amp i) (aget amp j)) /\
          aget new j = Cmul (RtoC sqrt2_inv) (Csub (aget amp i) (aget amp j)))
    /\ writes m' = writes m ++ map (pair (length (heap m)))
                                 (flat_map (pair_writes t) (range (2 ^ n)))
    /\ flat_map (pair_writes t) (range (2 ^ n)) ≡ₚ range (2 ^ n).
Proof.
  intros Hst Hwf. eexists _, _. split; [by apply run_apply_hadamard_python|].
  destruct Hwf as [Hlen Ht].
  split; [|split; [reflexivity|split; [apply length_pair_transform|split; [|split]]]].
  - unfold holds_array. simpl. rewrite lookup_app_r by done. by rewrite Nat.sub_diag.
  - intros i j Hi Hb ->. rewrite shiftl_1_pow2, lor_pow2_clear by (lia || done).
    pose proof (add_pow2_lt i t n Ht Hi Hb) as Hj.
    assert (0 < 2 ^ t) by (apply Z.pow_pos_nonneg; lia).
    rewrite !(pair_transform_at amp t n) by (done || lia).
    unfold hadamard_at. rewrite Hb, testbit_add_pow2 by (lia || done).
    by replace (i + 2 ^ t - 2 ^ t) with i by lia.
  - done.
  - by apply pair_writes_permutation.
Qed.

(** ** Frame rules *)

Section Frame.

Variable h0 : list obj.

Lemma frames_ret {A} (a : A) (Q : A -> Prop) : Q a -> frames h0 (ret a) Q.
Proof. intros Ha m Hm. simpl. split; [done|]. by intros ? [= <-]. Qed.

Lemma frames_raise {A} e (Q : A -> Prop) : frames h0 (raise e) Q.
Proof. intros m Hm. simpl. split; [done|]. by intros ? [=]. Qed.

Lemma frames_weaken {A} (c : M A) (Q Q' : A -> Prop) :
  frames h0 c Q -> (forall a, Q a -> Q' a) -> frames h0 c Q'.
Proof. intros Hc HQ m Hm. destruct (Hc m Hm) as [? ?]. split; [done|]. auto. Qed.

Lemma frames_bind {A B} (c : M A) (k : A -> M B) (Q : A -> Prop) (Q' : B -> Prop) :
  frames h0 c Q -> (forall a, Q a -> frames h0 (k a) Q') -> frames h0 (bind c k) Q'.
Proof.
  intros Hc Hk m Hm. specialize (Hc m Hm). unfold bind.
  destruct (c m) as [[a|e] m1]; simpl in *.
  - destruct Hc as [Hm1 Ha]. by apply (Hk a (Ha a eq_refl)).
  - split; [by destruct Hc|]. by intros ? [=].
Qed.

Lemma frames_try {A} (c : M A) (h : exn -> M A) (Q : A -> Prop) :
  frames h0 c Q -> (forall e, frames h0 (h e) Q) -> frames h0 (try_except c h) Q.
Proof.
  intros Hc Hh m Hm. specialize (Hc m Hm). unfold try_except.
  destruct (c m) as [[a|e] m1]; simpl in *; [done|].
  destruct (is_exception e); [|done]. apply Hh. by destruct Hc.
Qed.

Lemma frames_for_each xs (body : Z -> M unit) :
  (forall x, frames h0 (body x) (fun _ => True)) ->
  frames h0 (for_each xs body) (fun _ => True).
Proof.
  intros Hb. induction xs as [|x xs IH]; simpl.
  - by apply frames_ret.
  - eapply frames_bind; [apply Hb|]. intros _ _. apply IH.
Qed.


Lemma frames_collect {A} xs (f : Z -> M A) :
  (forall x, frames h0 (f x) (fun _ => True)) ->
  frames h0 (collect xs f) (fun _ => True).
Proof.
  intros Hf. induction xs as [|x xs IH]; simpl.
  - by apply frames_ret.
  - eapply frames_bind; [apply Hf|]. intros v _.
    eapply frames_bind; [apply IH|]. intros vs _. by apply frames_ret.
Qed.

(** an operation that does not touch the heap *)
Lemma frames_pure {A} (c : M A) :
  (forall m, heap (c m).2 = heap m) -> frames h0 c (fun _ => True).
Proof. intros Hc m Hm. split; [by rewrite Hc | done]. Qed.

Lemma prefix_insert_ge (h : list obj) a o :
  h0 `prefix_of` h -> (length h0 <= a)%nat -> h0 `prefix_of` <[a := o]> h.
Proof.
  intros [k ->] Ha. rewrite insert_app_r_alt by done. by apply prefix_app_r.
Qed.

Lemma frames_alloc o : frames h0 (alloc o) (fun a => (length h0 <= a)%nat).
Proof.
  intros m Hm. simpl. split.
  - by apply prefix_app_r.
  - intros ? [= <-]. by apply prefix_length.
Qed.

Lemma frames_ndarray_copy a : frames h0 (ndarray_copy a) (fun r => (length h0 <= r)%nat).
Proof.
  intros m Hm. unfold ndarray_copy.
  destruct (heap m !! a) as [[d| |]|]; try (split; [done | by intros ? [=]]).
  by apply frames_alloc.
Qed.


Lemma frames_np_array l : frames h0 (np_array l) (fun r => (length h0 <= r)%nat).
Proof. apply frames_alloc. Qed.

Lemma frames_carray_new n : frames h0 (carray_new n) (fun r => (length h0 <= r)%nat).
Proof.
  unfold carray_new. destruct (n <? 0); [apply frames_raise | apply frames_alloc].
Qed.

Lemma frames_py_lshift x y : frames h0 (py_lshift x y) (fun _ => True).
Proof. unfold py_lshift. destruct (y <? 0); [apply frames_raise | by apply frames_ret]. Qed.

Lemma frames_print msg : frames h0 (print msg) (fun _ => True).
Proof. by apply frames_pure. Qed.

Lemma frames_getattr {A} self (field : device -> A) :
  frames h0 (getattr self field) (fun _ => True).
Proof.
  apply frames_pure. intros m. unfold getattr.
  by destruct (heap m !! self) as [[| |]|].
Qed.

Lemma frames_ndarray_len a : frames h0 (ndarray_len a) (fun _ => True).
Proof.
  apply frames_pure. intros m. unfold ndarray_len.
  by destruct (heap m !! a) as [[| |]|].
Qed.

Lemma frames_ndarray_getitem a i : frames h0 (ndarray_getitem a i) (fun _ => True).
Proof.
  apply frames_pure. intros m. unfold ndarray_getitem.
  destruct (heap m !! a) as [[d| |]|]; try done.
  destruct (py_index _ _); [|done]. by destruct (d !! _).
Qed.

Lemma frames_carray_getitem a i : frames h0 (carray_getitem a i) (fun _ => True).
Proof.
  apply frames_pure. intros m. unfold carray_getitem.
  destruct (heap m !! a) as [[|d|]|]; try done.
  destruct (py_index _ _); [|done]. by destruct (d !! _).
Qed.

Lemma frames_ndarray_setitem (a : addr) i v :
  (length h0 <= a)%nat -> frames h0 (ndarray_setitem a i v) (fun _ => True).
Proof.
  intros Ha m Hm. unfold ndarray_setitem.
  destruct (heap m !! a) as [[d| |]|]; try done.
  destruct (py_index _ _); [|done]. simpl. split; [|done].
  by apply prefix_insert_ge.
Qed.

Lemma frames_carray_setitem (a : addr) i v :
  (length h0 <= a)%nat -> frames h0 (carray_setitem a i v) (fun _ => True).
Proof.
  intros Ha m Hm. unfold carray_setitem.
  destruct (heap m !! a) as [[|d|]|]; try done.
  destruct (py_index _ _); [|done]. simpl. split; [|done].
  by apply prefix_insert_ge.
Qed.

Lemma frames_setattr (self : addr) upd :
  (length h0 <= self)%nat -> frames h0 (setattr self upd) (fun _ => True).
Proof.
  intros Ha m Hm. unfold setattr.
  destruct (heap m !! self) as [[| |d]|]; try done.
  simpl. split; [|done]. by apply prefix_insert_ge.
Qed.

(** The kernel writes through the four pointers it is given, and through
    nothing else. *)
Lemma frames_call_hadamard_kernel lib path (ir ii or oi : addr) t n size :
  (length h0 <= ir)%nat -> (length h0 <= ii)%nat ->
  (length h0 <= or)%nat -> (length h0 <= oi)%nat ->
  frames h0 (call_hadamard_kernel lib path ir ii or oi t n size) (fun _ => True).
Proof.
  intros ???? m Hm. unfold call_hadamard_kernel.
  destruct (hadamard_kernel_execute_c lib) as [kernel|]; [|done].
  destruct (heap m !! ir) as [[|a|]|]; try done.
  destruct (heap m !! ii) as [[|b|]|]; try done.
  destruct (heap m !! or) as [[|c|]|]; try done.
  destruct (heap m !! oi) as [[|d|]|]; try done.
  simpl. split; [|done]. by do 4 (apply prefix_insert_ge; [|done]).
Qed.

(** *** The methods *)

Lemma frames_hadamard_loop_body res t i :
  (length h0 <= res)%nat -> frames h0 (hadamard_loop_body res t i) (fun _ => True).
Proof.
  intros Hres. unfold hadamard_loop_body.
  eapply frames_bind; [apply frames_py_lshift|]. intros bit _.
  destruct (i <? Z.lxor i bit); [|by apply frames_ret].
  eapply frames_bind; [apply frames_ndarray_getitem|]. intros temp0 _.
  eapply frames_bind; [apply frames_ndarray_getitem|]. intros temp1 _.
  eapply frames_bind; [by apply frames_ndarray_setitem|]. intros _ _.
  by apply frames_ndarray_setitem.
Qed.

Lemma frames_apply_hadamard_python self st t n :
  frames h0 (_apply_hadamard_python self st t n) (fun r => (length h0 <= r)%nat).
Proof.
  unfold _apply_hadamard_python.
  eapply frames_bind; [apply frames_ndarray_copy|]. intros res Hres.
  eapply frames_bind; [apply frames_py_lshift|]. intros dim _.
  eapply frames_bind.
  { apply frames_for_each. intros i. by apply frames_hadamard_loop_body. }
  intros _ _. by apply frames_ret.
Qed.

Lemma frames_marshal_body st ir ii i :
  (length h0 <= ir)%nat -> (length h0 <= ii)%nat ->
  frames h0 (marshal_body st ir ii i) (fun _ => True).
Proof.
  intros ??. unfold marshal_body.
  eapply frames_bind; [apply frames_ndarray_getitem|]. intros c _.
  eapply frames_bind; [by apply frames_carray_setitem|]. intros _ _.
  by apply frames_carray_setitem.
Qed.

Lemma frames_unmarshal_item or oi i :
  frames h0 (unmarshal_item or oi i) (fun _ => True).
Proof.
  unfold unmarshal_item.
  eapply frames_bind; [apply frames_carray_getitem|]. intros re _.
  eapply frames_bind; [apply frames_carray_getitem|]. intros im _.
  by apply frames_ret.
Qed.

Lemma frames_apply_hadamard_cpp self st t n :
  frames h0 (_apply_hadamard_cpp self st t n) (fun r => (length h0 <= r)%nat).
Proof.
  unfold _apply_hadamard_cpp.
  eapply frames_bind; [apply frames_getattr|]. intros [lib|] _.
  2:{ apply frames_apply_hadamard_python. }
  apply frames_try.
  2:{ intros e. eapply frames_bind; [apply frames_print|]. intros _ _.
      apply frames_apply_hadamard_python. }
  eapply frames_bind; [apply frames_ndarray_len|]. intros size _.
  eapply frames_bind; [apply frames_carray_new|]. intros ir Hir.
  eapply frames_bind; [apply frames_carray_new|]. intros ii Hii.
  eapply frames_bind; [apply frames_carray_new|]. intros or Hor.
  eapply frames_bind; [apply frames_carray_new|]. intros oi Hoi.
  eapply frames_bind.
  { apply frames_for_each. intros i. by apply frames_marshal_body. }
  intros _ _.
  eapply frames_bind; [apply frames_getattr|]. intros path _.
  eapply frames_bind; [by apply frames_call_hadamard_kernel|]. intros status _.
  destruct (status =? 0).
  - eapply frames_bind.
    { apply frames_collect. intros i. apply frames_unmarshal_item. }
    intros result _. apply frames_np_array.
  - eapply frames_bind; [apply frames_print|]. intros _ _.
    apply frames_apply_hadamard_python.
Qed.


End Frame.

(** ** Heap-level steps *)

Lemma steps_ret {A} h (a : A) : steps h (ret a) a h.
Proof. by intros m Hm. Qed.

Lemma steps_bind {A B} h h1 h2 (c : M A) (k : A -> M B) a b :
  steps h c a h1 -> steps h1 (k a) b h2 -> steps h (bind c k) b h2.
Proof.
  intros Hc Hk m Hm. destruct (Hc m Hm) as [E1 E2]. unfold bind.
  destruct (c m) as [o m1]. simpl in *. subst o. by apply Hk.
Qed.

Lemma fails_bind {A B} h h1 (c : M A) (k : A -> M B) e :
  fails h c e h1 -> fails h (bind c k) e h1.
Proof.
  intros Hc m Hm. destruct (Hc m Hm) as [E1 E2]. unfold bind.
  destruct (c m) as [o m1]. simpl in *. by subst o.
Qed.

Lemma steps_bind_fails {A B} h h1 h2 (c : M A) (k : A -> M B) a e :
  steps h c a h1 -> fails h1 (k a) e h2 -> fails h (bind c k) e h2.
Proof.
  intros Hc Hk m Hm. destruct (Hc m Hm) as [E1 E2]. unfold bind.
  destruct (c m) as [o m1]. simpl in *. subst o. by apply Hk.
Qed.

Lemma steps_try {A} h h1 (c : M A) (hd : exn -> M A) a :
  steps h c a h1 -> steps h (try_except c hd) a h1.
Proof.
  intros Hc m Hm. destruct (Hc m Hm) as [E1 E2]. unfold try_except.
  destruct (c m) as [o m1]. simpl in *. by subst o.
Qed.

Lemma steps_try_handler {A} h h1 h2 (c : M A) (hd : exn -> M A) e a :
  fails h c e h1 -> is_exception e = true -> steps h1 (hd e) a h2 ->
  steps h (try_except c hd) a h2.
Proof.
  intros Hc He Hh m Hm. destruct (Hc m Hm) as [E1 E2]. unfold try_except.
  destruct (c m) as [o m1]. simpl in *. subst o. rewrite He. by apply Hh.
Qed.


(** a loop over [a, a+1, ..., a+d-1] whose passes all succeed *)
Lemma steps_for_each_seq (H : nat -> list obj) (body : Z -> M unit) d : forall a,
  (forall k, (a <= k < a + d)%nat -> steps (H k) (body (Z.of_nat k)) tt (H (S k))) ->
  steps (H a) (for_each (map Z.of_nat (seq a d)) body) tt (H (a + d)%nat).
Proof.
  induction d as [|d IH]; intros a Hb; simpl.
  - rewrite Nat.add_0_r. apply steps_ret.
  - eapply steps_bind; [apply Hb; lia|].
    replace (a + S d)%nat with (S a + d)%nat by lia.
    apply IH. intros k Hk. apply Hb. lia.
Qed.

Lemma steps_alloc h o : steps h (alloc o) (length h) (h ++ [o]).
Proof. intros m <-. done. Qed.

Lemma steps_print h msg : steps h (print msg) tt h.
Proof. intros m <-. done. Qed.

Lemma steps_carray_new h n :
  0 <= n -> steps h (carray_new n) (length h) (h ++ [CDoubleArray (replicate (Z.to_nat n) 0%R)]).
Proof.
  intros Hn. unfold carray_new. destruct (Z.ltb_spec n 0); [lia|]. apply steps_alloc.
Qed.

Lemma steps_np_zeros h n :
  0 <= n -> steps h (np_zeros n) (length h) (h ++ [NdArray (replicate (Z.to_nat n) C0)]).
Proof.
  intros Hn. unfold np_zeros. destruct (Z.ltb_spec n 0); [lia|]. apply steps_alloc.
Qed.

Lemma steps_getattr {A} h (self : addr) d (field : device -> A) :
  h !! self = Some (DeviceObj d) -> steps h (getattr self field) (field d) h.
Proof. intros Hs m <-. unfold getattr. by rewrite Hs. Qed.

Lemma steps_ndarray_len h (a : addr) d :
  h !! a = Some (NdArray d) -> steps h (ndarray_len a) (Z.of_nat (length d)) h.
Proof. intros Ha m <-. unfold ndarray_len. by rewrite Ha. Qed.

Lemma steps_ndarray_getitem h (a : addr) d i :
  h !! a = Some (NdArray d) -> 0 <= i < Z.of_nat (length d) ->
  steps h (ndarray_getitem a i) (aget d i) h.
Proof. intros Ha Hi m <-. by rewrite (run_getitem m a d i). Qed.

Lemma steps_ndarray_setitem h (a : addr) d i v :
  h !! a = Some (NdArray d) -> 0 <= i < Z.of_nat (length d) ->
  steps h (ndarray_setitem a i v) tt (<[a := NdArray (<[Z.to_nat i := v]> d)]> h).
Proof. intros Ha Hi m <-. by rewrite (run_setitem m a d i). Qed.

Lemma steps_carray_setitem h (a : addr) d i v :
  h !! a = Some (CDoubleArray d) -> 0 <= i < Z.of_nat (length d) ->
  steps h (carray_setitem a i v) tt (<[a := CDoubleArray (<[Z.to_nat i := v]> d)]> h).
Proof.
  intros Ha Hi m <-. unfold carray_setitem. by rewrite Ha, py_index_in.
Qed.

Lemma steps_carray_getitem h (a : addr) d i v :
  h !! a = Some (CDoubleArray d) -> 0 <= i -> d !! Z.to_nat i = Some v ->
  steps h (carray_getitem a i) v h.
Proof.
  intros Ha Hi Hv m <-. unfold carray_getitem.
  rewrite Ha, py_index_in, Hv; [done|]. apply lookup_lt_Some in Hv. lia.
Qed.

Lemma steps_apply_hadamard_python h self st amp t n :
  h !! st = Some (NdArray amp) -> well_formed amp t n ->
  steps h (_apply_hadamard_python self st t n) (length h)
        (h ++ [NdArray (pair_transform amp t)]).
Proof.
  intros Hst Hwf m <-. by rewrite (run_apply_hadamard_python self st amp t n m).
Qed.

(** ** Marshalling *)

Lemma length_marshalled part amp k : length (marshalled part amp k) = length amp.
Proof. unfold marshalled. by rewrite length_map, length_seq. Qed.

Lemma marshalled_0 part amp : marshalled part amp 0 = replicate (length amp) 0%R.
Proof.
  apply list_eq. intros x. unfold marshalled.
  rewrite list_lookup_fmap. destruct (decide (x < length amp)%nat).
  - rewrite lookup_seq_lt, lookup_replicate_2 by done. done.
  - rewrite lookup_seq_ge by lia. symmetry. apply lookup_ge_None_2.
    rewrite length_replicate. lia.
Qed.

Lemma marshalled_all part amp : marshalled part amp (length amp) = map part amp.
Proof.
  apply list_eq. intros x. unfold marshalled.
  rewrite !list_lookup_fmap. destruct (decide (x < length amp)%nat).
  - rewrite lookup_seq_lt by done. simpl.
    destruct (Nat.ltb_spec x (length amp)); [|lia].
    rewrite <- (Nat2Z.id x) at 2. rewrite aget_lookup by lia. done.
  - rewrite lookup_seq_ge, lookup_ge_None_2 by lia. done.
Qed.

Lemma marshalled_step part amp k :
  (k < length amp)%nat ->
  <[k := part (aget amp (Z.of_nat k))]> (marshalled part amp k) = marshalled part amp (S k).
Proof.
  intros Hk. apply list_eq. intros x. unfold marshalled.
  destruct (decide (x = k)) as [->|Hne].
  - rewrite list_lookup_insert_eq by (by rewrite length_map, length_seq).
    rewrite list_lookup_fmap, lookup_seq_lt by done. simpl.
    destruct (Nat.ltb_spec k (S k)); [done | lia].
  - rewrite list_lookup_insert_ne by done. rewrite !list_lookup_fmap.
    destruct (decide (x < length amp)%nat).
    + rewrite lookup_seq_lt by done. simpl.
      destruct (Nat.ltb_spec x k), (Nat.ltb_spec x (S k)); done || lia.
    + by rewrite lookup_seq_ge by lia.
Qed.

Section Marshal.

Variables (h : list obj) (st : addr) (amp : list C).
Hypothesis Hst : h !! st = Some (NdArray amp).

Lemma call_heap_lookup_old ir ii or oi (a : addr) o :
  h !! a = Some o -> call_heap h ir ii or oi !! a = Some o.
Proof using Type. intros Ha. unfold call_heap. by apply lookup_app_l_Some. Qed.

Lemma call_heap_lookup ir ii or oi (k : nat) :
  call_heap h ir ii or oi !! (length h + k)%nat
  = [CDoubleArray ir; CDoubleArray ii; CDoubleArray or; CDoubleArray oi] !! k.
Proof using Type. unfold call_heap. by rewrite lookup_app_r, Nat.add_sub' by lia. Qed.

Lemma call_heap_insert ir ii or oi (k : nat) o :
  <[(length h + k)%nat := o]> (call_heap h ir ii or oi)
  = h ++ <[k := o]> [CDoubleArray ir; CDoubleArray ii; CDoubleArray or; CDoubleArray oi].
Proof using Type. unfold call_heap. by rewrite insert_app_r. Qed.

Lemma call_heap_lookup_0 ir ii or oi :
  call_heap h ir ii or oi !! length h = Some (CDoubleArray ir).
Proof using Type. rewrite <- (Nat.add_0_r (length h)) at 1. by rewrite call_heap_lookup. Qed.

Lemma call_heap_insert_0 ir ii or oi o :
  <[length h := o]> (call_heap h ir ii or oi)
  = h ++ [o; CDoubleArray ii; CDoubleArray or; CDoubleArray oi].
Proof using Type. rewrite <- (Nat.add_0_r (length h)) at 1. by rewrite call_heap_insert. Qed.

Lemma steps_marshal_body (k : nat) or oi :
  (k < length amp)%nat ->
  steps (call_heap h (marshalled Re amp k) (marshalled Im amp k) or oi)
        (marshal_body st (length h) (length h + 1)%nat (Z.of_nat k)) tt
        (call_heap h (marshalled Re amp (S k)) (marshalled Im amp (S k)) or oi).
Proof using Hst.
  intros Hk. unfold marshal_body.
  eapply steps_bind.
  { eapply steps_ndarray_getitem; [by apply call_heap_lookup_old | lia]. }
  eapply steps_bind.
  { eapply steps_carray_setitem; [by rewrite call_heap_lookup_0|].
    rewrite length_marshalled. lia. }
  rewrite call_heap_insert_0. simpl. rewrite Nat2Z.id, marshalled_step by done.
  pose proof (steps_carray_setitem
    (call_heap h (marshalled Re amp (S k)) (marshalled Im amp k) or oi)
    (length h + 1)%nat (marshalled Im amp k) (Z.of_nat k) (Im (aget amp (Z.of_nat k)))) as Hs.
  rewrite call_heap_insert in Hs. simpl in Hs.
  rewrite Nat2Z.id, marshalled_step in Hs by done.
  apply Hs; [by rewrite call_heap_lookup|]. rewrite length_marshalled. lia.
Qed.

(** The marshalling loop copies the real and imaginary parts, index by
    index, into the two input buffers. *)
Lemma steps_marshal_loop :
  steps (call_heap h (replicate (length amp) 0%R) (replicate (length amp) 0%R)
                   (replicate (length amp) 0%R) (replicate (length amp) 0%R))
        (for_each (range (Z.of_nat (length amp)))
                  (marshal_body st (length h) (length h + 1)%nat)) tt
        (call_heap h (map Re amp) (map Im amp)
                   (replicate (length amp) 0%R) (replicate (length amp) 0%R)).
Proof using Hst.
  unfold range. rewrite Nat2Z.id.
  rewrite <- (marshalled_0 Re amp) at 1. rewrite <- (marshalled_0 Im amp) at 1.
  rewrite <- (marshalled_all Re amp), <- (marshalled_all Im amp).
  apply (steps_for_each_seq
           (fun k => call_heap h (marshalled Re amp k) (marshalled Im amp k)
                       (replicate (length amp) 0%R) (replicate (length amp) 0%R))
           _ (length amp) 0%nat).
  intros k Hk. apply steps_marshal_body. lia.
Qed.

End Marshal.

(** ** The accelerated path up to the call of the kernel *)

Lemma hoare_bind_steps {A B} h h1 (c : M A) (k : A -> M B) a Q :
  steps h c a h1 -> hoare (fun m => heap m = h1) (k a) Q ->
  hoare (fun m => heap m = h) (bind c k) Q.
Proof.
  intros Hc Hk m Hm. destruct (Hc m Hm) as [E1 E2]. unfold bind.
  destruct (c m) as [o m1]. simpl in *. subst o. by apply Hk.
Qed.

Lemma hoare_try_bind_steps {A B} h h1 (c : M A) (k : A -> M B) hd a Q :
  steps h c a h1 -> hoare (fun m => heap m = h1) (try_except (k a) hd) Q ->
  hoare (fun m => heap m = h) (try_except (bind c k) hd) Q.
Proof.
  intros Hc Hk m Hm. destruct (Hc m Hm) as [E1 E2]. unfold try_except, bind.
  destruct (c m) as [o m1]. simpl in *. subst o. by apply Hk.
Qed.


Lemma length_call_heap h ir ii or oi : length (call_heap h ir ii or oi) = (length h + 4)%nat.
Proof. unfold call_heap. by rewrite length_app. Qed.

(** With a library loaded, [_apply_hadamard_cpp] allocates the four
    buffers after the heap, marshals the state into the first two, and
    reaches the call; whatever holds of the rest of the [try] statement
    from there holds of the method. *)
Lemma apply_hadamard_cpp_reaches_call h self st d lib amp t n Q :
  h !! self = Some (DeviceObj d) -> cpp_lib d = Some lib ->
  h !! st = Some (NdArray amp) ->
  let zeros := replicate (length amp) 0%R in
  hoare (fun m => heap m = call_heap h (map Re amp) (map Im amp) zeros zeros)
    (try_except
      (status <- call_hadamard_kernel lib (xclbin_path d)
          (length h) (length h + 1)%nat (length h + 2)%nat (length h + 3)%nat
          t n (Z.of_nat (length amp)) ;;
       if status =? 0 then
         result <- collect (range (Z.of_nat (length amp)))
                     (unmarshal_item (length h + 2)%nat (length h + 3)%nat) ;;
         np_array result
       else
         print (MsgKernelFailed status) ;;
         _apply_hadamard_python self st t n)
      (fun e => print (MsgKernelError e) ;; _apply_hadamard_python self st t n))
    Q ->
  hoare (fun m => heap m = h) (_apply_hadamard_cpp self st t n) Q.
Proof.
  intros Hself Hlib Hst zeros Hrest. unfold _apply_hadamard_cpp.
  eapply hoare_bind_steps; [by apply steps_getattr|]. rewrite Hlib.
  eapply hoare_try_bind_steps; [by apply steps_ndarray_len|].
  do 4 (eapply hoare_try_bind_steps; [apply steps_carray_new; lia|]).
  rewrite !length_app, Nat2Z.id. simpl length. rewrite <- !app_assoc. simpl app.
  replace (length h + 1 + 1 + 1)%nat with (length h + 3)%nat by lia.
  replace (length h + 1 + 1)%nat with (length h + 2)%nat by lia.
  eapply hoare_try_bind_steps; [by apply steps_marshal_loop|].
  eapply hoare_try_bind_steps.
  { eapply steps_getattr. by apply call_heap_lookup_old. }
  exact Hrest.
Qed.

(** The three ways the call can end.  In each the four buffers hold what
    the kernel left in them, and the rest of the heap is as before. *)
Lemma call_hadamard_kernel_ends h lib path a b c d t n size :
  let call := call_hadamard_kernel lib path
                (length h) (length h + 1)%nat (length h + 2)%nat (length h + 3)%nat
                t n size in
  match hadamard_kernel_execute_c lib with
  | None => fails (call_heap h a b c d) call AttributeError (call_heap h a b c d)
  | Some kernel =>
      let r := kernel path a b c d (c_int t) (c_int n) (c_int size) in
      let h' := call_heap h (k_input_real r) (k_input_imag r)
                            (k_output_real r) (k_output_imag r) in
      match k_status r with
      | Ret s => steps (call_heap h a b c d) call (c_int s) h'
      | Raise e => fails (call_heap h a b c d) call e h'
      end
  end.
Proof.
  intros call. unfold call, call_hadamard_kernel.
  destruct (hadamard_kernel_execute_c lib) as [kernel|].
  2:{ by intros m <-. }
  assert (Hh : forall r : kernel_result,
    <[(length h + 3)%nat := CDoubleArray (k_output_imag r)]>
      (<[(length h + 2)%nat := CDoubleArray (k_output_real r)]>
        (<[(length h + 1)%nat := CDoubleArray (k_input_imag r)]>
          (<[length h := CDoubleArray (k_input_real r)]> (call_heap h a b c d))))
    = call_heap h (k_input_real r) (k_input_imag r) (k_output_real r) (k_output_imag r)).
  { intros r. rewrite call_heap_insert_0. by rewrite !insert_app_r. }
  simpl. destruct (k_status _) as [s|e] eqn:Es.
  - intros m Hm. rewrite Hm, call_heap_lookup_0, !call_heap_lookup. simpl. by rewrite Es, Hh.
  - intros m Hm. rewrite Hm, call_heap_lookup_0, !call_heap_lookup. simpl. by rewrite Es, Hh.
Qed.

(** ** The accelerated path when the kernel declines *)

Lemma steps_apply_hadamard_cpp_declined h self st d lib amp t n :
  h !! self = Some (DeviceObj d) -> cpp_lib d = Some lib ->
  h !! st = Some (NdArray amp) -> well_formed amp t n ->
  kernel_declines lib (xclbin_path d) amp t n ->
  exists ir ii or oi,
    steps h (_apply_hadamard_cpp self st t n) (length h + 4)%nat
          (call_heap h ir ii or oi ++ [NdArray (pair_transform amp t)]).
Proof.
  intros Hself Hlib Hst Hwf Hdecl.
  set (zeros := replicate (length amp) 0%R).
  assert (Hfallback : forall ir ii or oi msg,
    steps (call_heap h ir ii or oi)
          (print msg ;; _apply_hadamard_python self st t n)
          (length h + 4)%nat
          (call_heap h ir ii or oi ++ [NdArray (pair_transform amp t)])).
  { intros. eapply steps_bind; [apply steps_print|].
    rewrite <- (length_call_heap h ir ii or oi).
    apply steps_apply_hadamard_python; [by apply call_heap_lookup_old | done]. }
  pose proof (call_hadamard_kernel_ends h lib (xclbin_path d)
                (map Re amp) (map Im amp) zeros zeros t n (Z.of_nat (length amp))) as Hcall.
  unfold kernel_declines, kernel_report in Hdecl. fold zeros in Hdecl. simpl in Hcall.
  destruct (hadamard_kernel_execute_c lib) as [kernel|].
  2:{ eexists _, _, _, _. eapply apply_hadamard_cpp_reaches_call; [done ..|].
      eapply steps_try_handler; [by apply fails_bind | done | apply Hfallback]. }
  destruct (k_status _) as [s|e].
  - eexists _, _, _, _. eapply apply_hadamard_cpp_reaches_call; [done ..|].
    apply steps_try. eapply steps_bind; [exact Hcall|].
    destruct (Z.eqb_spec (c_int s) 0); [done|]. apply Hfallback.
  - eexists _, _, _, _. eapply apply_hadamard_cpp_reaches_call; [done ..|].
    eapply steps_try_handler; [by apply fails_bind | done | apply Hfallback].
Qed.

(** ** The software path on a target outside the register *)









(** reading a triple back as a run *)
Lemma steps_run {A} h (c : M A) v h' m :
  steps h c v h' -> heap m = h ->
  exists m', run c m = (Ret v, m') /\ heap m' = h'.
Proof.
  intros Hc Hm. destruct (Hc m Hm) as [E1 E2]. exists (c m).2. split; [|done].
  unfold run. destruct (c m). simpl in *. by subst.
Qed.


Lemma frames_run {A} (c : M A) (Q : A -> Prop) m :
  frames (heap m) c Q ->
  preserved m (run c m).2 /\ forall a, (run c m).1 = Ret a -> Q a.
Proof. intros Hc. by apply (Hc m). Qed.

Lemma preserved_holds m m' a d : preserved m m' -> holds_array m a d -> holds_array m' a d.
Proof. unfold preserved, holds_array. intros Hp Ha. by eapply prefix_lookup_Some. Qed.


(** ** Single calls *)

Lemma fresh_address m (st r : addr) amp :
  holds_array m st amp -> (length (heap m) <= r)%nat -> r <> st /\ heap m !! r = None.
Proof.
  intros Hst Hr. apply lookup_lt_Some in Hst. split; [lia|]. by apply lookup_ge_None_2.
Qed.

(** C9.  [_apply_hadamard_python] works on a copy: whatever its arguments
    and its outcome, every object that was in the heap, the caller's input
    buffer among them, is element for element what it was; a returned
    buffer is a new one; and on a well-formed request it does return. *)
Theorem apply_hadamard_python_input_unchanged self st amp t n m :
  holds_array m st amp ->
  let res := run (_apply_hadamard_python self st t n) m in
  holds_array res.2 st amp
  /\ preserved m res.2
  /\ (forall r, res.1 = Ret r -> r <> st /\ heap m !! r = None)
  /\ (well_formed amp t n -> exists r, res.1 = Ret r).
Proof.
  intros Hst res.
  destruct (frames_run _ _ m (frames_apply_hadamard_python (heap m) self st t n)) as [Hp Hr].
  fold res in Hp, Hr. split; [by eapply preserved_holds|]. split; [done|]. split.
  - intros r E. eapply fresh_address; [done | by apply Hr].
  - intros Hwf. exists (length (heap m)). unfold res, run.
    by rewrite (run_apply_hadamard_python self st amp t n m).
Qed.

Lemma apply_hadamard_python_input_unchanged_witness :
  let m := machine_of [NdArray ket0] in
  let res := run (_apply_hadamard_python 0%nat 0%nat 0 1) m in
  holds_array res.2 0%nat ket0
  /\ preserved m res.2
  /\ (forall r, res.1 = Ret r -> r <> 0%nat /\ heap m !! r = None)
  /\ (well_formed ket0 0 1 -> exists r, res.1 = Ret r).
Proof.
  apply (apply_hadamard_python_input_unchanged 0%nat 0%nat ket0 0 1
           (machine_of [NdArray ket0])).
  reflexivity.
Defined.

(** C8.  [_apply_hadamard_cpp] never writes into the buffer it is given:
    for every device, every kernel and every outcome of the call (success,
    nonzero status, exception), every object that was in the heap is
    unchanged after the call, and a returned buffer is a new one. *)
Theorem apply_hadamard_cpp_input_unchanged self st amp t n m :
  holds_array m st amp ->
  let res := run (_apply_hadamard_cpp self st t n) m in
  holds_array res.2 st amp
  /\ preserved m res.2
  /\ (forall r, res.1 = Ret r -> r <> st /\ heap m !! r = None).
Proof.
  intros Hst res.
  destruct (frames_run _ _ m (frames_apply_hadamard_cpp (heap m) self st t n)) as [Hp Hr].
  fold res in Hp, Hr. split; [by eapply preserved_holds|]. split; [done|].
  intros r E. eapply fresh_address; [done | by apply Hr].
Qed.

Lemma apply_hadamard_cpp_input_unchanged_witness :
  let m := machine_of [DeviceObj (sample_device 1 true (Some (CDLL (Some idle_kernel))));
                       NdArray ket0] in
  let res := run (_apply_hadamard_cpp 0%nat 1%nat 0 1) m in
  holds_array res.2 1%nat ket0
  /\ preserved m res.2
  /\ (forall r, res.1 = Ret r -> r <> 1%nat /\ heap m !! r = None).
Proof.
  apply (apply_hadamard_cpp_input_unchanged 0%nat 1%nat ket0 0 1).
  reflexivity.
Defined.

(** C2.  When the call of the kernel reports a nonzero status, or raises at
    the call boundary an exception that derives from [Exception] (what
    [except Exception] catches: [OSError], [ctypes.ArgumentError], the
    [AttributeError] of a missing symbol, ...), [_apply_hadamard_cpp]
    returns a buffer with exactly the contents the software path returns
    for the same state and target, and raises nothing; the input buffer is
    untouched. *)
Theorem apply_hadamard_cpp_falls_back self st d lib amp t n m :
  heap m !! self = Some (DeviceObj d) -> cpp_lib d = Some lib ->
  holds_array m st amp -> well_formed amp t n ->
  kernel_declines lib (xclbin_path d) amp t n ->
  exists r m1 r' m2 new,
    run (_apply_hadamard_cpp self st t n) m = (Ret r, m1)
    /\ run (_apply_hadamard_python self st t n) m = (Ret r', m2)
    /\ holds_array m1 r new /\ holds_array m2 r' new
    /\ new = pair_transform amp t
    /\ holds_array m1 st amp.
Proof.
  intros Hself Hlib Hst Hwf Hdecl.
  destruct (steps_apply_hadamard_cpp_declined (heap m) self st d lib amp t n
              Hself Hlib Hst Hwf Hdecl) as (ir & ii & or & oi & Hcpp).
  destruct (steps_run _ _ _ _ m Hcpp eq_refl) as (m1 & E1 & Hm1).
  destruct (steps_run _ _ _ _ m
              (steps_apply_hadamard_python (heap m) self st amp t n Hst Hwf) eq_refl)
    as (m2 & E2 & Hm2).
  exists (length (heap m) + 4)%nat, m1, (length (heap m)), m2, (pair_transform amp t).
  split; [done|]. split; [done|]. unfold holds_array. rewrite Hm1, Hm2.
  split; [|split; [|split; [done|]]].
  - rewrite <- (length_call_heap (heap m) ir ii or oi), lookup_app_r by done.
    by rewrite Nat.sub_diag.
  - rewrite lookup_app_r by done. by rewrite Nat.sub_diag.
  - apply lookup_app_l_Some. by apply call_heap_lookup_old.
Qed.

Lemma apply_hadamard_cpp_falls_back_witness :
  let d := sample_device 1 true (Some (CDLL (Some declining_kernel))) in
  let m := machine_of [DeviceObj d; NdArray ket0] in
  exists r m1 r' m2 new,
    run (_apply_hadamard_cpp 0%nat 1%nat 0 1) m = (Ret r, m1)
    /\ run (_apply_hadamard_python 0%nat 1%nat 0 1) m = (Ret r', m2)
    /\ holds_array m1 r new /\ holds_array m2 r' new
    /\ new = pair_transform ket0 0
    /\ holds_array m1 1%nat ket0.
Proof.
  apply (apply_hadamard_cpp_falls_back 0%nat 1%nat
           (sample_device 1 true (Some (CDLL (Some declining_kernel))))
           (CDLL (Some declining_kernel)) ket0 0 1).
  - reflexivity.
  - reflexivity.
  - reflexivity.
  - split; [reflexivity | lia].
  - unfold kernel_declines, kernel_report. simpl. vm_compute. discriminate.
Defined.

Lemma run_apply_hadamard_cpp_no_library self st d t n m :
  heap m !! self = Some (DeviceObj d) -> cpp_lib d = None ->
  _apply_hadamard_cpp self st t n m = _apply_hadamard_python self st t n m.
Proof.
  intros Hself Hlib. unfold _apply_hadamard_cpp, bind, getattr. by rewrite Hself, Hlib.
Qed.

(** C10.  With no library loaded ([cpp_lib] is [None]),
    [_apply_hadamard_cpp] is the software path: same outcome, same final
    machine, for every state and target and whatever [use_fpga] says; so on
    a well-formed request it returns the pair transform and raises
    nothing. *)
Theorem apply_hadamard_cpp_without_library self st d t n m :
  heap m !! self = Some (DeviceObj d) -> cpp_lib d = None ->
  run (_apply_hadamard_cpp self st t n) m = run (_apply_hadamard_python self st t n) m
  /\ (forall amp, holds_array m st amp -> well_formed amp t n ->
      exists r m', run (_apply_hadamard_cpp self st t n) m = (Ret r, m')
                   /\ holds_array m' r (pair_transform amp t)).
Proof.
  intros Hself Hlib.
  assert (E : run (_apply_hadamard_cpp self st t n) m
              = run (_apply_hadamard_python self st t n) m).
  { unfold run. by eapply run_apply_hadamard_cpp_no_library. }
  split; [done|]. intros amp Hst Hwf. rewrite E.
  destruct (steps_run _ _ _ _ m
              (steps_apply_hadamard_python (heap m) self st amp t n Hst Hwf) eq_refl)
    as (m' & E' & Hm').
  exists (length (heap m)), m'. split; [done|].
  unfold holds_array. rewrite Hm', lookup_app_r by done. by rewrite Nat.sub_diag.
Qed.

Lemma apply_hadamard_cpp_without_library_witness :
  let m := machine_of [DeviceObj (sample_device 1 true None); NdArray ket0] in
  run (_apply_hadamard_cpp 0%nat 1%nat 0 1) m = run (_apply_hadamard_python 0%nat 1%nat 0 1) m
  /\ (forall amp, holds_array m 1%nat amp -> well_formed amp 0 1 ->
      exists r m', run (_apply_hadamard_cpp 0%nat 1%nat 0 1) m = (Ret r, m')
                   /\ holds_array m' r (pair_transform amp 0)).
Proof.
  apply (apply_hadamard_cpp_without_library 0%nat 1%nat (sample_device 1 true None)).
  - reflexivity.
  - reflexivity.
Defined.

(** ** Algebra of the pair update *)

Lemma sqrt2_inv_sqr : (sqrt2_inv * sqrt2_inv = 1 / 2)%R.
Proof.
  unfold sqrt2_inv.
  assert (Hs : (sqrt 2 * sqrt 2 = 2)%R) by (apply sqrt_sqrt; lra).
  assert (Hnz : (sqrt 2 <> 0)%R).
  { intros E. rewrite E in Hs. lra. }
  apply (Rmult_eq_reg_r 2); [|lra]. rewrite <- Hs at 3. field; done.
Qed.

Lemma sqrt2_inv_pos : (0 < sqrt2_inv)%R.
Proof.
  unfold sqrt2_inv. apply Rdiv_lt_0_compat; [lra|]. apply sqrt_lt_R0. lra.
Qed.

(** applying the update to an updated pair gives the pair back *)
Lemma pair_update_twice_low a b :
  Cmul (RtoC sqrt2_inv)
       (Cadd (Cmul (RtoC sqrt2_inv) (Cadd a b)) (Cmul (RtoC sqrt2_inv) (Csub a b))) = a.
Proof.
  destruct a as [a1 a2], b as [b1 b2]. unfold Cmul, Cadd, Csub, RtoC, Re, Im. simpl.
  pose proof sqrt2_inv_sqr as Hs. f_equal.
  - transitivity (2 * (sqrt2_inv * sqrt2_inv) * a1)%R; [ring | rewrite Hs; field].
  - transitivity (2 * (sqrt2_inv * sqrt2_inv) * a2)%R; [ring | rewrite Hs; field].
Qed.

Lemma pair_update_twice_high a b :
  Cmul (RtoC sqrt2_inv)
       (Csub (Cmul (RtoC sqrt2_inv) (Cadd a b)) (Cmul (RtoC sqrt2_inv) (Csub a b))) = b.
Proof.
  destruct a as [a1 a2], b as [b1 b2]. unfold Cmul, Cadd, Csub, RtoC, Re, Im. simpl.
  pose proof sqrt2_inv_sqr as Hs. f_equal.
  - transitivity (2 * (sqrt2_inv * sqrt2_inv) * b1)%R; [ring | rewrite Hs; field].
  - transitivity (2 * (sqrt2_inv * sqrt2_inv) * b2)%R; [ring | rewrite Hs; field].
Qed.

(** the update of a pair keeps the sum of its squared magnitudes *)
Lemma pair_update_norm a b :
  (Cnorm2 (Cmul (RtoC sqrt2_inv) (Cadd a b)) + Cnorm2 (Cmul (RtoC sqrt2_inv) (Csub a b))
   = Cnorm2 a + Cnorm2 b)%R.
Proof.
  destruct a as [a1 a2], b as [b1 b2]. unfold Cnorm2, Cmul, Cadd, Csub, RtoC, Re, Im. simpl.
  pose proof sqrt2_inv_sqr as Hs.
  transitivity (2 * (sqrt2_inv * sqrt2_inv) * (a1 * a1 + a2 * a2 + b1 * b1 + b2 * b2))%R;
    [ring | rewrite Hs; field].
Qed.

(** ** The pair transform is its own inverse *)

Lemma pair_transform_involutive amp t n :
  well_formed amp t n -> pair_transform (pair_transform amp t) t = amp.
Proof.
  intros Hwf. pose proof (wf_dim amp t n Hwf) as Hdim. destruct Hwf as [Hlen Ht].
  assert (Hwf : well_formed amp t n) by done.
  assert (0 < 2 ^ t) by (apply Z.pow_pos_nonneg; lia).
  unfold pair_transform at 1. rewrite length_pair_transform.
  rewrite <- (tabulate_aget amp) at 3. apply tabulate_ext. intros i Hi.
  unfold hadamard_at at 1. destruct (Z.testbit i t) eqn:Hb.
  - pose proof (sub_pow2_nonneg i t ltac:(lia) ltac:(lia) Hb).
    pose proof (testbit_sub_pow2 i t ltac:(lia) Hb) as Hb'.
    rewrite !(pair_transform_at amp t n) by (done || lia).
    unfold hadamard_at. rewrite Hb, Hb'.
    replace (i - 2 ^ t + 2 ^ t) with i by lia.
    apply pair_update_twice_high.
  - pose proof (add_pow2_lt i t n Ht ltac:(lia) Hb).
    pose proof (testbit_add_pow2 i t ltac:(lia) Hb) as Hb'.
    rewrite !(pair_transform_at amp t n) by (done || lia).
    unfold hadamard_at. rewrite Hb, Hb'.
    replace (i + 2 ^ t - 2 ^ t) with i by lia.
    apply pair_update_twice_low.
Qed.

Lemma well_formed_pair_transform amp t n :
  well_formed amp t n -> well_formed (pair_transform amp t) t n.
Proof. intros [Hlen Ht]. split; [by rewrite length_pair_transform | done]. Qed.

(** ** The pair transform keeps the norm *)

Lemma sumR_app f xs ys : (sumR f (xs ++ ys) = sumR f xs + sumR f ys)%R.
Proof.
  unfold sumR. induction xs as [|x xs IH]; simpl; [lra|]. rewrite IH. lra.
Qed.

Lemma sumR_perm f xs ys : xs ≡ₚ ys -> sumR f xs = sumR f ys.
Proof.
  unfold sumR. induction 1; simpl; lra.
Qed.

Lemma norm2_sumR amp :
  norm2 amp = sumR (fun x => Cnorm2 (aget amp x)) (range (Z.of_nat (length amp))).
Proof.
  unfold norm2, sumR, range. rewrite Nat2Z.id.
  rewrite <- (tabulate_aget amp) at 1. unfold tabulate.
  by rewrite !map_map.
Qed.

(** summing over the assigned positions, pair by pair *)
Lemma sumR_pairs amp t n xs :
  well_formed amp t n -> (forall x, x ∈ xs -> 0 <= x < 2 ^ n) ->
  sumR (fun x => Cnorm2 (aget (pair_transform amp t) x)) (flat_map (pair_writes t) xs)
  = sumR (fun x => Cnorm2 (aget amp x)) (flat_map (pair_writes t) xs).
Proof.
  intros Hwf. induction xs as [|i xs IH]; intros Hxs; simpl; [done|].
  rewrite !sumR_app, IH by (intros x Hx; apply Hxs; by right). f_equal.
  assert (Hi : 0 <= i < 2 ^ n) by (apply Hxs; by left).
  destruct Hwf as [Hlen Ht]. assert (Hwf : well_formed amp t n) by done.
  unfold pair_writes. destruct (Z.testbit i t) eqn:Hb; [done|].
  rewrite shiftl_1_pow2, lor_pow2_clear by (lia || done).
  pose proof (add_pow2_lt i t n Ht Hi Hb).
  assert (0 < 2 ^ t) by (apply Z.pow_pos_nonneg; lia).
  unfold sumR. simpl. rewrite !(pair_transform_at amp t n) by (done || lia).
  unfold hadamard_at. rewrite Hb, testbit_add_pow2 by (lia || done).
  replace (i + 2 ^ t - 2 ^ t) with i by lia.
  pose proof (pair_update_norm (aget amp i) (aget amp (i + 2 ^ t))). lra.
Qed.

Lemma norm2_pair_transform amp t n :
  well_formed amp t n -> norm2 (pair_transform amp t) = norm2 amp.
Proof.
  intros Hwf. pose proof (wf_dim amp t n Hwf) as Hdim.
  rewrite !norm2_sumR, length_pair_transform, Hdim.
  destruct Hwf as [Hlen Ht]. assert (Hwf : well_formed amp t n) by done.
  rewrite <- !(sumR_perm _ _ _ (pair_writes_permutation t n Ht)).
  apply (sumR_pairs amp t n); [done|]. intros x. apply elem_of_range.
Qed.

Lemma holds_last h o m : heap m = h ++ [NdArray o] -> holds_array m (length h) o.
Proof.
  intros E. unfold holds_array. rewrite E, lookup_app_r by done. by rewrite Nat.sub_diag.
Qed.

Lemma apply_hadamard_python_pair_algorithm_witness :
  exists new m',
    run (_apply_hadamard_python 0%nat 0%nat 0 1) (machine_of [NdArray ket0]) = (Ret 1%nat, m')
    /\ holds_array m' 1%nat new
    /\ new = pair_transform ket0 0
    /\ length new = length ket0
    /\ (forall i j, 0 <= i < 2 ^ 1 -> Z.testbit i 0 = false ->
          j = Z.lor i (Z.shiftl 1 0) ->
          aget new i = Cmul (RtoC sqrt2_inv) (Cadd (aget ket0 i) (aget ket0 j)) /\
          aget new j = Cmul (RtoC sqrt2_inv) (Csub (aget ket0 i) (aget ket0 j)))
    /\ writes m' = map (pair 1%nat) (flat_map (pair_writes 0) (range (2 ^ 1)))
    /\ flat_map (pair_writes 0) (range (2 ^ 1)) ≡ₚ range (2 ^ 1).
Proof.
  apply (apply_hadamard_python_pair_algorithm 0%nat 0%nat ket0 0 1 (machine_of [NdArray ket0])).
  - reflexivity.
  - split; [reflexivity | lia].
Defined.

(** C4.  Two successive software updates on the same target qubit give
    back the amplitudes of the input, exactly, over the reals. *)
Theorem apply_hadamard_python_twice self st amp t n m :
  holds_array m st amp -> well_formed amp t n ->
  exists r1 m1 r2 m2,
    run (_apply_hadamard_python self st t n) m = (Ret r1, m1)
    /\ run (_apply_hadamard_python self r1 t n) m1 = (Ret r2, m2)
    /\ holds_array m2 r2 amp.
Proof.
  intros Hst Hwf.
  destruct (steps_run _ _ _ _ m
              (steps_apply_hadamard_python (heap m) self st amp t n Hst Hwf) eq_refl)
    as (m1 & E1 & Hm1).
  pose proof (holds_last _ _ _ Hm1) as Hr1.
  destruct (steps_run _ _ _ _ m1
              (steps_apply_hadamard_python (heap m1) self (length (heap m))
                 (pair_transform amp t) t n Hr1 (well_formed_pair_transform _ _ _ Hwf)) eq_refl)
    as (m2 & E2 & Hm2).
  exists (length (heap m)), m1, (length (heap m1)), m2.
  split; [done|]. split; [done|].
  rewrite (pair_transform_involutive amp t n Hwf) in Hm2. by apply holds_last.
Qed.

Lemma apply_hadamard_python_twice_witness :
  exists r1 m1 r2 m2,
    run (_apply_hadamard_python 0%nat 0%nat 1 2) (machine_of [NdArray ket00]) = (Ret r1, m1)
    /\ run (_apply_hadamard_python 0%nat r1 1 2) m1 = (Ret r2, m2)
    /\ holds_array m2 r2 ket00.
Proof.
  apply (apply_hadamard_python_twice 0%nat 0%nat ket00 1 2 (machine_of [NdArray ket00])).
  - reflexivity.
  - split; [reflexivity | lia].
Defined.

(** C5.  The buffer returned by the software update has the same sum of
    squared magnitudes as the input, exactly, over the reals; so a
    normalized state stays normalized. *)
Theorem apply_hadamard_python_keeps_norm self st amp t n m :
  holds_array m st amp -> well_formed amp t n ->
  exists r m' new,
    run (_apply_hadamard_python self st t n) m = (Ret r, m')
    /\ holds_array m' r new
    /\ norm2 new = norm2 amp
    /\ (norm2 amp = 1%R -> norm2 new = 1%R).
Proof.
  intros Hst Hwf.
  destruct (steps_run _ _ _ _ m
              (steps_apply_hadamard_python (heap m) self st amp t n Hst Hwf) eq_refl)
    as (m1 & E1 & Hm1).
  exists (length (heap m)), m1, (pair_transform amp t).
  split; [done|]. split; [by apply holds_last|].
  rewrite (norm2_pair_transform amp t n Hwf). done.
Qed.

Lemma apply_hadamard_python_keeps_norm_witness :
  exists r m' new,
    run (_apply_hadamard_python 0%nat 0%nat 1 2) (machine_of [NdArray ket00]) = (Ret r, m')
    /\ holds_array m' r new
    /\ norm2 new = norm2 ket00
    /\ (norm2 ket00 = 1%R -> norm2 new = 1%R).
Proof.
  apply (apply_hadamard_python_keeps_norm 0%nat 0%nat ket00 1 2 (machine_of [NdArray ket00])).
  - reflexivity.
  - split; [reflexivity | lia].
Defined.





(** ** The accelerated path when the kernel accepts *)

(** De-marshalling reads the two output buffers back in index order. *)
Lemma steps_collect_unmarshal hh (or oi : addr) new d : forall k,
  hh !! or = Some (CDoubleArray (map Re new)) ->
  hh !! oi = Some (CDoubleArray (map Im new)) ->
  (k + d <= length new)%nat ->
  steps hh (collect (map Z.of_nat (seq k d)) (unmarshal_item or oi))
        (map (fun x => aget new (Z.of_nat x)) (seq k d)) hh.
Proof.
  induction d as [|d IH]; intros k Hor Hoi Hk; simpl.
  - apply steps_ret.
  - assert (Hlook : new !! Z.to_nat (Z.of_nat k) = Some (aget new (Z.of_nat k))).
    { apply aget_lookup. lia. }
    eapply steps_bind.
    { unfold unmarshal_item.
      eapply steps_bind.
      { eapply steps_carray_getitem; [done | lia |].
        by rewrite list_lookup_fmap, Hlook. }
      eapply steps_bind.
      { eapply steps_carray_getitem; [done | lia |].
        by rewrite list_lookup_fmap, Hlook. }
      apply steps_ret. }
    eapply steps_bind; [apply IH; [done | done | lia]|].
    simpl. destruct (aget new (Z.of_nat k)). apply steps_ret.
Qed.

Lemma steps_apply_hadamard_cpp_accepted h self st d lib kernel amp t n new :
  h !! self = Some (DeviceObj d) -> cpp_lib d = Some lib ->
  hadamard_kernel_execute_c lib = Some kernel ->
  h !! st = Some (NdArray amp) ->
  let zeros := replicate (length amp) 0%R in
  let r := kernel (xclbin_path d) (map Re amp) (map Im amp) zeros zeros
             (c_int t) (c_int n) (c_int (Z.of_nat (length amp))) in
  (exists s, k_status r = Ret s /\ c_int s = 0) ->
  k_output_real r = map Re new -> k_output_imag r = map Im new ->
  length new = length amp ->
  steps h (_apply_hadamard_cpp self st t n) (length h + 4)%nat
        (call_heap h (k_input_real r) (k_input_imag r) (map Re new) (map Im new)
         ++ [NdArray new]).
Proof.
  intros Hself Hlib Hsym Hst zeros r (s & Hs & Hs0) Hre Him Hlen.
  eapply apply_hadamard_cpp_reaches_call; [done ..|].
  apply steps_try.
  pose proof (call_hadamard_kernel_ends h lib (xclbin_path d)
                (map Re amp) (map Im amp) zeros zeros t n (Z.of_nat (length amp))) as Hcall.
  simpl in Hcall. rewrite Hsym in Hcall. fold r in Hcall. rewrite Hs, Hre, Him in Hcall.
  eapply steps_bind; [exact Hcall|]. rewrite Hs0. simpl.
  eapply steps_bind.
  { unfold range. rewrite Nat2Z.id, <- Hlen.
    apply (steps_collect_unmarshal _ _ _ new).
    - by rewrite call_heap_lookup.
    - by rewrite call_heap_lookup.
    - done. }
  replace (map (fun x => aget new (Z.of_nat x)) (seq 0 (length new))) with new
    by (symmetry; apply (tabulate_aget new)).
  rewrite <- (length_call_heap h (k_input_real r) (k_input_imag r) (map Re new) (map Im new)).
  apply steps_alloc.
Qed.

(** ** Dispatch with a faithful library *)

(** Whatever the library does (absent, declining, or accepting faithfully),
    a well-formed request ends with a fresh buffer that holds the pair
    transform, appended to the heap after the buffers of the call. *)
Lemma steps_apply_hadamard_cpp_faithful h self st d amp t n :
  h !! self = Some (DeviceObj d) -> h !! st = Some (NdArray amp) ->
  well_formed amp t n -> n <= c_int_qubits -> library_faithful d ->
  exists extra,
    steps h (_apply_hadamard_cpp self st t n) (length h + length extra)%nat
          (h ++ extra ++ [NdArray (pair_transform amp t)]).
Proof.
  intros Hself Hst Hwf Hn Hfaith. unfold library_faithful in Hfaith.
  destruct (cpp_lib d) as [lib|] eqn:Hlib.
  2:{ exists []. simpl. rewrite Nat.add_0_r. intros m Hm.
      rewrite (run_apply_hadamard_cpp_no_library self st d t n m) by (by rewrite ?Hm).
      by apply steps_apply_hadamard_python. }
  specialize (Hfaith amp t n Hwf Hn). unfold kernel_faithful in Hfaith.
  assert (Hdecl : kernel_declines lib (xclbin_path d) amp t n ->
    exists extra,
      steps h (_apply_hadamard_cpp self st t n) (length h + length extra)%nat
            (h ++ extra ++ [NdArray (pair_transform amp t)])).
  { intros Hd.
    destruct (steps_apply_hadamard_cpp_declined h self st d lib amp t n
                Hself Hlib Hst Hwf Hd) as (ir & ii & or & oi & Hs).
    exists [CDoubleArray ir; CDoubleArray ii; CDoubleArray or; CDoubleArray oi].
    unfold call_heap in Hs. by rewrite <- app_assoc in Hs. }
  destruct (hadamard_kernel_execute_c lib) as [kernel|] eqn:Hsym.
  2:{ apply Hdecl. unfold kernel_declines, kernel_report. by rewrite Hsym. }
  simpl in Hfaith.
  destruct (k_status _) as [s|e] eqn:Hs.
  2:{ apply Hdecl. unfold kernel_declines, kernel_report. by rewrite Hsym, Hs. }
  destruct (Z.eq_dec (c_int s) 0) as [Hs0|Hs0].
  2:{ apply Hdecl. unfold kernel_declines, kernel_report. by rewrite Hsym, Hs. }
  destruct (Hfaith Hs0) as [Hre Him].
  pose proof (steps_apply_hadamard_cpp_accepted h self st d lib kernel amp t n
                (pair_transform amp t) Hself Hlib Hsym Hst
                (ex_intro _ s (conj Hs Hs0)) Hre Him (length_pair_transform amp t)) as Hacc.
  eexists [_; _; _; _]. unfold call_heap in Hacc. rewrite <- app_assoc in Hacc. exact Hacc.
Qed.

(** ** The states of [execute] *)

Lemma wire_count_pos w : 1 <= wire_count w.
Proof. destruct w as [[|x l]|]; simpl; lia. Qed.

(** every qubit count from 1 on is the wire count of some device *)
Lemma wire_count_sample (n : nat) fpga lib :
  (1 <= n)%nat -> wire_count (wires (sample_device n fpga lib)) = Z.of_nat n.
Proof.
  intros Hn. unfold sample_device. simpl. destruct n as [|n]; [lia|].
  simpl seq. simpl map. unfold wire_count. simpl length.
  rewrite length_map, length_seq. lia.
Qed.

Lemma length_uniform_upto n k : length (uniform_upto n k) = Z.to_nat (2 ^ n).
Proof. apply length_tabulate. Qed.

Lemma RtoC_scale_sub a : Cmul (RtoC sqrt2_inv) (Csub (RtoC a) C0) = RtoC (sqrt2_inv * a).
Proof. unfold Cmul, Csub, C0, RtoC, Re, Im. simpl. f_equal; ring. Qed.

Lemma RtoC_scale_add a : Cmul (RtoC sqrt2_inv) (Cadd (RtoC a) C0) = RtoC (sqrt2_inv * a).
Proof. unfold Cmul, Cadd, C0, RtoC, Re, Im. simpl. f_equal; ring. Qed.

Lemma RtoC_scale_zero_sub : Cmul (RtoC sqrt2_inv) (Csub C0 C0) = C0.
Proof. unfold Cmul, Csub, C0, RtoC, Re, Im. simpl. f_equal; ring. Qed.

Lemma RtoC_scale_zero_add : Cmul (RtoC sqrt2_inv) (Cadd C0 C0) = C0.
Proof. unfold Cmul, Cadd, C0, RtoC, Re, Im. simpl. f_equal; ring. Qed.

Lemma uniform_upto_0 n : 0 <= n -> uniform_upto n 0 = basis_zero n.
Proof.
  intros Hn. assert (0 < 2 ^ n) by (apply Z.pow_pos_nonneg; lia).
  apply list_eq. intros x. unfold uniform_upto, basis_zero.
  destruct (decide (x < Z.to_nat (2 ^ n))%nat) as [Hx|Hx].
  - rewrite lookup_tabulate by done. destruct x as [|x].
    + rewrite list_lookup_insert_eq by (rewrite length_replicate; lia). done.
    + rewrite list_lookup_insert_ne, lookup_replicate_2 by (done || lia).
      destruct (Z.ltb_spec (Z.of_nat (S x)) (2 ^ Z.of_nat 0)); [|done].
      change (2 ^ Z.of_nat 0) with 1 in *. lia.
  - rewrite !lookup_ge_None_2; [done | |].
    + rewrite length_insert, length_replicate. lia.
    + rewrite length_tabulate. lia.
Qed.

Lemma aget_uniform_upto n k x :
  0 <= x < 2 ^ n ->
  aget (uniform_upto n k) x = if x <? 2 ^ Z.of_nat k then RtoC (sqrt2_inv ^ k) else C0.
Proof. intros Hx. unfold uniform_upto. apply aget_tabulate. lia. Qed.

(** One more qubit doubles the number of equal amplitudes and scales them
    by [1/sqrt 2]. *)
Lemma uniform_upto_step n (k : nat) :
  Z.of_nat k < n ->
  pair_transform (uniform_upto n k) (Z.of_nat k) = uniform_upto n (S k).
Proof.
  intros Hk. set (t := Z.of_nat k).
  assert (Ht : 0 <= t < n) by lia.
  assert (Hp : 0 < 2 ^ t) by (apply Z.pow_pos_nonneg; lia).
  assert (Hp' : 2 ^ Z.of_nat (S k) = 2 * 2 ^ t).
  { replace (Z.of_nat (S k)) with (t + 1) by lia. rewrite Z.pow_add_r by lia. lia. }
  assert (Hpn : 0 < 2 ^ n) by (apply Z.pow_pos_nonneg; lia).
  unfold pair_transform. rewrite length_uniform_upto. unfold uniform_upto at 2.
  apply tabulate_ext. intros x Hx. rewrite Z2Nat.id in Hx by lia.
  rewrite Hp'. unfold hadamard_at. destruct (Z.testbit x t) eqn:Hb.
  - pose proof (sub_pow2_nonneg x t ltac:(lia) ltac:(lia) Hb).
    rewrite !aget_uniform_upto by lia. fold t.
    destruct (Z.ltb_spec x (2 ^ t)); [lia|].
    destruct (Z.ltb_spec (x - 2 ^ t) (2 ^ t)), (Z.ltb_spec x (2 * 2 ^ t)); try lia.
    + by rewrite RtoC_scale_sub.
    + apply RtoC_scale_zero_sub.
  - pose proof (add_pow2_lt x t n Ht ltac:(lia) Hb).
    rewrite !aget_uniform_upto by lia. fold t.
    destruct (Z.ltb_spec (x + 2 ^ t) (2 ^ t)); [lia|].
    destruct (Z.ltb_spec x (2 ^ t)), (Z.ltb_spec x (2 * 2 ^ t)); try lia.
    + by rewrite RtoC_scale_add.
    + pose proof (clear_ge_pow2 x t ltac:(lia) ltac:(lia) Hb) as Hge.
      rewrite Z.pow_add_r in Hge by lia. lia.
    + apply RtoC_scale_zero_add.
Qed.

Lemma well_formed_uniform_upto n (k : nat) :
  Z.of_nat k < n -> well_formed (uniform_upto n k) (Z.of_nat k) n.
Proof. intros Hk. split; [apply length_uniform_upto | lia]. Qed.

Lemma uniform_upto_all n x :
  0 <= n -> 0 <= x < 2 ^ n ->
  aget (uniform_upto n (Z.to_nat n)) x = RtoC (sqrt2_inv ^ Z.to_nat n).
Proof.
  intros Hn Hx. rewrite aget_uniform_upto by done. rewrite Z2Nat.id by done.
  destruct (Z.ltb_spec x (2 ^ n)); [done | lia].
Qed.

(** [(1/sqrt 2)^n = 1/sqrt (2^n)] *)
Lemma sqrt2_inv_pow (k : nat) : (sqrt2_inv ^ k = 1 / sqrt (IZR (2 ^ Z.of_nat k)))%R.
Proof.
  induction k as [|k IH].
  - simpl. change (IZR (2 ^ Z.of_nat 0)) with 1%R. rewrite sqrt_1. field.
  - replace (Z.of_nat (S k)) with (Z.of_nat k + 1) by lia.
    rewrite Z.pow_add_r, Z.pow_1_r, mult_IZR by lia.
    assert (0 < IZR (2 ^ Z.of_nat k))%R.
    { apply IZR_lt. apply Z.pow_pos_nonneg; lia. }
    rewrite sqrt_mult by lra.
    assert (0 < sqrt (IZR (2 ^ Z.of_nat k)))%R by (by apply sqrt_lt_R0).
    assert (0 < sqrt 2)%R by (apply sqrt_lt_R0; lra).
    simpl. rewrite IH. unfold sqrt2_inv. field. split; lra.
Qed.

Lemma sqrt2_inv_approx : (Rabs (sqrt2_inv - 0.70710678) < 1 / 1000000)%R.
Proof.
  pose proof sqrt2_inv_sqr as Hs. pose proof sqrt2_inv_pos as Hp.
  apply Rabs_def1; nra.
Qed.

(** ** Running [execute] *)

(** a loop over [a, ..., a+d-1] that rebinds a local, with an invariant on
    the pass number, the local and the heap *)
Lemma steps_for_loop_seq {S} (I : nat -> S -> list obj -> Prop) (body : S -> Z -> M S) d :
  forall a s hh,
  (forall k s hh, (a <= k < a + d)%nat -> I k s hh ->
     exists s' hh', steps hh (body s (Z.of_nat k)) s' hh' /\ I (Datatypes.S k) s' hh') ->
  I a s hh ->
  exists s' hh', steps hh (for_loop (map Z.of_nat (seq a d)) body s) s' hh'
                 /\ I (a + d)%nat s' hh'.
Proof.
  induction d as [|d IH]; intros a s hh Hb HI; simpl.
  - exists s, hh. rewrite Nat.add_0_r. split; [apply steps_ret | done].
  - destruct (Hb a s hh ltac:(lia) HI) as (s1 & h1 & Hs1 & HI1).
    destruct (IH (Datatypes.S a) s1 h1) as (s2 & h2 & Hs2 & HI2); [|done|].
    { intros k s' hh' Hk. apply Hb. lia. }
    exists s2, h2. split; [by eapply steps_bind|].
    by replace (a + Datatypes.S d)%nat with (Datatypes.S a + d)%nat by lia.
Qed.

Lemma steps_print_state hh q (a : addr) : steps hh (print_state q a) tt hh.
Proof. intros m <-. done. Qed.

Lemma steps_execute h self d :
  h !! self = Some (DeviceObj d) -> library_faithful d ->
  wire_count (wires d) <= c_int_qubits ->
  let n := wire_count (wires d) in
  exists r h',
    steps h (execute self) r h'
    /\ (h ++ [NdArray (basis_zero n)]) `prefix_of` h'
    /\ h' !! r = Some (NdArray (uniform_upto n (Z.to_nat n))).
Proof.
  intros Hself Hfaith Hmax n.
  pose proof (wire_count_pos (wires d)) as Hn. fold n in Hn, Hmax.
  assert (Hpn : 0 < 2 ^ n) by (apply Z.pow_pos_nonneg; lia).
  set (h0 := h ++ [NdArray (basis_zero n)]).
  destruct (steps_for_loop_seq
              (fun k s hh => h0 `prefix_of` hh
                             /\ hh !! s = Some (NdArray (uniform_upto n k)))
              (execute_body self n) (Z.to_nat n) 0%nat (length h) h0)
    as (r & h' & Hloop & Hpre & Hr).
  { intros k s hh Hk [Hpre Hs].
    assert (Hself' : hh !! self = Some (DeviceObj d)).
    { eapply prefix_lookup_Some; [|done]. unfold h0. by apply lookup_app_l_Some. }
    destruct (steps_apply_hadamard_cpp_faithful hh self s d (uniform_upto n k) (Z.of_nat k) n
                Hself' Hs (well_formed_uniform_upto n k ltac:(lia)) Hmax Hfaith)
      as (extra & Hcpp).
    exists (length hh + length extra)%nat,
           (hh ++ extra ++ [NdArray (pair_transform (uniform_upto n k) (Z.of_nat k))]).
    split.
    - unfold execute_body. eapply steps_bind; [exact Hcpp|].
      eapply steps_bind; [apply steps_print_state|]. apply steps_ret.
    - split; [by apply prefix_app_r|].
      rewrite app_assoc, lookup_app_r by (rewrite length_app; lia).
      rewrite length_app, Nat.sub_diag. simpl.
      by rewrite uniform_upto_step by lia. }
  { split; [done|]. unfold h0. rewrite lookup_app_r by done.
    rewrite Nat.sub_diag. simpl. by rewrite uniform_upto_0 by lia. }
  exists r, h'. split; [|done].
  unfold execute.
  eapply steps_bind; [by apply steps_getattr|].
  eapply steps_bind.
  { instantiate (1 := h). instantiate (1 := tt). destruct (use_fpga d).
    - eapply steps_bind; [by apply steps_getattr|]. apply steps_print.
    - apply steps_print. }
  eapply steps_bind; [by apply steps_getattr|]. fold n.
  eapply steps_bind; [apply steps_np_zeros; lia|].
  eapply steps_bind.
  { eapply steps_ndarray_setitem.
    - rewrite lookup_app_r by done. by rewrite Nat.sub_diag.
    - rewrite length_replicate. lia. }
  rewrite insert_app_r_alt, Nat.sub_diag by done. simpl.
  exact Hloop.
Qed.

Lemma aget_basis_zero n :
  0 <= n ->
  aget (basis_zero n) 0 = RtoC 1
  /\ forall i, 0 < i < 2 ^ n -> aget (basis_zero n) i = RtoC 0.
Proof.
  intros Hn. assert (0 < 2 ^ n) by (apply Z.pow_pos_nonneg; lia).
  unfold basis_zero, aget. split.
  - rewrite list_lookup_insert_eq by (rewrite length_replicate; lia). done.
  - intros i Hi. rewrite list_lookup_insert_ne by lia.
    rewrite lookup_replicate_2 by lia. done.
Qed.

Lemma list_of_agets (l : list C) : l = tabulate (aget l) (length l).
Proof. symmetry. apply tabulate_aget. Qed.

Lemma uniform_upto_1 : uniform_upto 1 1 = [RtoC sqrt2_inv; RtoC sqrt2_inv].
Proof.
  rewrite (list_of_agets (uniform_upto 1 1)), length_uniform_upto.
  change (Z.to_nat (2 ^ 1)) with 2%nat. unfold tabulate. simpl map.
  rewrite !aget_uniform_upto by (cbn; lia).
  repeat (destruct (Z.ltb_spec _ _); [|cbn in *; lia]).
  by rewrite pow_1.
Qed.

Lemma uniform_upto_2 :
  uniform_upto 2 2 = [RtoC (1 / 2); RtoC (1 / 2); RtoC (1 / 2); RtoC (1 / 2)].
Proof.
  rewrite (list_of_agets (uniform_upto 2 2)), length_uniform_upto.
  change (Z.to_nat (2 ^ 2)) with 4%nat. unfold tabulate. simpl map.
  rewrite !aget_uniform_upto by (cbn; lia).
  repeat (destruct (Z.ltb_spec _ _); [|cbn in *; lia]).
  simpl pow. by rewrite Rmult_1_r, sqrt2_inv_sqr.
Qed.

(** ** A faithful kernel *)

Lemma zip_Re_Im (amp : list C) : zip (map Re amp) (map Im amp) = amp.
Proof. induction amp as [|[x y] amp IH]; simpl; [done|]. by rewrite IH. Qed.

Lemma c_int_small z : - 2 ^ 31 <= z < 2 ^ 31 -> c_int z = z.
Proof.
  intros Hz. unfold c_int. change (2 ^ 32) with (2 * 2 ^ 31).
  rewrite Z.mod_small; lia.
Qed.

(** The reference kernel accepts every call, and is faithful on the
    requests whose target fits a [c_int]. *)
Lemma reference_kernel_faithful path amp t n :
  well_formed amp t n -> n <= c_int_qubits ->
  kernel_faithful (CDLL (Some reference_kernel)) path amp t n.
Proof.
  intros [_ Ht] Hn. unfold kernel_faithful, c_int_qubits in *. simpl. intros _.
  rewrite zip_Re_Im, (c_int_small t); [done|].
  change (2 ^ 31) with 2147483648. lia.
Qed.

Lemma reference_library_faithful (k : nat) fpga :
  library_faithful (sample_device k fpga (Some (CDLL (Some reference_kernel)))).
Proof. intros amp t n Hwf Hn. by apply reference_kernel_faithful. Qed.

(** C6.  For a device of [n] wires, [1 <= n <= 10], [execute] creates the
    state |0...0> of [2^n] amplitudes (amplitude 0 is 1, the others 0) and
    applies the Hadamard update to qubits [0 .. n-1] in turn.  When the
    library is absent, or its kernel is faithful (on each call it declines,
    or accepts and leaves the pair transform in its output buffers), the
    returned state has every amplitude, amplitude 0 among them, equal to
    [1/sqrt(2^n)].  For [n = 1] it is [[s, s]] with [s] within [1e-6] of
    [0.70710678]; for [n = 2] it is [[0.5, 0.5, 0.5, 0.5]]. *)
Theorem execute_uniform_superposition self d m :
  heap m !! self = Some (DeviceObj d) -> library_faithful d ->
  let n := wire_count (wires d) in
  n <= 10 ->
  exists r m' final,
    run (execute self) m = (Ret r, m')
    /\ 1 <= n
    /\ holds_array m' (length (heap m)) (basis_zero n)
    /\ length (basis_zero n) = Z.to_nat (2 ^ n)
    /\ aget (basis_zero n) 0 = RtoC 1
    /\ (forall i, 0 < i < 2 ^ n -> aget (basis_zero n) i = RtoC 0)
    /\ holds_array m' r final
    /\ length final = Z.to_nat (2 ^ n)
    /\ (forall i, 0 <= i < 2 ^ n -> aget final i = RtoC (1 / sqrt (IZR (2 ^ n))))
    /\ (n = 1 -> final = [RtoC sqrt2_inv; RtoC sqrt2_inv]
                 /\ (Rabs (sqrt2_inv - 0.70710678) < 1 / 1000000)%R)
    /\ (n = 2 -> final = [RtoC (1 / 2); RtoC (1 / 2); RtoC (1 / 2); RtoC (1 / 2)]).
Proof.
  intros Hself Hfaith n Hmax.
  pose proof (wire_count_pos (wires d)) as Hn. fold n in Hn.
  destruct (steps_execute (heap m) self d Hself Hfaith)
    as (r & h' & Hsteps & Hpre & Hr); [unfold c_int_qubits; lia|].
  fold n in Hpre, Hr.
  destruct (steps_run _ _ _ _ m Hsteps eq_refl) as (m' & E & Hm').
  destruct (aget_basis_zero n ltac:(lia)) as [Hb0 Hbi].
  assert (Hall : forall i, 0 <= i < 2 ^ n ->
            aget (uniform_upto n (Z.to_nat n)) i = RtoC (1 / sqrt (IZR (2 ^ n)))).
  { intros i Hi. rewrite uniform_upto_all by lia.
    by rewrite sqrt2_inv_pow, Z2Nat.id by lia. }
  exists r, m', (uniform_upto n (Z.to_nat n)).
  split; [done|]. split; [done|]. split.
  { unfold holds_array. rewrite Hm'. eapply prefix_lookup_Some; [|done].
    rewrite lookup_app_r by done. by rewrite Nat.sub_diag. }
  split. { unfold basis_zero. by rewrite length_insert, length_replicate. }
  split; [done|]. split; [done|].
  split. { unfold holds_array. by rewrite Hm'. }
  split; [apply length_uniform_upto|]. split; [done|]. split.
  - intros Hn1. split; [|apply sqrt2_inv_approx]. rewrite Hn1. exact uniform_upto_1.
  - intros Hn2. rewrite Hn2. exact uniform_upto_2.
Qed.

Lemma execute_uniform_superposition_witness :
  let d := sample_device 2 true (Some (CDLL (Some reference_kernel))) in
  let m := machine_of [DeviceObj d] in
  let n := wire_count (wires d) in
  exists r m' final,
    run (execute 0%nat) m = (Ret r, m')
    /\ 1 <= n
    /\ holds_array m' (length (heap m)) (basis_zero n)
    /\ length (basis_zero n) = Z.to_nat (2 ^ n)
    /\ aget (basis_zero n) 0 = RtoC 1
    /\ (forall i, 0 < i < 2 ^ n -> aget (basis_zero n) i = RtoC 0)
    /\ holds_array m' r final
    /\ length final = Z.to_nat (2 ^ n)
    /\ (forall i, 0 <= i < 2 ^ n -> aget final i = RtoC (1 / sqrt (IZR (2 ^ n))))
    /\ (n = 1 -> final = [RtoC sqrt2_inv; RtoC sqrt2_inv]
                 /\ (Rabs (sqrt2_inv - 0.70710678) < 1 / 1000000)%R)
    /\ (n = 2 -> final = [RtoC (1 / 2); RtoC (1 / 2); RtoC (1 / 2); RtoC (1 / 2)]).
Proof.
  apply (execute_uniform_superposition 0%nat
           (sample_device 2 true (Some (CDLL (Some reference_kernel))))
           (machine_of [DeviceObj (sample_device 2 true (Some (CDLL (Some reference_kernel))))])).
  - reflexivity.
  - apply reference_library_faithful.
  - simpl. lia.
Defined.

(** ** No method looks at the file system *)
























(** ** Construction *)

Lemma run_getattr_last {A} h d (field : device -> A) m :
  heap m = h ++ [DeviceObj d] -> getattr (length h) field m = (Ret (field d), m).
Proof.
  intros E. unfold getattr. rewrite E, lookup_app_r by done. by rewrite Nat.sub_diag.
Qed.

Lemma run_setattr_last h d upd m :
  heap m = h ++ [DeviceObj d] ->
  setattr (length h) upd m = (Ret tt, set_heap (h ++ [DeviceObj (upd d)]) m).
Proof.
  intros E. unfold setattr. rewrite E, lookup_app_r by done. rewrite Nat.sub_diag. simpl.
  rewrite insert_app_r_alt by done. by rewrite Nat.sub_diag.
Qed.

Lemma run_try_ret {A} (c : M A) h m a m' :
  c m = (Ret a, m') -> try_except c h m = (Ret a, m').
Proof. intros E. unfold try_except. by rewrite E. Qed.

Lemma run_try_raise {A} (c : M A) h m e m' :
  c m = (Raise e, m') -> is_exception e = true -> try_except c h m = h e m'.
Proof. intros E He. unfold try_except. by rewrite E, He. Qed.


(** [_load_cpp_library] changes [cpp_lib] and nothing else of the device;
    every failure to load that is an [Exception] leaves [None] there and
    raises nothing. *)
Lemma run_load_cpp_library so_path h d m :
  heap m = h ++ [DeviceObj d] -> load_catchable so_path m ->
  exists m',
    _load_cpp_library so_path (length h) m = (Ret tt, m')
    /\ heap m' = h ++ [DeviceObj (set_cpp_lib (loaded_library so_path m) d)]
    /\ files m' = files m.
Proof.
  intros E Hcatch. unfold _load_cpp_library, loaded_library.
  assert (Hpe : path_exists so_path m = (Ret (files m so_path), m)) by done.
  assert (Hnone : forall d' msg m1, heap m1 = h ++ [DeviceObj d'] ->
    (print msg ;; setattr (length h) (set_cpp_lib None)) m1
    = (Ret tt, set_heap (h ++ [DeviceObj (set_cpp_lib None d')]) (log_print msg m1))).
  { intros d' msg m1 E1. erewrite run_bind; [|reflexivity]. by erewrite run_setattr_last. }
  destruct (files m so_path) eqn:Hf.
  2:{ erewrite run_try_ret.
      2:{ rewrite (run_bind _ _ _ _ _ Hpe). simpl. by apply (Hnone d). }
      eexists. split; [reflexivity|]. done. }
  assert (Hdl : ctypes_CDLL so_path m = (libraries m so_path, m)) by done.
  destruct (libraries m so_path) as [lib|e] eqn:Hl.
  2:{ erewrite run_try_raise; [| |exact (Hcatch Hf e Hl)].
      2:{ rewrite (run_bind _ _ _ _ _ Hpe). simpl. by apply run_bind_raise. }
      rewrite (Hnone d) by done. eexists. split; [reflexivity|]. done. }
  assert (Hset : forall k : unit -> M unit,
    (ex <- path_exists so_path ;;
     if negb ex then print (MsgLibraryNotFound so_path) ;; setattr (length h) (set_cpp_lib None)
     else lib <- ctypes_CDLL so_path ;;
          setattr (length h) (set_cpp_lib (Some lib)) ;;
          print (MsgLibraryLoaded so_path) ;;
          _setup_function_signatures (length h)) m
    = _setup_function_signatures (length h)
        (log_print (MsgLibraryLoaded so_path)
           (set_heap (h ++ [DeviceObj (set_cpp_lib (Some lib) d)]) m))).
  { intros _. rewrite (run_bind _ _ _ _ _ Hpe). simpl.
    rewrite (run_bind _ _ _ _ _ Hdl).
    erewrite run_bind; [|by apply run_setattr_last].
    erewrite run_bind; [|reflexivity]. done. }
  specialize (Hset (fun _ => ret tt)).
  assert (Hsetup : forall m2, heap m2 = h ++ [DeviceObj (set_cpp_lib (Some lib) d)] ->
    _setup_function_signatures (length h) m2
    = (match hadamard_kernel_execute_c lib with
       | Some _ => Ret tt
       | None => Raise AttributeError
       end, m2)).
  { intros m2 E2. unfold _setup_function_signatures.
    erewrite run_bind; [|by eapply run_getattr_last]. simpl.
    by destruct (hadamard_kernel_execute_c lib). }
  rewrite Hsetup in Hset by done.
  destruct (hadamard_kernel_execute_c lib) as [k|] eqn:Hk.
  - erewrite run_try_ret; [|exact Hset]. eexists. split; [reflexivity|]. split; reflexivity.
  - erewrite run_try_raise; [|exact Hset|reflexivity].
    rewrite (Hnone (set_cpp_lib (Some lib) d)) by done.
    eexists. split; [reflexivity|]. split; reflexivity.
Qed.

(** [super().__init__] returns on arguments it accepts. *)
Lemma run_super_init shots_arg wires_arg m :
  device_args_ok shots_arg wires_arg -> super_init shots_arg wires_arg m = (Ret tt, m).
Proof.
  intros [Hs Hw]. unfold super_init.
  erewrite run_bind.
  2:{ instantiate (1 := m). instantiate (1 := tt). destruct shots_arg as [s|]; [|done].
      destruct (Z.ltb_spec s 1); [lia | done]. }
  destruct wires_arg as [w|]; [|done]. by rewrite bool_decide_eq_true_2.
Qed.

(** The constructor appends the device to the heap.  Its [use_fpga] is the
    requested one, unless the bitstream file is missing; its [cpp_lib] is
    what the loader found. *)
Lemma run_init so_path shots_arg wires_arg path_arg use_arg m :
  device_args_ok shots_arg wires_arg -> load_catchable so_path m ->
  let path := str_or path_arg "libadf.xclbin" in
  exists m',
    __init__ so_path shots_arg wires_arg path_arg use_arg m = (Ret (length (heap m)), m')
    /\ heap m' = heap m ++ [DeviceObj (Dev wires_arg shots_arg path
                                           (use_arg && files m path)
                                           (loaded_library so_path m))]
    /\ files m' = files m.
Proof.
  intros Hargs Hcatch path. unfold __init__.
  rewrite (run_bind _ _ _ _ _ (run_super_init shots_arg wires_arg m Hargs)).
  erewrite run_bind; [|reflexivity].
  erewrite run_bind; [|by apply run_setattr_last].
  erewrite run_bind; [|by apply run_setattr_last].
  erewrite run_bind; [|by eapply run_getattr_last].
  erewrite run_bind; [|by eapply run_getattr_last].
  simpl use_fpga. simpl xclbin_path. fold path.
  set (d2 := set_use_fpga use_arg _).
  set (m2 := set_heap (heap m ++ [DeviceObj d2]) _).
  assert (Hload : forall m3 d3,
    heap m3 = heap m ++ [DeviceObj d3] -> files m3 = files m -> libraries m3 = libraries m ->
    d3 = Dev wires_arg shots_arg path (use_arg && files m path) None ->
    exists m',
      (_load_cpp_library so_path (length (heap m)) ;; ret (length (heap m))) m3
      = (Ret (length (heap m)), m')
      /\ heap m' = heap m ++ [DeviceObj (Dev wires_arg shots_arg path
                                              (use_arg && files m path)
                                              (loaded_library so_path m))]
      /\ files m' = files m).
  { intros m3 d3 Hm3 Hf3 Hl3 ->.
    assert (Hcatch3 : load_catchable so_path m3).
    { unfold load_catchable. rewrite Hf3, Hl3. exact Hcatch. }
    destruct (run_load_cpp_library so_path _ _ m3 Hm3 Hcatch3) as (m4 & E4 & Hm4 & Hf4).
    rewrite (run_bind _ _ _ _ _ E4). exists m4. split; [done|]. split; [|congruence].
    rewrite Hm4. unfold loaded_library. by rewrite Hf3, Hl3. }
  destruct use_arg.
  - erewrite run_bind; [|reflexivity]. simpl negb.
    destruct (files m path) eqn:Hf; simpl negb; simpl andb; cbv iota.
    + erewrite run_bind; [|reflexivity].
      eapply Hload; reflexivity.
    + erewrite run_bind.
      2:{ erewrite run_bind; [|reflexivity]. erewrite run_bind; [|reflexivity].
          by apply run_setattr_last. }
      eapply Hload; reflexivity.
  - erewrite run_bind; [|reflexivity]. simpl andb. cbv iota.
    erewrite run_bind; [|reflexivity].
    eapply Hload; reflexivity.
Qed.

(** When the bitstream exists, the requested flag is kept. *)
Lemma init_keeps_use_fpga so_path shots_arg wires_arg path_arg m :
  device_args_ok shots_arg wires_arg -> load_catchable so_path m ->
  files m (str_or path_arg "libadf.xclbin") = true ->
  exists m' d,
    run (__init__ so_path shots_arg wires_arg path_arg true) m = (Ret (length (heap m)), m')
    /\ heap m' !! length (heap m) = Some (DeviceObj d)
    /\ use_fpga d = true.
Proof.
  intros Hargs Hcatch Hf.
  destruct (run_init so_path shots_arg wires_arg path_arg true m Hargs Hcatch)
    as (m' & E & Hm' & _).
  rewrite Hf in Hm'. simpl in Hm'.
  eexists m', _. split; [exact E|]. split.
  - rewrite Hm', lookup_app_r by done. by rewrite Nat.sub_diag.
  - reflexivity.
Qed.

(** A failed load leaves [cpp_lib = None]: the library file is missing,
    [ctypes.CDLL] raises, or the kernel symbol is absent. *)
Lemma loaded_library_failed so_path m :
  files m so_path = false
  \/ (exists e, libraries m so_path = Raise e)
  \/ (exists lib, libraries m so_path = Ret lib /\ hadamard_kernel_execute_c lib = None) ->
  loaded_library so_path m = None.
Proof.
  unfold loaded_library. intros [->|[[e ->]|(lib & -> & ->)]]; [done| |];
    by destruct (files m so_path).
Qed.

(** The flag plays no part in dispatch: a device whose [use_fpga] is off
    but whose library is loaded still calls the kernel, and returns what an
    accepting kernel left in its output buffers. *)
Lemma dispatch_ignores_use_fpga :
  let d := sample_device 1 false (Some (CDLL (Some idle_kernel))) in
  let m := machine_of [DeviceObj d; NdArray ket0] in
  exists r m',
    run (_apply_hadamard_cpp 0%nat 1%nat 0 1) m = (Ret r, m')
    /\ holds_array m' r [C0; C0].
Proof.
  intros d m.
  pose proof (steps_apply_hadamard_cpp_accepted (heap m) 0%nat 1%nat d
                (CDLL (Some idle_kernel)) idle_kernel ket0 0 1 [C0; C0]
                eq_refl eq_refl eq_refl eq_refl) as Hacc.
  simpl in Hacc.
  specialize (Hacc (ex_intro _ 0 (conj eq_refl eq_refl)) eq_refl eq_refl eq_refl).
  destruct (steps_run _ _ _ _ m Hacc eq_refl) as (m' & E & Hm').
  exists 6%nat, m'. split; [exact E|]. unfold holds_array. by rewrite Hm'.
Qed.

(** With a library loaded, the target reaches the kernel unchecked: when
    the kernel accepts the call, nothing is raised and its output is the
    result.  Here a 2-qubit register, target qubit 5. *)
Lemma invalid_target_accepted_by_kernel :
  let d := sample_device 2 true (Some (CDLL (Some idle_kernel))) in
  let m := machine_of [DeviceObj d; NdArray ket00] in
  exists r m',
    run (_apply_hadamard_cpp 0%nat 1%nat 5 2) m = (Ret r, m')
    /\ holds_array m' r [C0; C0; C0; C0].
Proof.
  intros d m.
  pose proof (steps_apply_hadamard_cpp_accepted (heap m) 0%nat 1%nat d
                (CDLL (Some idle_kernel)) idle_kernel ket00 5 2 [C0; C0; C0; C0]
                eq_refl eq_refl eq_refl eq_refl) as Hacc.
  simpl in Hacc.
  specialize (Hacc (ex_intro _ 0 (conj eq_refl eq_refl)) eq_refl eq_refl eq_refl).
  destruct (steps_run _ _ _ _ m Hacc eq_refl) as (m' & E & Hm').
  exists 6%nat, m'. split; [exact E|]. unfold holds_array. by rewrite Hm'.
Qed.

(** * Further properties *)

(** ** The accelerated path absorbs the [Exception]s of the kernel *)

(** Reading back the output buffers either yields one amplitude per index
    or raises; the heap is not touched. *)
Lemma collect_unmarshal_ends hh (or oi : addr) d : forall k,
  (exists l, steps hh (collect (map Z.of_nat (seq k d)) (unmarshal_item or oi)) l hh
             /\ length l = d)
  \/ (exists e, is_exception e = true
                 /\ fails hh (collect (map Z.of_nat (seq k d)) (unmarshal_item or oi)) e hh).
Proof.
  assert (Hget : forall (a : addr) i,
    (exists v, steps hh (carray_getitem a i) v hh)
    \/ (exists e, is_exception e = true /\ fails hh (carray_getitem a i) e hh)).
  { intros a i. unfold carray_getitem.
    destruct (hh !! a) as [[|c|]|] eqn:Ha;
      try (right; exists TypeError; split; [done|]; intros m <-; by rewrite Ha).
    destruct (py_index (length c) i) as [j|] eqn:Hj.
    - destruct (c !! j) as [v|] eqn:Hv.
      + left. exists v. intros m <-. by rewrite Ha, Hj, Hv.
      + right. exists IndexError. split; [done|]. intros m <-. by rewrite Ha, Hj, Hv.
    - right. exists IndexError. split; [done|]. intros m <-. by rewrite Ha, Hj. }
  induction d as [|d IH]; intros k; simpl.
  - left. exists []. split; [apply steps_ret | done].
  - destruct (Hget or (Z.of_nat k)) as [[re Hre]|(e & Hex & He)].
    2:{ right. exists e. split; [done|].
        apply fails_bind. unfold unmarshal_item. by apply fails_bind. }
    destruct (Hget oi (Z.of_nat k)) as [[im Him]|(e & Hex & He)].
    2:{ right. exists e. split; [done|]. apply fails_bind. unfold unmarshal_item.
        eapply steps_bind_fails; [exact Hre|]. by apply fails_bind. }
    assert (Hitem : steps hh (unmarshal_item or oi (Z.of_nat k)) (re, im) hh).
    { unfold unmarshal_item. eapply steps_bind; [exact Hre|].
      eapply steps_bind; [exact Him|]. apply steps_ret. }
    destruct (IH (S k)) as [(l & Hl & Hlen)|(e & Hex & He)].
    + left. exists ((re, im) :: l). split; [|by rewrite length_cons, Hlen].
      eapply steps_bind; [exact Hitem|]. eapply steps_bind; [exact Hl|]. apply steps_ret.
    + right. exists e. split; [done|].
      eapply steps_bind_fails; [exact Hitem|]. by apply fails_bind.
Qed.

(** Whatever the kernel does, short of an interrupt, a well-formed request
    ends with a fresh buffer of the size of the state. *)
Lemma steps_apply_hadamard_cpp_total h self st d amp t n :
  h !! self = Some (DeviceObj d) -> h !! st = Some (NdArray amp) ->
  well_formed amp t n ->
  (forall lib, cpp_lib d = Some lib -> kernel_catchable lib (xclbin_path d) amp t n) ->
  exists r h' new,
    steps h (_apply_hadamard_cpp self st t n) r h'
    /\ h `prefix_of` h' /\ (length h <= r)%nat
    /\ h' !! r = Some (NdArray new) /\ length new = length amp.
Proof.
  intros Hself Hst Hwf Hcatch.
  destruct (cpp_lib d) as [lib|] eqn:Hlib.
  2:{ exists (length h), (h ++ [NdArray (pair_transform amp t)]), (pair_transform amp t).
      split; [|split; [by apply prefix_app_r|split; [done|split]]].
      - intros m Hm.
        rewrite (run_apply_hadamard_cpp_no_library self st d t n m) by (by rewrite ?Hm).
        by apply steps_apply_hadamard_python.
      - rewrite lookup_app_r by done. by rewrite Nat.sub_diag.
      - apply length_pair_transform. }
  set (zeros := replicate (length amp) 0%R).
  assert (Hfallback : forall ir ii or oi msg,
    steps (call_heap h ir ii or oi)
          (print msg ;; _apply_hadamard_python self st t n)
          (length h + 4)%nat
          (call_heap h ir ii or oi ++ [NdArray (pair_transform amp t)])).
  { intros. eapply steps_bind; [apply steps_print|].
    rewrite <- (length_call_heap h ir ii or oi).
    apply steps_apply_hadamard_python; [by apply call_heap_lookup_old | done]. }
  assert (Hpost : forall ir ii or oi new,
    length new = length amp ->
    h `prefix_of` (call_heap h ir ii or oi ++ [NdArray new])
    /\ (length h <= length h + 4)%nat
    /\ (call_heap h ir ii or oi ++ [NdArray new]) !! (length h + 4)%nat = Some (NdArray new)
    /\ length new = length amp).
  { intros ir ii or oi new Hlen. split; [|split; [lia|split; [|done]]].
    - unfold call_heap. rewrite <- app_assoc. by apply prefix_app_r.
    - rewrite <- (length_call_heap h ir ii or oi), lookup_app_r by done.
      by rewrite Nat.sub_diag. }
  pose proof (call_hadamard_kernel_ends h lib (xclbin_path d)
                (map Re amp) (map Im amp) zeros zeros t n (Z.of_nat (length amp))) as Hcall.
  specialize (Hcatch lib eq_refl). unfold kernel_catchable, kernel_report in Hcatch.
  fold zeros in Hcatch. simpl in Hcall.
  destruct (hadamard_kernel_execute_c lib) as [kernel|].
  2:{ eexists _, _, _. split; [|apply Hpost, length_pair_transform].
      eapply apply_hadamard_cpp_reaches_call; [done ..|].
      eapply steps_try_handler; [by apply fails_bind | done | apply Hfallback]. }
  destruct (k_status _) as [s|e].
  2:{ eexists _, _, _. split; [|apply Hpost, length_pair_transform].
      eapply apply_hadamard_cpp_reaches_call; [done ..|].
      eapply steps_try_handler; [by apply fails_bind | done | apply Hfallback]. }
  destruct (Z.eqb_spec (c_int s) 0) as [Hs0|Hs0].
  2:{ eexists _, _, _. split; [|apply Hpost, length_pair_transform].
      eapply apply_hadamard_cpp_reaches_call; [done ..|].
      apply steps_try. eapply steps_bind; [exact Hcall|].
      destruct (Z.eqb_spec (c_int s) 0); [done|]. apply Hfallback. }
  match type of Hcall with
  | steps _ _ _ ?hk =>
      destruct (collect_unmarshal_ends hk (length h + 2)%nat (length h + 3)%nat
                  (length amp) 0%nat) as [(l & Hl & Hlen)|(e & Hex & He)]
  end.
  - eexists _, _, l. split; [|by apply Hpost].
    eapply apply_hadamard_cpp_reaches_call; [done ..|].
    apply steps_try. eapply steps_bind; [exact Hcall|].
    rewrite Hs0. simpl. unfold range. rewrite Nat2Z.id.
    eapply steps_bind; [exact Hl|].
    match goal with
    | |- steps ?hh _ _ _ => replace (length h + 4)%nat with (length hh) by apply length_call_heap
    end.
    apply steps_alloc.
  - eexists _, _, _. split; [|apply Hpost, length_pair_transform].
    eapply apply_hadamard_cpp_reaches_call; [done ..|].
    eapply steps_try_handler; [|exact Hex|apply Hfallback].
    eapply steps_bind_fails; [exact Hcall|].
    rewrite Hs0. simpl. unfold range. rewrite Nat2Z.id. by apply fails_bind.
Qed.

(** X1.  On a well-formed request [_apply_hadamard_cpp] returns whatever
    the library and its kernel do (absent, missing symbol, any status, any
    output, any exception that derives from [Exception]), unless the call
    is interrupted by an exception that [except Exception] does not catch:
    the result is a fresh buffer with as many amplitudes as the state, and
    the state is untouched. *)
Theorem apply_hadamard_cpp_returns_unless_interrupted self st d amp t n m :
  heap m !! self = Some (DeviceObj d) -> holds_array m st amp ->
  well_formed amp t n ->
  (forall lib, cpp_lib d = Some lib -> kernel_catchable lib (xclbin_path d) amp t n) ->
  exists r m' new,
    run (_apply_hadamard_cpp self st t n) m = (Ret r, m')
    /\ holds_array m' r new /\ length new = length amp
    /\ r <> st /\ heap m !! r = None
    /\ holds_array m' st amp.
Proof.
  intros Hself Hst Hwf Hcatch.
  destruct (steps_apply_hadamard_cpp_total (heap m) self st d amp t n Hself Hst Hwf Hcatch)
    as (r & h' & new & Hsteps & Hpre & Hr & Hnew & Hlen).
  destruct (steps_run _ _ _ _ m Hsteps eq_refl) as (m' & E & Hm').
  exists r, m', new. split; [done|]. unfold holds_array. rewrite Hm'.
  split; [done|]. split; [done|].
  destruct (fresh_address m st r amp Hst Hr) as [? ?].
  split; [done|]. split; [done|]. by eapply prefix_lookup_Some.
Qed.

Lemma apply_hadamard_cpp_returns_unless_interrupted_witness :
  let d := sample_device 1 true (Some (CDLL (Some raising_kernel))) in
  let m := machine_of [DeviceObj d; NdArray ket0] in
  exists r m' new,
    run (_apply_hadamard_cpp 0%nat 1%nat 0 1) m = (Ret r, m')
    /\ holds_array m' r new /\ length new = length ket0
    /\ r <> 1%nat /\ heap m !! r = None
    /\ holds_array m' 1%nat ket0.
Proof.
  apply (apply_hadamard_cpp_returns_unless_interrupted 0%nat 1%nat
           (sample_device 1 true (Some (CDLL (Some raising_kernel)))) ket0 0 1).
  - reflexivity.
  - reflexivity.
  - split; [reflexivity | lia].
  - intros lib Hlib. injection Hlib as <-. reflexivity.
Defined.

Lemma steps_execute_total h self d :
  h !! self = Some (DeviceObj d) -> library_catchable d ->
  let n := wire_count (wires d) in
  exists r h' final,
    steps h (execute self) r h'
    /\ (h ++ [NdArray (basis_zero n)]) `prefix_of` h'
    /\ (length h <= r)%nat
    /\ h' !! r = Some (NdArray final) /\ length final = Z.to_nat (2 ^ n).
Proof.
  intros Hself Hcatch n.
  pose proof (wire_count_pos (wires d)) as Hn. fold n in Hn.
  assert (Hpn : 0 < 2 ^ n) by (apply Z.pow_pos_nonneg; lia).
  assert (Hcall : forall amp t n lib, cpp_lib d = Some lib ->
            kernel_catchable lib (xclbin_path d) amp t n).
  { intros amp t n' lib Hlib. unfold library_catchable in Hcatch.
    rewrite Hlib in Hcatch. apply Hcatch. }
  set (h0 := h ++ [NdArray (basis_zero n)]).
  destruct (steps_for_loop_seq
              (fun (k : nat) s hh =>
                 h0 `prefix_of` hh /\ (length h <= s)%nat
                 /\ exists cur, hh !! s = Some (NdArray cur)
                                /\ length cur = Z.to_nat (2 ^ n))
              (execute_body self n) (Z.to_nat n) 0%nat (length h) h0)
    as (r & h' & Hloop & Hpre & Hr & final & Hfinal & Hlen).
  { intros k s hh Hk (Hpre & Hs & cur & Hcur & Hlen).
    assert (Hself' : hh !! self = Some (DeviceObj d)).
    { eapply prefix_lookup_Some; [|done]. unfold h0. by apply lookup_app_l_Some. }
    destruct (steps_apply_hadamard_cpp_total hh self s d cur (Z.of_nat k) n
                Hself' Hcur ltac:(split; [done | lia]) (Hcall cur (Z.of_nat k) n))
      as (r & h' & new & Hsteps & Hpre' & Hr & Hnew & Hlen').
    exists r, h'. split.
    - unfold execute_body. eapply steps_bind; [exact Hsteps|].
      eapply steps_bind; [apply steps_print_state|]. apply steps_ret.
    - split; [by etrans|]. split.
      + apply prefix_length in Hpre. unfold h0 in Hpre. rewrite length_app in Hpre.
        simpl in Hpre. lia.
      + exists new. split; [done | congruence]. }
  { split; [done|]. split; [done|]. exists (basis_zero n). split.
    - unfold h0. rewrite lookup_app_r by done. by rewrite Nat.sub_diag.
    - unfold basis_zero. by rewrite length_insert, length_replicate. }
  exists r, h', final. split; [|done].
  unfold execute.
  eapply steps_bind; [by apply steps_getattr|].
  eapply steps_bind.
  { instantiate (1 := h). instantiate (1 := tt). destruct (use_fpga d).
    - eapply steps_bind; [by apply steps_getattr|]. apply steps_print.
    - apply steps_print. }
  eapply steps_bind; [by apply steps_getattr|]. fold n.
  eapply steps_bind; [apply steps_np_zeros; lia|].
  eapply steps_bind.
  { eapply steps_ndarray_setitem.
    - rewrite lookup_app_r by done. by rewrite Nat.sub_diag.
    - rewrite length_replicate. lia. }
  rewrite insert_app_r_alt, Nat.sub_diag by done. simpl.
  exact Hloop.
Qed.

(** X2.  On a device of at most [max_qubits] wires whose library, if
    any, is never interrupted, [execute] returns whatever the kernel does
    (any status, any output, any exception that derives from [Exception]):
    the result is a fresh buffer of [2^n] amplitudes, [n] the number of
    wires (1 when there are none), and every object that existed before
    the call is unchanged. *)
Theorem execute_returns_unless_interrupted self d m :
  heap m !! self = Some (DeviceObj d) -> library_catchable d ->
  let n := wire_count (wires d) in
  n <= max_qubits ->
  exists r m' final,
    run (execute self) m = (Ret r, m')
    /\ holds_array m' r final /\ length final = Z.to_nat (2 ^ n)
    /\ heap m !! r = None
    /\ preserved m m'.
Proof.
  intros Hself Hcatch n _.
  destruct (steps_execute_total (heap m) self d Hself Hcatch)
    as (r & h' & final & Hsteps & Hpre & Hr & Hfinal & Hlen).
  destruct (steps_run _ _ _ _ m Hsteps eq_refl) as (m' & E & Hm').
  exists r, m', final. split; [done|]. unfold holds_array, preserved. rewrite Hm'.
  split; [done|]. split; [done|]. split; [by apply lookup_ge_None_2|].
  etrans; [|exact Hpre]. by apply prefix_app_r.
Qed.

Lemma execute_returns_unless_interrupted_witness :
  let d := sample_device 2 true (Some (CDLL (Some raising_kernel))) in
  let m := machine_of [DeviceObj d] in
  let n := wire_count (wires d) in
  exists r m' final,
    run (execute 0%nat) m = (Ret r, m')
    /\ holds_array m' r final /\ length final = Z.to_nat (2 ^ n)
    /\ heap m !! r = None
    /\ preserved m m'.
Proof.
  apply (execute_returns_unless_interrupted 0%nat
           (sample_device 2 true (Some (CDLL (Some raising_kernel))))).
  - reflexivity.
  - intros amp t n. reflexivity.
  - simpl. unfold max_qubits. lia.
Defined.

(** ** What the accelerated path returns when the kernel accepts *)

(** X3.  The kernel is called with the bitstream path, the real parts and
    the imaginary parts of the state in index order, two zeroed output
    buffers, and the target, qubit count and state size converted to
    [c_int].  When it reports status 0 and leaves in its output buffers the
    real and imaginary parts of [new], as long as the state,
    [_apply_hadamard_cpp] returns a fresh buffer equal to [new], index by
    index; in particular a kernel that copies input to output gives the
    state back. *)
Theorem apply_hadamard_cpp_returns_kernel_output self st d lib kernel amp t n new m :
  heap m !! self = Some (DeviceObj d) -> cpp_lib d = Some lib ->
  hadamard_kernel_execute_c lib = Some kernel ->
  holds_array m st amp ->
  let zeros := replicate (length amp) 0%R in
  let r := kernel (xclbin_path d) (map Re amp) (map Im amp) zeros zeros
             (c_int t) (c_int n) (c_int (Z.of_nat (length amp))) in
  (exists s, k_status r = Ret s /\ c_int s = 0) ->
  k_output_real r = map Re new -> k_output_imag r = map Im new ->
  length new = length amp ->
  exists res m',
    run (_apply_hadamard_cpp self st t n) m = (Ret res, m')
    /\ holds_array m' res new
    /\ res <> st
    /\ holds_array m' st amp.
Proof.
  intros Hself Hlib Hsym Hst zeros r Hs Hre Him Hlen.
  pose proof (steps_apply_hadamard_cpp_accepted (heap m) self st d lib kernel amp t n new
                Hself Hlib Hsym Hst Hs Hre Him Hlen) as Hacc.
  destruct (steps_run _ _ _ _ m Hacc eq_refl) as (m' & E & Hm').
  exists (length (heap m) + 4)%nat, m'. split; [done|]. unfold holds_array. rewrite Hm'.
  split; [|split].
  - match goal with
    | |- (?hh ++ _) !! _ = _ =>
        replace (length (heap m) + 4)%nat with (length hh) by apply length_call_heap
    end.
    rewrite lookup_app_r by done. by rewrite Nat.sub_diag.
  - apply lookup_lt_Some in Hst. lia.
  - apply lookup_app_l_Some. by apply call_heap_lookup_old.
Qed.

Lemma apply_hadamard_cpp_returns_kernel_output_witness :
  let d := sample_device 1 true (Some (CDLL (Some echo_kernel))) in
  let m := machine_of [DeviceObj d; NdArray ket0] in
  exists res m',
    run (_apply_hadamard_cpp 0%nat 1%nat 0 1) m = (Ret res, m')
    /\ holds_array m' res ket0
    /\ res <> 1%nat
    /\ holds_array m' 1%nat ket0.
Proof.
  apply (apply_hadamard_cpp_returns_kernel_output 0%nat 1%nat
           (sample_device 1 true (Some (CDLL (Some echo_kernel))))
           (CDLL (Some echo_kernel)) echo_kernel ket0 0 1 ket0).
  - reflexivity.
  - reflexivity.
  - reflexivity.
  - reflexivity.
  - exists 0. split; reflexivity.
  - reflexivity.
  - reflexivity.
  - reflexivity.
Defined.

Lemma steps_apply_hadamard_cpp_faithful_call h self st d amp t n :
  h !! self = Some (DeviceObj d) -> h !! st = Some (NdArray amp) ->
  well_formed amp t n ->
  match cpp_lib d with
  | None => True
  | Some lib => kernel_faithful lib (xclbin_path d) amp t n
  end ->
  exists extra,
    steps h (_apply_hadamard_cpp self st t n) (length h + length extra)%nat
          (h ++ extra ++ [NdArray (pair_transform amp t)]).
Proof.
  intros Hself Hst Hwf Hfaith.
  destruct (cpp_lib d) as [lib|] eqn:Hlib.
  2:{ exists []. simpl. rewrite Nat.add_0_r. intros m Hm.
      rewrite (run_apply_hadamard_cpp_no_library self st d t n m) by (by rewrite ?Hm).
      by apply steps_apply_hadamard_python. }
  unfold kernel_faithful in Hfaith.
  assert (Hdecl : kernel_declines lib (xclbin_path d) amp t n ->
    exists extra,
      steps h (_apply_hadamard_cpp self st t n) (length h + length extra)%nat
            (h ++ extra ++ [NdArray (pair_transform amp t)])).
  { intros Hd.
    destruct (steps_apply_hadamard_cpp_declined h self st d lib amp t n
                Hself Hlib Hst Hwf Hd) as (ir & ii & or & oi & Hs).
    exists [CDoubleArray ir; CDoubleArray ii; CDoubleArray or; CDoubleArray oi].
    unfold call_heap in Hs. by rewrite <- app_assoc in Hs. }
  destruct (hadamard_kernel_execute_c lib) as [kernel|] eqn:Hsym.
  2:{ apply Hdecl. unfold kernel_declines, kernel_report. by rewrite Hsym. }
  simpl in Hfaith.
  destruct (k_status _) as [s|e] eqn:Hs.
  2:{ apply Hdecl. unfold kernel_declines, kernel_report. by rewrite Hsym, Hs. }
  destruct (Z.eq_dec (c_int s) 0) as [Hs0|Hs0].
  2:{ apply Hdecl. unfold kernel_declines, kernel_report. by rewrite Hsym, Hs. }
  destruct (Hfaith Hs0) as [Hre Him].
  pose proof (steps_apply_hadamard_cpp_accepted h self st d lib kernel amp t n
                (pair_transform amp t) Hself Hlib Hsym Hst
                (ex_intro _ s (conj Hs Hs0)) Hre Him (length_pair_transform amp t)) as Hacc.
  eexists [_; _; _; _]. unfold call_heap in Hacc. rewrite <- app_assoc in Hacc. exact Hacc.
Qed.

(** X4.  Parity of the two paths: when the library is absent, or its
    kernel either declines the call (a nonzero status, or an exception that
    derives from [Exception]) or accepts it and leaves the pair transform
    in its output buffers, [_apply_hadamard_cpp] and
    [_apply_hadamard_python] return buffers with the same contents. *)
Theorem apply_hadamard_cpp_parity self st d amp t n m :
  heap m !! self = Some (DeviceObj d) -> holds_array m st amp ->
  well_formed amp t n ->
  match cpp_lib d with
  | None => True
  | Some lib => kernel_faithful lib (xclbin_path d) amp t n
  end ->
  exists r m1 r' m2 new,
    run (_apply_hadamard_cpp self st t n) m = (Ret r, m1)
    /\ run (_apply_hadamard_python self st t n) m = (Ret r', m2)
    /\ holds_array m1 r new /\ holds_array m2 r' new.
Proof.
  intros Hself Hst Hwf Hfaith.
  destruct (steps_apply_hadamard_cpp_faithful_call (heap m) self st d amp t n
              Hself Hst Hwf Hfaith) as (extra & Hcpp).
  destruct (steps_run _ _ _ _ m Hcpp eq_refl) as (m1 & E1 & Hm1).
  destruct (steps_run _ _ _ _ m
              (steps_apply_hadamard_python (heap m) self st amp t n Hst Hwf) eq_refl)
    as (m2 & E2 & Hm2).
  eexists _, m1, _, m2, (pair_transform amp t).
  split; [done|]. split; [done|]. split; [|by apply holds_last].
  unfold holds_array. rewrite Hm1, app_assoc, lookup_app_r by (rewrite length_app; lia).
  by rewrite length_app, Nat.sub_diag.
Qed.

Lemma apply_hadamard_cpp_parity_witness :
  let d := sample_device 1 true (Some (CDLL (Some reference_kernel))) in
  let m := machine_of [DeviceObj d; NdArray ket0] in
  exists r m1 r' m2 new,
    run (_apply_hadamard_cpp 0%nat 1%nat 0 1) m = (Ret r, m1)
    /\ run (_apply_hadamard_python 0%nat 1%nat 0 1) m = (Ret r', m2)
    /\ holds_array m1 r new /\ holds_array m2 r' new.
Proof.
  apply (apply_hadamard_cpp_parity 0%nat 1%nat
           (sample_device 1 true (Some (CDLL (Some reference_kernel)))) ket0 0 1).
  - reflexivity.
  - reflexivity.
  - split; [reflexivity | lia].
  - simpl. unfold kernel_faithful. simpl. intros _. split; reflexivity.
Defined.

(** ** The software path on a state that does not fit the qubit count *)






(** ** Updates on different qubits commute *)

Lemma testbit_add_pow2_other x t u :
  0 <= t -> 0 <= u -> t <> u -> Z.testbit x t = false ->
  Z.testbit (x + 2 ^ t) u = Z.testbit x u.
Proof.
  intros Ht Hu Hne Hb. rewrite <- lxor_pow2_clear by done.
  rewrite Z.lxor_spec, Z.pow2_bits_eqb by done.
  destruct (Z.eqb_spec t u); [done|]. apply xorb_false_r.
Qed.

Lemma testbit_sub_pow2_other x t u :
  0 <= t -> 0 <= u -> t <> u -> Z.testbit x t = true ->
  Z.testbit (x - 2 ^ t) u = Z.testbit x u.
Proof.
  intros Ht Hu Hne Hb. rewrite <- lxor_pow2_set by done.
  rewrite Z.lxor_spec, Z.pow2_bits_eqb by done.
  destruct (Z.eqb_spec t u); [done|]. apply xorb_false_r.
Qed.

Lemma pair_update_commute_pp a b c d :
  Cmul (RtoC sqrt2_inv)
    (Cadd (Cmul (RtoC sqrt2_inv) (Cadd a b)) (Cmul (RtoC sqrt2_inv) (Cadd c d)))
  = Cmul (RtoC sqrt2_inv)
      (Cadd (Cmul (RtoC sqrt2_inv) (Cadd a c)) (Cmul (RtoC sqrt2_inv) (Cadd b d))).
Proof.
  destruct a, b, c, d. unfold Cmul, Cadd, RtoC, Re, Im. simpl. f_equal; ring.
Qed.

Lemma pair_update_commute_pm a b c d :
  Cmul (RtoC sqrt2_inv)
    (Cadd (Cmul (RtoC sqrt2_inv) (Csub a b)) (Cmul (RtoC sqrt2_inv) (Csub c d)))
  = Cmul (RtoC sqrt2_inv)
      (Csub (Cmul (RtoC sqrt2_inv) (Cadd a c)) (Cmul (RtoC sqrt2_inv) (Cadd b d))).
Proof.
  destruct a, b, c, d. unfold Cmul, Cadd, Csub, RtoC, Re, Im. simpl. f_equal; ring.
Qed.

Lemma pair_update_commute_mm a b c d :
  Cmul (RtoC sqrt2_inv)
    (Csub (Cmul (RtoC sqrt2_inv) (Csub a b)) (Cmul (RtoC sqrt2_inv) (Csub c d)))
  = Cmul (RtoC sqrt2_inv)
      (Csub (Cmul (RtoC sqrt2_inv) (Csub a c)) (Cmul (RtoC sqrt2_inv) (Csub b d))).
Proof.
  destruct a, b, c, d. unfold Cmul, Csub, RtoC, Re, Im. simpl. f_equal; ring.
Qed.

Lemma pair_transform_commute amp t u n :
  length amp = Z.to_nat (2 ^ n) -> 0 <= t < n -> 0 <= u < n -> t <> u ->
  pair_transform (pair_transform amp t) u = pair_transform (pair_transform amp u) t.
Proof.
  intros Hlen Ht Hu Hne.
  assert (Hwt : well_formed amp t n) by done.
  assert (Hwu : well_formed amp u n) by done.
  pose proof (wf_dim amp t n Hwt) as Hdim.
  assert (0 < 2 ^ t) by (apply Z.pow_pos_nonneg; lia).
  assert (0 < 2 ^ u) by (apply Z.pow_pos_nonneg; lia).
  change (pair_transform (pair_transform amp t) u)
    with (tabulate (hadamard_at (pair_transform amp t) u) (length (pair_transform amp t))).
  change (pair_transform (pair_transform amp u) t)
    with (tabulate (hadamard_at (pair_transform amp u) t) (length (pair_transform amp u))).
  rewrite !length_pair_transform.
  apply tabulate_ext. intros x Hx. rewrite Hdim in Hx.
  change (hadamard_at (pair_transform amp t) u x)
    with (if Z.testbit x u
          then Cmul (RtoC sqrt2_inv)
                 (Csub (aget (pair_transform amp t) (x - 2 ^ u)) (aget (pair_transform amp t) x))
          else Cmul (RtoC sqrt2_inv)
                 (Cadd (aget (pair_transform amp t) x) (aget (pair_transform amp t) (x + 2 ^ u)))).
  change (hadamard_at (pair_transform amp u) t x)
    with (if Z.testbit x t
          then Cmul (RtoC sqrt2_inv)
                 (Csub (aget (pair_transform amp u) (x - 2 ^ t)) (aget (pair_transform amp u) x))
          else Cmul (RtoC sqrt2_inv)
                 (Cadd (aget (pair_transform amp u) x) (aget (pair_transform amp u) (x + 2 ^ t)))).
  destruct (Z.testbit x t) eqn:Bt, (Z.testbit x u) eqn:Bu.
  - pose proof (sub_pow2_nonneg x t ltac:(lia) ltac:(lia) Bt).
    pose proof (sub_pow2_nonneg x u ltac:(lia) ltac:(lia) Bu).
    pose proof (testbit_sub_pow2_other x t u ltac:(lia) ltac:(lia) Hne Bt) as E1.
    pose proof (testbit_sub_pow2_other x u t ltac:(lia) ltac:(lia) ltac:(lia) Bu) as E2.
    rewrite Bu in E1. rewrite Bt in E2.
    pose proof (sub_pow2_nonneg (x - 2 ^ t) u ltac:(lia) ltac:(lia) E1).
    rewrite !(pair_transform_at amp t n), !(pair_transform_at amp u n) by (done || lia).
    unfold hadamard_at. rewrite Bt, Bu, E1, E2.
    replace (x - 2 ^ u - 2 ^ t) with (x - 2 ^ t - 2 ^ u) by lia.
    apply pair_update_commute_mm.
  - pose proof (sub_pow2_nonneg x t ltac:(lia) ltac:(lia) Bt).
    pose proof (add_pow2_lt x u n Hu ltac:(lia) Bu).
    pose proof (testbit_sub_pow2_other x t u ltac:(lia) ltac:(lia) Hne Bt) as E1.
    pose proof (testbit_add_pow2_other x u t ltac:(lia) ltac:(lia) ltac:(lia) Bu) as E2.
    rewrite Bu in E1. rewrite Bt in E2.
    pose proof (add_pow2_lt (x - 2 ^ t) u n Hu ltac:(lia) E1).
    rewrite !(pair_transform_at amp t n), !(pair_transform_at amp u n) by (done || lia).
    unfold hadamard_at. rewrite Bt, Bu, E1, E2.
    replace (x + 2 ^ u - 2 ^ t) with (x - 2 ^ t + 2 ^ u) by lia.
    apply pair_update_commute_pm.
  - pose proof (add_pow2_lt x t n Ht ltac:(lia) Bt).
    pose proof (sub_pow2_nonneg x u ltac:(lia) ltac:(lia) Bu).
    pose proof (testbit_add_pow2_other x t u ltac:(lia) ltac:(lia) Hne Bt) as E1.
    pose proof (testbit_sub_pow2_other x u t ltac:(lia) ltac:(lia) ltac:(lia) Bu) as E2.
    rewrite Bu in E1. rewrite Bt in E2.
    pose proof (add_pow2_lt (x - 2 ^ u) t n Ht ltac:(lia) E2).
    rewrite !(pair_transform_at amp t n), !(pair_transform_at amp u n) by (done || lia).
    unfold hadamard_at. rewrite Bt, Bu, E1, E2.
    replace (x + 2 ^ t - 2 ^ u) with (x - 2 ^ u + 2 ^ t) by lia.
    symmetry. apply pair_update_commute_pm.
  - pose proof (add_pow2_lt x t n Ht ltac:(lia) Bt).
    pose proof (add_pow2_lt x u n Hu ltac:(lia) Bu).
    pose proof (testbit_add_pow2_other x t u ltac:(lia) ltac:(lia) Hne Bt) as E1.
    pose proof (testbit_add_pow2_other x u t ltac:(lia) ltac:(lia) ltac:(lia) Bu) as E2.
    rewrite Bu in E1. rewrite Bt in E2.
    pose proof (add_pow2_lt (x + 2 ^ t) u n Hu ltac:(lia) E1).
    rewrite !(pair_transform_at amp t n), !(pair_transform_at amp u n) by (done || lia).
    unfold hadamard_at. rewrite Bt, Bu, E1, E2.
    replace (x + 2 ^ u + 2 ^ t) with (x + 2 ^ t + 2 ^ u) by lia.
    apply pair_update_commute_pp.
Qed.

(** two successive software updates, as one step on the heap *)
Lemma steps_apply_hadamard_python_twice h self st amp t u n :
  h !! st = Some (NdArray amp) -> well_formed amp t n -> 0 <= u < n ->
  steps h (r1 <- _apply_hadamard_python self st t n ;;
           _apply_hadamard_python self r1 u n)
        (length h + 1)%nat
        (h ++ [NdArray (pair_transform amp t);
               NdArray (pair_transform (pair_transform amp t) u)]).
Proof.
  intros Hst Hwf Hu.
  eapply steps_bind; [by apply steps_apply_hadamard_python|].
  pose proof (steps_apply_hadamard_python (h ++ [NdArray (pair_transform amp t)]) self
                (length h) (pair_transform amp t) u n) as Hs.
  rewrite length_app, <- app_assoc in Hs. simpl in Hs. apply Hs.
  - rewrite lookup_app_r by done. by rewrite Nat.sub_diag.
  - destruct Hwf as [Hlen _]. split; [by rewrite length_pair_transform | done].
Qed.

(** X6.  Software updates on two different qubits commute: applying the
    update for qubit [t] and then for qubit [u] returns a buffer with the
    same contents as applying them in the other order. *)
Theorem apply_hadamard_python_commute self st amp t u n m :
  holds_array m st amp -> length amp = Z.to_nat (2 ^ n) ->
  0 <= t < n -> 0 <= u < n -> t <> u ->
  exists r m1 r' m2 new,
    run (r1 <- _apply_hadamard_python self st t n ;;
         _apply_hadamard_python self r1 u n) m = (Ret r, m1)
    /\ run (r1 <- _apply_hadamard_python self st u n ;;
            _apply_hadamard_python self r1 t n) m = (Ret r', m2)
    /\ holds_array m1 r new /\ holds_array m2 r' new.
Proof.
  intros Hst Hlen Ht Hu Hne.
  destruct (steps_run _ _ _ _ m
              (steps_apply_hadamard_python_twice (heap m) self st amp t u n Hst
                 ltac:(done) Hu) eq_refl) as (m1 & E1 & Hm1).
  destruct (steps_run _ _ _ _ m
              (steps_apply_hadamard_python_twice (heap m) self st amp u t n Hst
                 ltac:(done) Ht) eq_refl) as (m2 & E2 & Hm2).
  eexists _, m1, _, m2, (pair_transform (pair_transform amp t) u).
  split; [done|]. split; [done|]. unfold holds_array. rewrite Hm1, Hm2.
  rewrite !lookup_app_r by lia.
  replace (length (heap m) + 1 - length (heap m))%nat with 1%nat by lia. simpl.
  split; [done|]. by rewrite (pair_transform_commute amp t u n).
Qed.

Lemma apply_hadamard_python_commute_witness :
  let m := machine_of [NdArray ket00] in
  exists r m1 r' m2 new,
    run (r1 <- _apply_hadamard_python 0%nat 0%nat 0 2 ;;
         _apply_hadamard_python 0%nat r1 1 2) m = (Ret r, m1)
    /\ run (r1 <- _apply_hadamard_python 0%nat 0%nat 1 2 ;;
            _apply_hadamard_python 0%nat r1 0 2) m = (Ret r', m2)
    /\ holds_array m1 r new /\ holds_array m2 r' new.
Proof.
  apply (apply_hadamard_python_commute 0%nat 0%nat ket00 0 1 2 (machine_of [NdArray ket00])).
  - reflexivity.
  - reflexivity.
  - lia.
  - lia.
  - lia.
Defined.

(** ** [execute] returns a normalized state *)

Lemma norm2_replicate_C0 k : norm2 (replicate k C0) = 0%R.
Proof.
  unfold norm2. induction k as [|k IH]; simpl; [done|]. rewrite IH.
  unfold Cnorm2, C0, RtoC, Re, Im. simpl. ring.
Qed.

Lemma norm2_basis_zero n : 0 <= n -> norm2 (basis_zero n) = 1%R.
Proof.
  intros Hn. assert (0 < 2 ^ n) by (apply Z.pow_pos_nonneg; lia).
  unfold basis_zero. destruct (Z.to_nat (2 ^ n)) as [|k] eqn:E; [lia|].
  simpl. pose proof (norm2_replicate_C0 k) as Hk. unfold norm2 in *. simpl.
  rewrite Hk. unfold Cnorm2, RtoC, Re, Im. simpl. ring.
Qed.

Lemma norm2_uniform_upto n (k : nat) :
  Z.of_nat k <= n -> norm2 (uniform_upto n k) = 1%R.
Proof.
  induction k as [|k IH]; intros Hk.
  - rewrite uniform_upto_0 by lia. apply norm2_basis_zero. lia.
  - rewrite <- uniform_upto_step by lia.
    rewrite (norm2_pair_transform _ _ n) by (apply well_formed_uniform_upto; lia).
    apply IH. lia.
Qed.

(** X7.  On a device of at most [max_qubits] wires, with a library that
    is absent or whose kernel is faithful (on each call it declines, or
    accepts and leaves the pair transform in its output buffers), [execute]
    returns a normalized state: the squared magnitudes of the returned
    amplitudes sum to 1. *)
Theorem execute_returns_normalized self d m :
  heap m !! self = Some (DeviceObj d) -> library_faithful d ->
  wire_count (wires d) <= max_qubits ->
  exists r m' final,
    run (execute self) m = (Ret r, m')
    /\ holds_array m' r final
    /\ norm2 final = 1%R.
Proof.
  intros Hself Hfaith Hmax.
  pose proof (wire_count_pos (wires d)) as Hn.
  destruct (steps_execute (heap m) self d Hself Hfaith)
    as (r & h' & Hsteps & _ & Hr); [unfold max_qubits, c_int_qubits in *; lia|].
  destruct (steps_run _ _ _ _ m Hsteps eq_refl) as (m' & E & Hm').
  eexists r, m', _. split; [done|]. split.
  - unfold holds_array. rewrite Hm'. exact Hr.
  - apply norm2_uniform_upto. lia.
Qed.

Lemma execute_returns_normalized_witness :
  let d := sample_device 3 true (Some (CDLL (Some reference_kernel))) in
  let m := machine_of [DeviceObj d] in
  exists r m' final,
    run (execute 0%nat) m = (Ret r, m')
    /\ holds_array m' r final
    /\ norm2 final = 1%R.
Proof.
  apply (execute_returns_normalized 0%nat
           (sample_device 3 true (Some (CDLL (Some reference_kernel))))).
  - reflexivity.
  - apply reference_library_faithful.
  - simpl. unfold max_qubits. lia.
Defined.

(** ** Dispatch never reads [use_fpga] *)

Section FlagBlind.

Variable self : addr.

Lemma length_with_flag b m : length (heap (with_flag self b m)) = length (heap m).
Proof using Type. unfold with_flag. simpl. apply length_alter. Qed.

(** what is at an address, up to the flag of the device *)
Lemma lookup_with_flag b m (a : addr) :
  heap (with_flag self b m) !! a
  = if decide (self = a) then flag_obj b <$> heap m !! a else heap m !! a.
Proof using Type.
  unfold with_flag. simpl. rewrite list_lookup_alter. repeat case_decide; by subst.
Qed.

Lemma lookup_with_flag_array b m (a : addr) d :
  heap m !! a = Some (NdArray d) -> heap (with_flag self b m) !! a = Some (NdArray d).
Proof using Type. intros E. rewrite lookup_with_flag, E. by case_decide. Qed.

Lemma lookup_with_flag_carray b m (a : addr) d :
  heap m !! a = Some (CDoubleArray d) -> heap (with_flag self b m) !! a = Some (CDoubleArray d).
Proof using Type. intros E. rewrite lookup_with_flag, E. by case_decide. Qed.

Lemma lookup_with_flag_device b m (a : addr) d :
  heap m !! a = Some (DeviceObj d) ->
  exists d', heap (with_flag self b m) !! a = Some (DeviceObj d')
             /\ cpp_lib d' = cpp_lib d /\ xclbin_path d' = xclbin_path d
             /\ wires d' = wires d.
Proof using Type.
  intros E. rewrite lookup_with_flag, E. case_decide; simpl; eauto.
Qed.

Lemma lookup_with_flag_none b m (a : addr) :
  heap m !! a = None -> heap (with_flag self b m) !! a = None.
Proof using Type. intros E. rewrite lookup_with_flag, E. by case_decide. Qed.

Lemma with_flag_insert b m (a : addr) o :
  flag_obj b o = o ->
  set_heap (<[a := o]> (heap (with_flag self b m))) (with_flag self b m)
  = with_flag self b (set_heap (<[a := o]> (heap m)) m).
Proof using Type.
  intros Ho. unfold with_flag, set_heap. simpl. f_equal.
  apply list_eq. intros i.
  destruct (decide (a = i)) as [->|Hai].
  - destruct (decide (i < length (heap m))%nat) as [Hlt|Hge].
    + rewrite list_lookup_insert_eq by (rewrite length_alter; lia).
      rewrite list_lookup_alter. case_decide.
      * subst. rewrite list_lookup_insert_eq by done. simpl. by rewrite Ho.
      * by rewrite list_lookup_insert_eq.
    + by rewrite !list_insert_ge by (rewrite ?length_alter; lia).
  - rewrite list_lookup_insert_ne by done. rewrite !list_lookup_alter.
    case_decide; [subst|]; by rewrite list_lookup_insert_ne.
Qed.

Lemma with_flag_alloc b m o :
  flag_obj b o = o ->
  set_heap (heap (with_flag self b m) ++ [o]) (with_flag self b m)
  = with_flag self b (set_heap (heap m ++ [o]) m).
Proof using Type.
  intros Ho. unfold with_flag, set_heap. simpl. f_equal.
  apply list_eq. intros i. rewrite list_lookup_alter.
  destruct (decide (i < length (heap m))%nat).
  - rewrite lookup_app_l by (rewrite ?length_alter; lia).
    rewrite list_lookup_alter.
    case_decide; subst; by rewrite lookup_app_l by lia.
  - rewrite lookup_app_r by (rewrite ?length_alter; lia). rewrite length_alter.
    case_decide; subst; rewrite lookup_app_r by lia; [|done].
    destruct ([o] !! (i - length (heap m))%nat) as [o'|] eqn:E; [|done].
    apply list_lookup_singleton_Some in E as [_ <-]. simpl. by rewrite Ho.
Qed.

Lemma flag_blind_ret {A} (a : A) : flag_blind self (ret a).
Proof using Type. by intros m b. Qed.

Lemma flag_blind_raise {A} e : flag_blind self (@raise A e).
Proof using Type. by intros m b. Qed.

Lemma flag_blind_bind {A B} (c : M A) (k : A -> M B) :
  flag_blind self c -> (forall a, flag_blind self (k a)) -> flag_blind self (bind c k).
Proof using Type.
  intros Hc Hk m b. unfold bind. rewrite Hc.
  destruct (c m) as [[a|e] m1]; simpl; [apply Hk | done].
Qed.

Lemma flag_blind_try {A} (c : M A) (h : exn -> M A) :
  flag_blind self c -> (forall e, flag_blind self (h e)) -> flag_blind self (try_except c h).
Proof using Type.
  intros Hc Hh m b. unfold try_except. rewrite Hc.
  destruct (c m) as [[a|e] m1]; simpl; [done|].
  destruct (is_exception e); [apply Hh | done].
Qed.

Lemma flag_blind_for_each xs (body : Z -> M unit) :
  (forall x, flag_blind self (body x)) -> flag_blind self (for_each xs body).
Proof using Type.
  intros Hb. induction xs as [|x xs IH]; simpl; [apply flag_blind_ret|].
  apply flag_blind_bind; [apply Hb | by intros _].
Qed.

Lemma flag_blind_collect {A} xs (f : Z -> M A) :
  (forall x, flag_blind self (f x)) -> flag_blind self (collect xs f).
Proof using Type.
  intros Hf. induction xs as [|x xs IH]; simpl; [apply flag_blind_ret|].
  apply flag_blind_bind; [apply Hf|]. intros v.
  apply flag_blind_bind; [apply IH|]. intros vs. apply flag_blind_ret.
Qed.

Lemma flag_blind_print msg : flag_blind self (print msg).
Proof using Type. by intros m b. Qed.

Lemma flag_blind_py_lshift x y : flag_blind self (py_lshift x y).
Proof using Type.
  unfold py_lshift. destruct (y <? 0); [apply flag_blind_raise | apply flag_blind_ret].
Qed.

Lemma flag_blind_alloc o : flag_obj true o = o -> flag_obj false o = o ->
  flag_blind self (alloc o).
Proof using Type.
  intros Ht Hf m b. unfold alloc. rewrite length_with_flag. simpl. f_equal.
  apply with_flag_alloc. by destruct b.
Qed.

Lemma flag_blind_carray_new n : flag_blind self (carray_new n).
Proof using Type.
  unfold carray_new. destruct (n <? 0); [apply flag_blind_raise | by apply flag_blind_alloc].
Qed.

Lemma flag_blind_np_array l : flag_blind self (np_array l).
Proof using Type. by apply flag_blind_alloc. Qed.

Lemma flag_blind_ndarray_copy a : flag_blind self (ndarray_copy a).
Proof using Type.
  intros m b. unfold ndarray_copy.
  destruct (heap m !! a) as [[d|d|d]|] eqn:E.
  - rewrite (lookup_with_flag_array b m a d E). by apply flag_blind_alloc.
  - by rewrite (lookup_with_flag_carray b m a d E).
  - by destruct (lookup_with_flag_device b m a d E) as (d' & -> & _).
  - by rewrite (lookup_with_flag_none b m a E).
Qed.

Lemma flag_blind_ndarray_len a : flag_blind self (ndarray_len a).
Proof using Type.
  intros m b. unfold ndarray_len.
  destruct (heap m !! a) as [[d|d|d]|] eqn:E.
  - by rewrite (lookup_with_flag_array b m a d E).
  - by rewrite (lookup_with_flag_carray b m a d E).
  - by destruct (lookup_with_flag_device b m a d E) as (d' & -> & _).
  - by rewrite (lookup_with_flag_none b m a E).
Qed.

Lemma flag_blind_ndarray_getitem a i : flag_blind self (ndarray_getitem a i).
Proof using Type.
  intros m b. unfold ndarray_getitem.
  destruct (heap m !! a) as [[d|d|d]|] eqn:E.
  - rewrite (lookup_with_flag_array b m a d E).
    destruct (py_index _ _); [|done]. by destruct (d !! _).
  - by rewrite (lookup_with_flag_carray b m a d E).
  - by destruct (lookup_with_flag_device b m a d E) as (d' & -> & _).
  - by rewrite (lookup_with_flag_none b m a E).
Qed.

Lemma flag_blind_carray_getitem a i : flag_blind self (carray_getitem a i).
Proof using Type.
  intros m b. unfold carray_getitem.
  destruct (heap m !! a) as [[d|d|d]|] eqn:E.
  - by rewrite (lookup_with_flag_array b m a d E).
  - rewrite (lookup_with_flag_carray b m a d E).
    destruct (py_index _ _); [|done]. by destruct (d !! _).
  - by destruct (lookup_with_flag_device b m a d E) as (d' & -> & _).
  - by rewrite (lookup_with_flag_none b m a E).
Qed.

Lemma flag_blind_ndarray_setitem a i v : flag_blind self (ndarray_setitem a i v).
Proof using Type.
  intros m b. unfold ndarray_setitem.
  destruct (heap m !! a) as [[d|d|d]|] eqn:E.
  - rewrite (lookup_with_flag_array b m a d E).
    destruct (py_index _ _); [|done]. simpl. f_equal.
    unfold log_write. simpl.
    pose proof (with_flag_insert b m a (NdArray (<[n:=v]> d)) eq_refl) as Hi.
    unfold with_flag, set_heap in *. simpl in *. by injection Hi as ->.
  - by rewrite (lookup_with_flag_carray b m a d E).
  - by destruct (lookup_with_flag_device b m a d E) as (d' & -> & _).
  - by rewrite (lookup_with_flag_none b m a E).
Qed.

Lemma flag_blind_carray_setitem a i v : flag_blind self (carray_setitem a i v).
Proof using Type.
  intros m b. unfold carray_setitem.
  destruct (heap m !! a) as [[d|d|d]|] eqn:E.
  - by rewrite (lookup_with_flag_array b m a d E).
  - rewrite (lookup_with_flag_carray b m a d E).
    destruct (py_index _ _); [|done]. simpl. f_equal.
    unfold log_write. simpl.
    pose proof (with_flag_insert b m a (CDoubleArray (<[n:=v]> d)) eq_refl) as Hi.
    unfold with_flag, set_heap in *. simpl in *. by injection Hi as ->.
  - by destruct (lookup_with_flag_device b m a d E) as (d' & -> & _).
  - by rewrite (lookup_with_flag_none b m a E).
Qed.

End FlagBlind.

Section FlagBlindMethods.

Variable self : addr.

Lemma alter_flag_insert b (h : list obj) (a : addr) o :
  flag_obj b o = o ->
  <[a := o]> (alter (flag_obj b) self h) = alter (flag_obj b) self (<[a := o]> h).
Proof using Type.
  intros Ho.
  pose proof (with_flag_insert self b (Machine h no_files no_libraries [] []) a o Ho) as Hi.
  unfold with_flag, set_heap in Hi. simpl in Hi. by injection Hi.
Qed.

Lemma flag_blind_getattr {A} (s : addr) (field : device -> A) :
  (forall b d, field (set_use_fpga b d) = field d) ->
  flag_blind self (getattr s field).
Proof using Type.
  intros Hfield m b. unfold getattr. rewrite lookup_with_flag.
  destruct (heap m !! s) as [[d|d|d]|]; case_decide; simpl; try done.
  by rewrite Hfield.
Qed.

Lemma flag_blind_call_hadamard_kernel lib path ir ii or oi t n size :
  flag_blind self (call_hadamard_kernel lib path ir ii or oi t n size).
Proof using Type.
  intros m b. unfold call_hadamard_kernel.
  destruct (hadamard_kernel_execute_c lib) as [kernel|]; [|done].
  rewrite !lookup_with_flag.
  destruct (heap m !! ir) as [[?|a1|?]|]; case_decide; simpl; try done;
  destruct (heap m !! ii) as [[?|a2|?]|]; case_decide; simpl; try done;
  destruct (heap m !! or) as [[?|a3|?]|]; case_decide; simpl; try done;
  destruct (heap m !! oi) as [[?|a4|?]|]; case_decide; simpl; try done;
  f_equal; unfold with_flag, set_heap; simpl; f_equal;
  by rewrite !alter_flag_insert.
Qed.

Lemma flag_blind_apply_hadamard_python s st t n :
  flag_blind self (_apply_hadamard_python s st t n).
Proof using Type.
  unfold _apply_hadamard_python.
  apply flag_blind_bind; [apply flag_blind_ndarray_copy|]. intros res.
  apply flag_blind_bind; [apply flag_blind_py_lshift|]. intros dim.
  apply flag_blind_bind; [|intros _; apply flag_blind_ret].
  apply flag_blind_for_each. intros i. unfold hadamard_loop_body.
  apply flag_blind_bind; [apply flag_blind_py_lshift|]. intros bit.
  destruct (i <? Z.lxor i bit); [|apply flag_blind_ret].
  apply flag_blind_bind; [apply flag_blind_ndarray_getitem|]. intros temp0.
  apply flag_blind_bind; [apply flag_blind_ndarray_getitem|]. intros temp1.
  apply flag_blind_bind; [apply flag_blind_ndarray_setitem|]. intros _.
  apply flag_blind_ndarray_setitem.
Qed.

Lemma flag_blind_apply_hadamard_cpp s st t n :
  flag_blind self (_apply_hadamard_cpp s st t n).
Proof using Type.
  unfold _apply_hadamard_cpp.
  apply flag_blind_bind; [by apply flag_blind_getattr|]. intros [lib|].
  2:{ apply flag_blind_apply_hadamard_python. }
  apply flag_blind_try.
  2:{ intros e. apply flag_blind_bind; [apply flag_blind_print|]. intros _.
      apply flag_blind_apply_hadamard_python. }
  apply flag_blind_bind; [apply flag_blind_ndarray_len|]. intros size.
  do 4 (apply flag_blind_bind; [apply flag_blind_carray_new|]; intros ?).
  apply flag_blind_bind.
  { apply flag_blind_for_each. intros i. unfold marshal_body.
    apply flag_blind_bind; [apply flag_blind_ndarray_getitem|]. intros c.
    apply flag_blind_bind; [apply flag_blind_carray_setitem|]. intros _.
    apply flag_blind_carray_setitem. }
  intros _. apply flag_blind_bind; [by apply flag_blind_getattr|]. intros path.
  apply flag_blind_bind; [apply flag_blind_call_hadamard_kernel|]. intros status.
  destruct (status =? 0).
  - apply flag_blind_bind; [|intros result; apply flag_blind_np_array].
    apply flag_blind_collect. intros i. unfold unmarshal_item.
    apply flag_blind_bind; [apply flag_blind_carray_getitem|]. intros re.
    apply flag_blind_bind; [apply flag_blind_carray_getitem|]. intros im.
    apply flag_blind_ret.
  - apply flag_blind_bind; [apply flag_blind_print|]. intros _.
    apply flag_blind_apply_hadamard_python.
Qed.

End FlagBlindMethods.

(** X8.  [_apply_hadamard_cpp] never reads [use_fpga]: on every machine,
    setting the flag of the device to either value before the call changes
    neither its outcome nor what it does to the machine.  Whether the
    kernel is called depends on [cpp_lib] alone. *)
Theorem apply_hadamard_cpp_ignores_use_fpga self st t n b m :
  run (_apply_hadamard_cpp self st t n) (with_flag self b m)
  = ((run (_apply_hadamard_cpp self st t n) m).1,
     with_flag self b (run (_apply_hadamard_cpp self st t n) m).2).
Proof. apply flag_blind_apply_hadamard_cpp. Qed.

(** ** The downgrade of [use_fpga] *)




(** ** Loading the library and constructing the device *)










(** ** What is printed *)

Lemma quiet_ret {A} (a : A) : quiet (ret a).
Proof. by intros m. Qed.

Lemma quiet_raise {A} e : quiet (@raise A e).
Proof. by intros m. Qed.

Lemma quiet_bind {A B} (c : M A) (k : A -> M B) :
  quiet c -> (forall a, quiet (k a)) -> quiet (bind c k).
Proof.
  intros Hc Hk m. unfold bind. specialize (Hc m).
  destruct (c m) as [[a|e] m1]; simpl in *; [|done]. by rewrite Hk.
Qed.

Lemma quiet_for_each xs (body : Z -> M unit) :
  (forall x, quiet (body x)) -> quiet (for_each xs body).
Proof.
  intros Hb. induction xs as [|x xs IH]; simpl; [apply quiet_ret|].
  apply quiet_bind; [apply Hb | by intros _].
Qed.

Lemma quiet_collect {A} xs (f : Z -> M A) :
  (forall x, quiet (f x)) -> quiet (collect xs f).
Proof.
  intros Hf. induction xs as [|x xs IH]; simpl; [apply quiet_ret|].
  apply quiet_bind; [apply Hf|]. intros v.
  apply quiet_bind; [apply IH|]. intros vs. apply quiet_ret.
Qed.

Lemma quiet_alloc o : quiet (alloc o).
Proof. by intros m. Qed.

Lemma quiet_py_lshift x y : quiet (py_lshift x y).
Proof. unfold py_lshift. destruct (y <? 0); [apply quiet_raise | apply quiet_ret]. Qed.

Lemma quiet_ndarray_copy a : quiet (ndarray_copy a).
Proof. intros m. unfold ndarray_copy. by destruct (heap m !! a) as [[| |]|]. Qed.

Lemma quiet_ndarray_len a : quiet (ndarray_len a).
Proof. intros m. unfold ndarray_len. by destruct (heap m !! a) as [[| |]|]. Qed.

Lemma quiet_ndarray_getitem a i : quiet (ndarray_getitem a i).
Proof.
  intros m. unfold ndarray_getitem. destruct (heap m !! a) as [[d| |]|]; try done.
  destruct (py_index _ _); [|done]. by destruct (d !! _).
Qed.

Lemma quiet_ndarray_setitem a i v : quiet (ndarray_setitem a i v).
Proof.
  intros m. unfold ndarray_setitem. destruct (heap m !! a) as [[d| |]|]; try done.
  by destruct (py_index _ _).
Qed.

Lemma quiet_carray_getitem a i : quiet (carray_getitem a i).
Proof.
  intros m. unfold carray_getitem. destruct (heap m !! a) as [[|d|]|]; try done.
  destruct (py_index _ _); [|done]. by destruct (d !! _).
Qed.

Lemma quiet_carray_setitem a i v : quiet (carray_setitem a i v).
Proof.
  intros m. unfold carray_setitem. destruct (heap m !! a) as [[|d|]|]; try done.
  by destruct (py_index _ _).
Qed.

Lemma quiet_carray_new n : quiet (carray_new n).
Proof. unfold carray_new. destruct (n <? 0); [apply quiet_raise | apply quiet_alloc]. Qed.

Lemma quiet_np_zeros n : quiet (np_zeros n).
Proof. unfold np_zeros. destruct (n <? 0); [apply quiet_raise | apply quiet_alloc]. Qed.

Lemma quiet_getattr {A} self (field : device -> A) : quiet (getattr self field).
Proof. intros m. unfold getattr. by destruct (heap m !! self) as [[| |]|]. Qed.

Lemma quiet_call_hadamard_kernel lib path ir ii or oi t n size :
  quiet (call_hadamard_kernel lib path ir ii or oi t n size).
Proof.
  intros m. unfold call_hadamard_kernel.
  destruct (hadamard_kernel_execute_c lib) as [kernel|]; [|done].
  destruct (heap m !! ir) as [[|a|]|]; try done.
  destruct (heap m !! ii) as [[|b|]|]; try done.
  destruct (heap m !! or) as [[|c|]|]; try done.
  by destruct (heap m !! oi) as [[|d|]|].
Qed.

(** The software path prints nothing, whatever its arguments. *)
Lemma quiet_apply_hadamard_python self st t n : quiet (_apply_hadamard_python self st t n).
Proof.
  unfold _apply_hadamard_python.
  apply quiet_bind; [apply quiet_ndarray_copy|]. intros res.
  apply quiet_bind; [apply quiet_py_lshift|]. intros dim.
  apply quiet_bind; [|intros _; apply quiet_ret].
  apply quiet_for_each. intros i. unfold hadamard_loop_body.
  apply quiet_bind; [apply quiet_py_lshift|]. intros bit.
  destruct (i <? Z.lxor i bit); [|apply quiet_ret].
  apply quiet_bind; [apply quiet_ndarray_getitem|]. intros temp0.
  apply quiet_bind; [apply quiet_ndarray_getitem|]. intros temp1.
  apply quiet_bind; [apply quiet_ndarray_setitem|]. intros _.
  apply quiet_ndarray_setitem.
Qed.

Lemma quiet_marshal_loop xs st ir ii : quiet (for_each xs (marshal_body st ir ii)).
Proof.
  apply quiet_for_each. intros i. unfold marshal_body.
  apply quiet_bind; [apply quiet_ndarray_getitem|]. intros c.
  apply quiet_bind; [apply quiet_carray_setitem|]. intros _.
  apply quiet_carray_setitem.
Qed.

Lemma quiet_collect_unmarshal xs or oi : quiet (collect xs (unmarshal_item or oi)).
Proof.
  apply quiet_collect. intros i. unfold unmarshal_item.
  apply quiet_bind; [apply quiet_carray_getitem|]. intros re.
  apply quiet_bind; [apply quiet_carray_getitem|]. intros im. apply quiet_ret.
Qed.

(** *** Steps with their output *)

Lemma steps_out_quiet {A} h (c : M A) v h' :
  steps h c v h' -> quiet c -> steps_out h c v h' [].
Proof.
  intros Hs Hq m Hm. destruct (Hs m Hm) as [? ?].
  split; [done|]. split; [done|]. by rewrite Hq, app_nil_r.
Qed.

Lemma fails_out_quiet {A} h (c : M A) e h' :
  fails h c e h' -> quiet c -> fails_out h c e h' [].
Proof.
  intros Hs Hq m Hm. destruct (Hs m Hm) as [? ?].
  split; [done|]. split; [done|]. by rewrite Hq, app_nil_r.
Qed.

Lemma steps_out_print h msg : steps_out h (print msg) tt h [msg].
Proof. by intros m <-. Qed.

Lemma steps_out_ret {A} h (a : A) : steps_out h (ret a) a h [].
Proof. intros m <-. simpl. by rewrite app_nil_r. Qed.

Lemma steps_out_bind {A B} h h1 h2 (c : M A) (k : A -> M B) a b o1 o2 :
  steps_out h c a h1 o1 -> steps_out h1 (k a) b h2 o2 ->
  steps_out h (bind c k) b h2 (o1 ++ o2).
Proof.
  intros Hc Hk m Hm. destruct (Hc m Hm) as (E1 & E2 & E3). unfold bind.
  destruct (c m) as [o m1]. simpl in *. subst o.
  destruct (Hk m1 E2) as (F1 & F2 & F3).
  split; [done|]. split; [done|]. by rewrite F3, E3, app_assoc.
Qed.

Lemma fails_out_bind {A B} h h1 (c : M A) (k : A -> M B) e o1 :
  fails_out h c e h1 o1 -> fails_out h (bind c k) e h1 o1.
Proof.
  intros Hc m Hm. destruct (Hc m Hm) as (E1 & E2 & E3). unfold bind.
  destruct (c m) as [o m1]. simpl in *. by subst o.
Qed.

Lemma steps_out_bind_fails {A B} h h1 h2 (c : M A) (k : A -> M B) a e o1 o2 :
  steps_out h c a h1 o1 -> fails_out h1 (k a) e h2 o2 ->
  fails_out h (bind c k) e h2 (o1 ++ o2).
Proof.
  intros Hc Hk m Hm. destruct (Hc m Hm) as (E1 & E2 & E3). unfold bind.
  destruct (c m) as [o m1]. simpl in *. subst o.
  destruct (Hk m1 E2) as (F1 & F2 & F3).
  split; [done|]. split; [done|]. by rewrite F3, E3, app_assoc.
Qed.

Lemma steps_out_try {A} h h1 (c : M A) (hd : exn -> M A) a o1 :
  steps_out h c a h1 o1 -> steps_out h (try_except c hd) a h1 o1.
Proof.
  intros Hc m Hm. destruct (Hc m Hm) as (E1 & E2 & E3). unfold try_except.
  destruct (c m) as [o m1]. simpl in *. by subst o.
Qed.

Lemma steps_out_try_handler {A} h h1 h2 (c : M A) (hd : exn -> M A) e a o1 o2 :
  fails_out h c e h1 o1 -> is_exception e = true -> steps_out h1 (hd e) a h2 o2 ->
  steps_out h (try_except c hd) a h2 (o1 ++ o2).
Proof.
  intros Hc He Hh m Hm. destruct (Hc m Hm) as (E1 & E2 & E3). unfold try_except.
  destruct (c m) as [o m1]. simpl in *. subst o. rewrite He.
  destruct (Hh m1 E2) as (F1 & F2 & F3).
  split; [done|]. split; [done|]. by rewrite F3, E3, app_assoc.
Qed.

Lemma steps_out_try_bind {A B} h h1 h2 (c : M A) (k : A -> M B) hd a b o1 o2 :
  steps_out h c a h1 o1 -> steps_out h1 (try_except (k a) hd) b h2 o2 ->
  steps_out h (try_except (bind c k) hd) b h2 (o1 ++ o2).
Proof.
  intros Hc Hk m Hm. destruct (Hc m Hm) as (E1 & E2 & E3).
  unfold try_except in *. unfold bind.
  destruct (c m) as [o m1]. simpl in *. subst o.
  destruct (Hk m1 E2) as (F1 & F2 & F3).
  split; [done|]. split; [done|]. by rewrite F3, E3, app_assoc.
Qed.

Lemma steps_out_run {A} h (c : M A) v h' out m :
  steps_out h c v h' out -> heap m = h ->
  exists m', run c m = (Ret v, m') /\ heap m' = h' /\ stdout m' = stdout m ++ out.
Proof.
  intros Hc Hm. destruct (Hc m Hm) as (E1 & E2 & E3). exists (c m).2. split; [|done].
  unfold run. destruct (c m). simpl in *. by subst.
Qed.

(** The accelerated path prints nothing before the call of the kernel. *)
Lemma apply_hadamard_cpp_reaches_call_quietly h self st d lib amp t n r h' out :
  h !! self = Some (DeviceObj d) -> cpp_lib d = Some lib ->
  h !! st = Some (NdArray amp) ->
  let zeros := replicate (length amp) 0%R in
  steps_out (call_heap h (map Re amp) (map Im amp) zeros zeros)
    (try_except
      (status <- call_hadamard_kernel lib (xclbin_path d)
          (length h) (length h + 1)%nat (length h + 2)%nat (length h + 3)%nat
          t n (Z.of_nat (length amp)) ;;
       if status =? 0 then
         result <- collect (range (Z.of_nat (length amp)))
                     (unmarshal_item (length h + 2)%nat (length h + 3)%nat) ;;
         np_array result
       else
         print (MsgKernelFailed status) ;;
         _apply_hadamard_python self st t n)
      (fun e => print (MsgKernelError e) ;; _apply_hadamard_python self st t n))
    r h' out ->
  steps_out h (_apply_hadamard_cpp self st t n) r h' out.
Proof.
  intros Hself Hlib Hst zeros Hrest. unfold _apply_hadamard_cpp.
  change out with ([] ++ out).
  eapply steps_out_bind;
    [apply steps_out_quiet; [by apply steps_getattr | apply quiet_getattr]|].
  rewrite Hlib. change out with ([] ++ out).
  eapply steps_out_try_bind;
    [apply steps_out_quiet; [by apply steps_ndarray_len | apply quiet_ndarray_len]|].
  do 4 (change out with ([] ++ out);
        eapply steps_out_try_bind;
          [apply steps_out_quiet; [apply steps_carray_new; lia | apply quiet_carray_new]|]).
  rewrite !length_app, Nat2Z.id. simpl length. rewrite <- !app_assoc. simpl app.
  replace (length h + 1 + 1 + 1)%nat with (length h + 3)%nat by lia.
  replace (length h + 1 + 1)%nat with (length h + 2)%nat by lia.
  change out with ([] ++ out).
  eapply steps_out_try_bind;
    [apply steps_out_quiet; [by apply steps_marshal_loop | apply quiet_marshal_loop]|].
  change out with ([] ++ out).
  eapply steps_out_try_bind.
  { apply steps_out_quiet; [|apply quiet_getattr].
    eapply steps_getattr. by apply call_heap_lookup_old. }
  exact Hrest.
Qed.

Lemma steps_out_apply_hadamard_python h self st amp t n :
  h !! st = Some (NdArray amp) -> well_formed amp t n ->
  steps_out h (_apply_hadamard_python self st t n) (length h)
            (h ++ [NdArray (pair_transform amp t)]) [].
Proof.
  intros Hst Hwf. apply steps_out_quiet; [by apply steps_apply_hadamard_python|].
  apply quiet_apply_hadamard_python.
Qed.

(** A declined call is reported by one line, and falls back. *)
Lemma steps_out_apply_hadamard_cpp_declined h self st d lib amp t n :
  h !! self = Some (DeviceObj d) -> cpp_lib d = Some lib ->
  h !! st = Some (NdArray amp) -> well_formed amp t n ->
  kernel_declines lib (xclbin_path d) amp t n ->
  exists ir ii or oi,
    steps_out h (_apply_hadamard_cpp self st t n) (length h + 4)%nat
      (call_heap h ir ii or oi ++ [NdArray (pair_transform amp t)])
      [fallback_line (kernel_report lib (xclbin_path d) amp t n)].
Proof.
  intros Hself Hlib Hst Hwf Hdecl.
  set (zeros := replicate (length amp) 0%R).
  assert (Hfallback : forall ir ii or oi msg,
    steps_out (call_heap h ir ii or oi)
          (print msg ;; _apply_hadamard_python self st t n)
          (length h + 4)%nat
          (call_heap h ir ii or oi ++ [NdArray (pair_transform amp t)]) [msg]).
  { intros. change [msg] with ([msg] ++ []).
    eapply steps_out_bind; [apply steps_out_print|].
    rewrite <- (length_call_heap h ir ii or oi).
    apply steps_out_apply_hadamard_python; [by apply call_heap_lookup_old | done]. }
  pose proof (call_hadamard_kernel_ends h lib (xclbin_path d)
                (map Re amp) (map Im amp) zeros zeros t n (Z.of_nat (length amp))) as Hcall.
  pose proof (quiet_call_hadamard_kernel lib (xclbin_path d)
                (length h) (length h + 1)%nat (length h + 2)%nat (length h + 3)%nat
                t n (Z.of_nat (length amp))) as Hq.
  unfold kernel_declines in Hdecl. unfold kernel_report in *. fold zeros in Hdecl |- *.
  simpl in Hcall.
  destruct (hadamard_kernel_execute_c lib) as [kernel|].
  2:{ eexists _, _, _, _. eapply apply_hadamard_cpp_reaches_call_quietly; [done ..|].
      change [fallback_line (Raise AttributeError)] with ([] ++ [MsgKernelError AttributeError]).
      eapply steps_out_try_handler; [|done|apply Hfallback].
      apply fails_out_bind. by apply fails_out_quiet. }
  destruct (k_status _) as [s|e].
  - eexists _, _, _, _. eapply apply_hadamard_cpp_reaches_call_quietly; [done ..|].
    apply steps_out_try.
    change [fallback_line (Ret (c_int s))] with ([] ++ [MsgKernelFailed (c_int s)]).
    eapply steps_out_bind; [by apply steps_out_quiet|].
    destruct (Z.eqb_spec (c_int s) 0); [done|]. apply Hfallback.
  - eexists _, _, _, _. eapply apply_hadamard_cpp_reaches_call_quietly; [done ..|].
    change [fallback_line (Raise e)] with ([] ++ [MsgKernelError e]).
    eapply steps_out_try_handler; [|done|apply Hfallback].
    apply fails_out_bind. by apply fails_out_quiet.
Qed.

Lemma fails_out_try_through {A} h h1 (c : M A) (hd : exn -> M A) e o1 :
  fails_out h c e h1 o1 -> is_exception e = false ->
  fails_out h (try_except c hd) e h1 o1.
Proof.
  intros Hc He m Hm. destruct (Hc m Hm) as (E1 & E2 & E3). unfold try_except.
  destruct (c m) as [o m1]. simpl in *. subst o. by rewrite He.
Qed.

Lemma fails_out_run {A} h (c : M A) e h' out m :
  fails_out h c e h' out -> heap m = h ->
  exists m', run c m = (Raise e, m') /\ heap m' = h' /\ stdout m' = stdout m ++ out.
Proof.
  intros Hc Hm. destruct (Hc m Hm) as (E1 & E2 & E3). exists (c m).2. split; [|done].
  unfold run. destruct (c m). simpl in *. by subst.
Qed.

Lemma fails_out_try_bind {A B} h h1 h2 (c : M A) (k : A -> M B) hd a e o1 o2 :
  steps_out h c a h1 o1 -> fails_out h1 (try_except (k a) hd) e h2 o2 ->
  fails_out h (try_except (bind c k) hd) e h2 (o1 ++ o2).
Proof.
  intros Hc Hk m Hm. destruct (Hc m Hm) as (E1 & E2 & E3).
  unfold try_except in *. unfold bind.
  destruct (c m) as [o m1]. simpl in *. subst o.
  destruct (Hk m1 E2) as (F1 & F2 & F3).
  split; [done|]. split; [done|]. by rewrite F3, E3, app_assoc.
Qed.

(** When the call of the kernel is interrupted, so is the method: nothing
    is printed, no fallback runs, and the heap holds the four buffers of
    the call after what it held. *)
Lemma fails_out_apply_hadamard_cpp_interrupted h self st d lib amp t n e :
  h !! self = Some (DeviceObj d) -> cpp_lib d = Some lib ->
  h !! st = Some (NdArray amp) ->
  kernel_interrupted lib (xclbin_path d) amp t n e ->
  exists ir ii or oi,
    fails_out h (_apply_hadamard_cpp self st t n) e (call_heap h ir ii or oi) [].
Proof.
  intros Hself Hlib Hst [Hrep He].
  set (zeros := replicate (length amp) 0%R).
  pose proof (call_hadamard_kernel_ends h lib (xclbin_path d)
                (map Re amp) (map Im amp) zeros zeros t n (Z.of_nat (length amp))) as Hcall.
  pose proof (quiet_call_hadamard_kernel lib (xclbin_path d)
                (length h) (length h + 1)%nat (length h + 2)%nat (length h + 3)%nat
                t n (Z.of_nat (length amp))) as Hq.
  unfold kernel_report in Hrep. fold zeros in Hrep. simpl in Hcall.
  destruct (hadamard_kernel_execute_c lib) as [kernel|];
    [|injection Hrep as <-; discriminate He].
  destruct (k_status _) as [s|e1]; [discriminate Hrep|]. injection Hrep as ->.
  eexists _, _, _, _. unfold _apply_hadamard_cpp.
  change (@nil message) with (@nil message ++ []).
  eapply steps_out_bind_fails;
    [apply steps_out_quiet; [by apply steps_getattr | apply quiet_getattr]|].
  rewrite Hlib. change (@nil message) with (@nil message ++ []).
  eapply fails_out_try_bind;
    [apply steps_out_quiet; [by apply steps_ndarray_len | apply quiet_ndarray_len]|].
  do 4 (change (@nil message) with (@nil message ++ []);
        eapply fails_out_try_bind;
          [apply steps_out_quiet; [apply steps_carray_new; lia | apply quiet_carray_new]|]).
  rewrite !length_app, Nat2Z.id. simpl length. rewrite <- !app_assoc. simpl app.
  replace (length h + 1 + 1 + 1)%nat with (length h + 3)%nat by lia.
  replace (length h + 1 + 1)%nat with (length h + 2)%nat by lia.
  change (@nil message) with (@nil message ++ []).
  eapply fails_out_try_bind;
    [apply steps_out_quiet; [by apply steps_marshal_loop | apply quiet_marshal_loop]|].
  change (@nil message) with (@nil message ++ []).
  eapply fails_out_try_bind.
  { apply steps_out_quiet; [|apply quiet_getattr].
    eapply steps_getattr. by apply call_heap_lookup_old. }
  apply fails_out_try_through; [|exact He].
  apply fails_out_bind. by apply fails_out_quiet.
Qed.

(** X11.  A fallback is reported, once: on a well-formed request, when
    the call of the kernel reports a nonzero status, [_apply_hadamard_cpp]
    prints the line with that status, and when the call raises an
    exception that derives from [Exception] (the [AttributeError] of a
    missing symbol included) it prints the line with the exception; it
    prints nothing else.  The software path itself prints nothing. *)
Theorem apply_hadamard_cpp_reports_fallback self st d lib amp t n m :
  heap m !! self = Some (DeviceObj d) -> cpp_lib d = Some lib ->
  holds_array m st amp -> well_formed amp t n ->
  kernel_declines lib (xclbin_path d) amp t n ->
  stdout (run (_apply_hadamard_cpp self st t n) m).2
  = stdout m ++ [match kernel_report lib (xclbin_path d) amp t n with
                 | Ret s => MsgKernelFailed s
                 | Raise e => MsgKernelError e
                 end]
  /\ stdout (run (_apply_hadamard_python self st t n) m).2 = stdout m.
Proof.
  intros Hself Hlib Hst Hwf Hdecl. split; [|apply quiet_apply_hadamard_python].
  destruct (steps_out_apply_hadamard_cpp_declined (heap m) self st d lib amp t n
              Hself Hlib Hst Hwf Hdecl) as (ir & ii & or & oi & Hs).
  destruct (steps_out_run _ _ _ _ _ m Hs eq_refl) as (m' & -> & _ & Hout).
  exact Hout.
Qed.

Lemma apply_hadamard_cpp_reports_fallback_witness :
  let d := sample_device 1 true (Some (CDLL (Some declining_kernel))) in
  let m := machine_of [DeviceObj d; NdArray ket0] in
  stdout (run (_apply_hadamard_cpp 0%nat 1%nat 0 1) m).2
  = stdout m ++ [match kernel_report (CDLL (Some declining_kernel)) (xclbin_path d) ket0 0 1 with
                 | Ret s => MsgKernelFailed s
                 | Raise e => MsgKernelError e
                 end]
  /\ stdout (run (_apply_hadamard_python 0%nat 1%nat 0 1) m).2 = stdout m.
Proof.
  apply (apply_hadamard_cpp_reports_fallback 0%nat 1%nat
           (sample_device 1 true (Some (CDLL (Some declining_kernel))))
           (CDLL (Some declining_kernel)) ket0 0 1).
  - reflexivity.
  - reflexivity.
  - reflexivity.
  - split; [reflexivity | lia].
  - unfold kernel_declines, kernel_report. simpl. vm_compute. discriminate.
Defined.

(** X15.  An exception raised at the call of the kernel whose class does
    not derive from [Exception] ([KeyboardInterrupt], [SystemExit]) is not
    absorbed by [except Exception]: [_apply_hadamard_cpp] raises it to the
    caller.  No fallback line is printed and the software path does not
    run: the heap gains the four buffers of the call and nothing else, and
    the state and every other existing object are unchanged. *)
Theorem apply_hadamard_cpp_propagates_interrupt self st d lib amp t n e m :
  heap m !! self = Some (DeviceObj d) -> cpp_lib d = Some lib ->
  holds_array m st amp ->
  kernel_interrupted lib (xclbin_path d) amp t n e ->
  let res := run (_apply_hadamard_cpp self st t n) m in
  res.1 = Raise e
  /\ stdout res.2 = stdout m
  /\ (exists ir ii or oi, heap res.2 = call_heap (heap m) ir ii or oi)
  /\ holds_array res.2 st amp
  /\ preserved m res.2.
Proof.
  intros Hself Hlib Hst Hint res.
  destruct (fails_out_apply_hadamard_cpp_interrupted (heap m) self st d lib amp t n e
              Hself Hlib Hst Hint) as (ir & ii & or & oi & Hf).
  destruct (fails_out_run _ _ _ _ _ m Hf eq_refl) as (m' & E & Hm' & Hout).
  unfold res. rewrite E. simpl. split; [done|].
  split; [by rewrite Hout, app_nil_r|]. split; [by exists ir, ii, or, oi|].
  unfold holds_array, preserved. rewrite Hm'. split.
  - by apply call_heap_lookup_old.
  - unfold call_heap. by apply prefix_app_r.
Qed.

Lemma apply_hadamard_cpp_propagates_interrupt_witness :
  let d := sample_device 1 true (Some (CDLL (Some interrupted_kernel))) in
  let m := machine_of [DeviceObj d; NdArray ket0] in
  let res := run (_apply_hadamard_cpp 0%nat 1%nat 0 1) m in
  res.1 = Raise (Interrupt "KeyboardInterrupt")
  /\ stdout res.2 = stdout m
  /\ (exists ir ii or oi, heap res.2 = call_heap (heap m) ir ii or oi)
  /\ holds_array res.2 1%nat ket0
  /\ preserved m res.2.
Proof.
  apply (apply_hadamard_cpp_propagates_interrupt 0%nat 1%nat
           (sample_device 1 true (Some (CDLL (Some interrupted_kernel))))
           (CDLL (Some interrupted_kernel)) ket0 0 1 (Interrupt "KeyboardInterrupt")).
  - reflexivity.
  - reflexivity.
  - reflexivity.
  - split; reflexivity.
Defined.

(** ** The lines of [execute] *)

Lemma steps_out_for_loop_seq {S} (I : nat -> S -> list obj -> list message -> Prop)
    (body : S -> Z -> M S) d :
  forall a s hh o,
  (forall k s hh o, (a <= k < a + d)%nat -> I k s hh o ->
     exists s' hh' o', steps_out hh (body s (Z.of_nat k)) s' hh' o'
                       /\ I (Datatypes.S k) s' hh' (o ++ o')) ->
  I a s hh o ->
  exists s' hh' o', steps_out hh (for_loop (map Z.of_nat (seq a d)) body s) s' hh' o'
                    /\ I (a + d)%nat s' hh' (o ++ o').
Proof.
  induction d as [|d IH]; intros a s hh o Hb HI; simpl.
  - exists s, hh, []. rewrite Nat.add_0_r, app_nil_r. split; [apply steps_out_ret | done].
  - destruct (Hb a s hh o ltac:(lia) HI) as (s1 & h1 & o1 & Hs1 & HI1).
    destruct (IH (Datatypes.S a) s1 h1 (o ++ o1)) as (s2 & h2 & o2 & Hs2 & HI2); [|done|].
    { intros k s' hh' o' Hk. apply Hb. lia. }
    exists s2, h2, (o1 ++ o2). split; [by eapply steps_out_bind|].
    rewrite app_assoc.
    by replace (a + Datatypes.S d)%nat with (Datatypes.S a + d)%nat by lia.
Qed.

Lemma steps_out_print_state hh q (a : addr) :
  steps_out hh (print_state q a) tt hh [MsgAfterHadamard q (hh !! a)].
Proof. intros m <-. done. Qed.

Lemma steps_out_apply_hadamard_cpp_accepted h self st d lib kernel amp t n new :
  h !! self = Some (DeviceObj d) -> cpp_lib d = Some lib ->
  hadamard_kernel_execute_c lib = Some kernel ->
  h !! st = Some (NdArray amp) ->
  let zeros := replicate (length amp) 0%R in
  let r := kernel (xclbin_path d) (map Re amp) (map Im amp) zeros zeros
             (c_int t) (c_int n) (c_int (Z.of_nat (length amp))) in
  (exists s, k_status r = Ret s /\ c_int s = 0) ->
  k_output_real r = map Re new -> k_output_imag r = map Im new ->
  length new = length amp ->
  steps_out h (_apply_hadamard_cpp self st t n) (length h + 4)%nat
        (call_heap h (k_input_real r) (k_input_imag r) (map Re new) (map Im new)
         ++ [NdArray new]) [].
Proof.
  intros Hself Hlib Hsym Hst zeros r (s & Hs & Hs0) Hre Him Hlen.
  eapply apply_hadamard_cpp_reaches_call_quietly; [done ..|].
  apply steps_out_try.
  pose proof (call_hadamard_kernel_ends h lib (xclbin_path d)
                (map Re amp) (map Im amp) zeros zeros t n (Z.of_nat (length amp))) as Hcall.
  simpl in Hcall. rewrite Hsym in Hcall. fold r in Hcall. rewrite Hs, Hre, Him in Hcall.
  change (@nil message) with (@nil message ++ []).
  eapply steps_out_bind;
    [apply steps_out_quiet; [exact Hcall | apply quiet_call_hadamard_kernel]|].
  rewrite Hs0. simpl.
  change (@nil message) with (@nil message ++ []).
  eapply steps_out_bind.
  { apply steps_out_quiet; [|apply quiet_collect_unmarshal].
    unfold range. rewrite Nat2Z.id, <- Hlen.
    apply (steps_collect_unmarshal _ _ _ new).
    - by rewrite call_heap_lookup.
    - by rewrite call_heap_lookup.
    - done. }
  replace (map (fun x => aget new (Z.of_nat x)) (seq 0 (length new))) with new
    by (symmetry; apply (tabulate_aget new)).
  rewrite <- (length_call_heap h (k_input_real r) (k_input_imag r) (map Re new) (map Im new)).
  apply steps_out_quiet; [apply steps_alloc | apply quiet_alloc].
Qed.

(** With a faithful library, a well-formed request prints at most the
    report of a fallback. *)
Lemma steps_out_apply_hadamard_cpp_faithful h self st d amp t n :
  h !! self = Some (DeviceObj d) -> h !! st = Some (NdArray amp) ->
  well_formed amp t n -> n <= c_int_qubits -> library_faithful d ->
  exists extra out,
    steps_out h (_apply_hadamard_cpp self st t n) (length h + length extra)%nat
          (h ++ extra ++ [NdArray (pair_transform amp t)]) out
    /\ List.filter is_progress out = [].
Proof.
  intros Hself Hst Hwf Hn Hfaith. unfold library_faithful in Hfaith.
  destruct (cpp_lib d) as [lib|] eqn:Hlib.
  2:{ exists [], []. simpl. rewrite Nat.add_0_r. split; [|done]. intros m Hm.
      rewrite (run_apply_hadamard_cpp_no_library self st d t n m) by (by rewrite ?Hm).
      by apply steps_out_apply_hadamard_python. }
  specialize (Hfaith amp t n Hwf Hn). unfold kernel_faithful in Hfaith.
  assert (Hdecl : kernel_declines lib (xclbin_path d) amp t n ->
    exists extra out,
      steps_out h (_apply_hadamard_cpp self st t n) (length h + length extra)%nat
            (h ++ extra ++ [NdArray (pair_transform amp t)]) out
      /\ List.filter is_progress out = []).
  { intros Hd.
    destruct (steps_out_apply_hadamard_cpp_declined h self st d lib amp t n
                Hself Hlib Hst Hwf Hd) as (ir & ii & or & oi & Hs).
    exists [CDoubleArray ir; CDoubleArray ii; CDoubleArray or; CDoubleArray oi].
    eexists. unfold call_heap in Hs. rewrite <- app_assoc in Hs. split; [exact Hs|].
    by destruct (kernel_report _ _ _ _ _). }
  destruct (hadamard_kernel_execute_c lib) as [kernel|] eqn:Hsym.
  2:{ apply Hdecl. unfold kernel_declines, kernel_report. by rewrite Hsym. }
  simpl in Hfaith.
  destruct (k_status _) as [s|e] eqn:Hs.
  2:{ apply Hdecl. unfold kernel_declines, kernel_report. by rewrite Hsym, Hs. }
  destruct (Z.eq_dec (c_int s) 0) as [Hs0|Hs0].
  2:{ apply Hdecl. unfold kernel_declines, kernel_report. by rewrite Hsym, Hs. }
  destruct (Hfaith Hs0) as [Hre Him].
  pose proof (steps_out_apply_hadamard_cpp_accepted h self st d lib kernel amp t n
                (pair_transform amp t) Hself Hlib Hsym Hst
                (ex_intro _ s (conj Hs Hs0)) Hre Him (length_pair_transform amp t)) as Hacc.
  eexists [_; _; _; _], []. unfold call_heap in Hacc. rewrite <- app_assoc in Hacc.
  split; [exact Hacc | done].
Qed.

Lemma steps_out_execute h self d :
  h !! self = Some (DeviceObj d) -> library_faithful d ->
  wire_count (wires d) <= c_int_qubits ->
  let n := wire_count (wires d) in
  exists r h' out,
    steps_out h (execute self) r h' (mode_line d :: out)
    /\ List.filter is_progress out
       = map (fun k => MsgAfterHadamard (Z.of_nat k)
                         (Some (NdArray (uniform_upto n (Datatypes.S k)))))
             (seq 0 (Z.to_nat n)).
Proof.
  intros Hself Hfaith Hmax n.
  pose proof (wire_count_pos (wires d)) as Hn. fold n in Hn, Hmax.
  assert (Hpn : 0 < 2 ^ n) by (apply Z.pow_pos_nonneg; lia).
  set (h0 := h ++ [NdArray (basis_zero n)]).
  set (line := fun k => MsgAfterHadamard (Z.of_nat k)
                          (Some (NdArray (uniform_upto n (Datatypes.S k))))).
  destruct (steps_out_for_loop_seq
              (fun k s hh o => h0 `prefix_of` hh
                               /\ hh !! s = Some (NdArray (uniform_upto n k))
                               /\ List.filter is_progress o = map line (seq 0 k))
              (execute_body self n) (Z.to_nat n) 0%nat (length h) h0 [])
    as (r & h' & out & Hloop & Hpre & Hr & Hout).
  { intros k s hh o Hk (Hpre & Hs & Ho).
    assert (Hself' : hh !! self = Some (DeviceObj d)).
    { eapply prefix_lookup_Some; [|done]. unfold h0. by apply lookup_app_l_Some. }
    destruct (steps_out_apply_hadamard_cpp_faithful hh self s d (uniform_upto n k)
                (Z.of_nat k) n Hself' Hs (well_formed_uniform_upto n k ltac:(lia)) Hmax Hfaith)
      as (extra & o1 & Hcpp & Ho1).
    set (hh' := hh ++ extra ++ [NdArray (pair_transform (uniform_upto n k) (Z.of_nat k))]).
    assert (Hnew : hh' !! (length hh + length extra)%nat
                   = Some (NdArray (uniform_upto n (Datatypes.S k)))).
    { unfold hh'. rewrite app_assoc, lookup_app_r by (rewrite length_app; lia).
      rewrite length_app, Nat.sub_diag. simpl.
      by rewrite uniform_upto_step by lia. }
    exists (length hh + length extra)%nat, hh',
           (o1 ++ [MsgAfterHadamard (Z.of_nat k) (hh' !! (length hh + length extra)%nat)] ++ []).
    split.
    - unfold execute_body. eapply steps_out_bind; [exact Hcpp|].
      eapply steps_out_bind; [apply steps_out_print_state|]. apply steps_out_ret.
    - split; [by apply prefix_app_r|]. split; [done|].
      rewrite Hnew, app_nil_r, !List.filter_app, Ho, Ho1, seq_S, map_app. done. }
  { split; [done|]. split; [|done]. unfold h0. rewrite lookup_app_r by done.
    rewrite Nat.sub_diag. simpl. by rewrite uniform_upto_0 by lia. }
  exists r, h', out. split; [|exact Hout].
  unfold execute.
  change (mode_line d :: out) with ([] ++ [mode_line d] ++ [] ++ [] ++ [] ++ out).
  eapply steps_out_bind;
    [apply steps_out_quiet; [by apply steps_getattr | apply quiet_getattr]|].
  eapply steps_out_bind.
  { instantiate (1 := h). instantiate (1 := tt). unfold mode_line. destruct (use_fpga d).
    - change [MsgExecutingFPGA (xclbin_path d)] with ([] ++ [MsgExecutingFPGA (xclbin_path d)]).
      eapply steps_out_bind;
        [apply steps_out_quiet; [by apply steps_getattr | apply quiet_getattr]|].
      apply steps_out_print.
    - apply steps_out_print. }
  eapply steps_out_bind;
    [apply steps_out_quiet; [by apply steps_getattr | apply quiet_getattr]|]. fold n.
  eapply steps_out_bind;
    [apply steps_out_quiet; [apply steps_np_zeros; lia | apply quiet_np_zeros]|].
  eapply steps_out_bind.
  { apply steps_out_quiet; [|apply quiet_ndarray_setitem].
    eapply steps_ndarray_setitem.
    - rewrite lookup_app_r by done. by rewrite Nat.sub_diag.
    - rewrite length_replicate. lia. }
  rewrite insert_app_r_alt, Nat.sub_diag by done. simpl.
  exact Hloop.
Qed.

(** X12.  The lines of [execute]: on a device of at most [max_qubits]
    wires whose library is absent or faithful, [execute] first prints the
    line of the stored mode (the accelerator line with the bitstream path
    when [use_fpga] is set, the CPU line otherwise), and then, apart from
    reports of fallbacks, exactly one line per qubit, in order, which
    shows the state after that qubit: the first [2^(k+1)] amplitudes equal
    to [(1/sqrt 2)^(k+1)], the others zero. *)
Theorem execute_prints_progress self d m :
  heap m !! self = Some (DeviceObj d) -> library_faithful d ->
  let n := wire_count (wires d) in
  n <= max_qubits ->
  exists out,
    stdout (run (execute self) m).2
    = stdout m ++ (if use_fpga d then MsgExecutingFPGA (xclbin_path d) else MsgExecutingCPU)
                  :: out
    /\ List.filter is_progress out
       = map (fun k => MsgAfterHadamard (Z.of_nat k)
                         (Some (NdArray (uniform_upto n (Datatypes.S k)))))
             (seq 0 (Z.to_nat n)).
Proof.
  intros Hself Hfaith n Hmax.
  destruct (steps_out_execute (heap m) self d Hself Hfaith)
    as (r & h' & out & Hs & Hout); [unfold max_qubits, c_int_qubits in *; lia|].
  exists out. split; [|exact Hout].
  destruct (steps_out_run _ _ _ _ _ m Hs eq_refl) as (m' & -> & _ & Hstd).
  exact Hstd.
Qed.

Lemma execute_prints_progress_witness :
  let d := sample_device 2 false (Some (CDLL (Some reference_kernel))) in
  let m := machine_of [DeviceObj d] in
  exists out,
    stdout (run (execute 0%nat) m).2
    = stdout m ++ (if use_fpga d then MsgExecutingFPGA (xclbin_path d) else MsgExecutingCPU)
                  :: out
    /\ List.filter is_progress out
       = map (fun k => MsgAfterHadamard (Z.of_nat k)
                         (Some (NdArray (uniform_upto (wire_count (wires d)) (Datatypes.S k)))))
             (seq 0 (Z.to_nat (wire_count (wires d)))).
Proof.
  apply (execute_prints_progress 0%nat
           (sample_device 2 false (Some (CDLL (Some reference_kernel))))
           (machine_of [DeviceObj (sample_device 2 false (Some (CDLL (Some reference_kernel))))])).
  - reflexivity.
  - apply reference_library_faithful.
  - simpl. unfold max_qubits. lia.
Defined.

(** ** The software path on a longer buffer *)

Lemma testbit_below_block x t n :
  0 <= t < n -> 2 ^ n <= x -> Z.testbit (x - 2 ^ n) t = Z.testbit x t.
Proof.
  intros Ht Hx.
  rewrite <- (Z.mod_pow2_bits_low (x - 2 ^ n) n t), <- (Z.mod_pow2_bits_low x n t) by lia.
  f_equal. replace x with (x - 2 ^ n + 1 * 2 ^ n) at 2 by lia.
  by rewrite Z_mod_plus_full.
Qed.

(** the pair of an index beyond the first [2^n] lies beyond them too *)
Lemma pair_low_ge_block x t n : 0 <= t < n -> 2 ^ n <= x -> 2 ^ n <= pair_low t x.
Proof.
  intros Ht Hx. unfold pair_low. destruct (Z.testbit x t) eqn:Hb; [|done].
  assert (0 < 2 ^ n) by (apply Z.pow_pos_nonneg; lia).
  rewrite <- (testbit_below_block x t n) in Hb by done.
  pose proof (sub_pow2_nonneg (x - 2 ^ n) t ltac:(lia) ltac:(lia) Hb). lia.
Qed.

Lemma aget_take (amp : list C) (k : nat) i :
  0 <= i < Z.of_nat k -> aget (take k amp) i = aget amp i.
Proof. intros Hi. unfold aget. by rewrite lookup_take_lt by lia. Qed.

Section LongerBuffer.

Variables (amp : list C) (t n : Z) (res : addr).
Hypothesis Ht : 0 <= t < n.
Hypothesis Hdim : 2 ^ n <= Z.of_nat (length amp).

Lemma run_hadamard_loop_body_within m k :
  0 <= k < 2 ^ n ->
  holds_array m res (pair_partial amp t k) ->
  hadamard_loop_body res t k m
  = (Ret tt, with_array res (pair_partial amp t (k + 1))
               (map (pair res) (pair_writes t k)) m).
Proof using Ht Hdim.
  intros Hk Hm.
  assert (0 < 2 ^ t) by (apply Z.pow_pos_nonneg; lia).
  unfold hadamard_loop_body, pair_writes.
  rewrite (run_bind _ _ _ _ _ (run_lshift_1 t m ltac:(lia))).
  destruct (Z.testbit k t) eqn:Hb.
  - rewrite lxor_pow2_set by (lia || done).
    destruct (Z.ltb_spec k (k - 2 ^ t)); [lia|].
    unfold ret. simpl. rewrite pair_partial_skip by (lia || done).
    by rewrite with_array_id.
  - rewrite lxor_pow2_clear by (lia || done).
    destruct (Z.ltb_spec k (k + 2 ^ t)); [|lia].
    pose proof (add_pow2_lt k t n Ht Hk Hb) as Hj.
    erewrite run_bind; [|apply (run_getitem _ _ _ _ Hm); rewrite length_pair_partial; lia].
    erewrite run_bind; [|apply (run_getitem _ _ _ _ Hm); rewrite length_pair_partial; lia].
    erewrite run_bind; [|apply (run_setitem _ _ _ _ _ Hm); rewrite length_pair_partial; lia].
    erewrite run_setitem;
      [|by eapply holds_with_array | rewrite length_insert, length_pair_partial; lia].
    rewrite with_array_twice.
    assert (Ei : aget (pair_partial amp t k) k = aget amp k).
    { unfold pair_partial. rewrite aget_tabulate by lia.
      unfold pair_low. rewrite Hb. destruct (Z.ltb_spec k k); [lia | done]. }
    assert (Ej : aget (pair_partial amp t k) (k + 2 ^ t) = aget amp (k + 2 ^ t)).
    { unfold pair_partial. rewrite aget_tabulate by lia.
      unfold pair_low. rewrite testbit_add_pow2 by (lia || done).
      destruct (Z.ltb_spec (k + 2 ^ t - 2 ^ t) k); [lia | done]. }
    rewrite Ei, Ej, <- (pair_partial_step amp t k) by (lia || done).
    unfold hadamard_at. rewrite Hb, testbit_add_pow2 by (lia || done).
    replace (k + 2 ^ t - 2 ^ t) with k by lia.
    simpl. by rewrite shiftl_1_pow2, lor_pow2_clear by (lia || done).
Qed.

Lemma run_hadamard_loop_within d : forall (k : nat) m,
  (k + d = Z.to_nat (2 ^ n))%nat ->
  holds_array m res (pair_partial amp t (Z.of_nat k)) ->
  for_each (map Z.of_nat (seq k d)) (hadamard_loop_body res t) m
  = (Ret tt, with_array res (pair_partial amp t (2 ^ n))
               (map (pair res) (flat_map (pair_writes t) (map Z.of_nat (seq k d)))) m).
Proof using Ht Hdim.
  assert (0 < 2 ^ n) by (apply Z.pow_pos_nonneg; lia).
  induction d as [|d IH]; intros k m Hkd Hm.
  - simpl. unfold ret. replace (2 ^ n) with (Z.of_nat k) by lia.
    by rewrite with_array_id.
  - simpl seq. simpl map. simpl for_each.
    erewrite run_bind; [|apply run_hadamard_loop_body_within; [lia | done]].
    rewrite (IH (S k)).
    + rewrite with_array_twice. simpl flat_map. by rewrite map_app.
    + lia.
    + replace (Z.of_nat (S k)) with (Z.of_nat k + 1) by lia.
      by eapply holds_with_array.
Qed.

(** Once the indices below [2^n] are visited, the first [2^n] amplitudes
    are transformed among themselves and the others are as they were. *)
Lemma pair_partial_block :
  pair_partial amp t (2 ^ n)
  = pair_transform (take (Z.to_nat (2 ^ n)) amp) t ++ drop (Z.to_nat (2 ^ n)) amp.
Proof using Ht Hdim.
  assert (Hpn : 0 < 2 ^ n) by (apply Z.pow_pos_nonneg; lia).
  assert (Hpt : 0 < 2 ^ t) by (apply Z.pow_pos_nonneg; lia).
  set (N := Z.to_nat (2 ^ n)).
  assert (HN : Z.of_nat N = 2 ^ n) by (unfold N; lia).
  assert (Hlen : length (pair_transform (take N amp) t) = N).
  { rewrite length_pair_transform, length_take. lia. }
  apply list_eq. intros x.
  destruct (decide (x < length amp)%nat) as [Hx|Hx].
  2:{ rewrite !lookup_ge_None_2; [done | |].
      - rewrite length_app, Hlen, length_drop. lia.
      - rewrite length_pair_partial. lia. }
  unfold pair_partial. rewrite lookup_tabulate by done.
  destruct (decide (x < N)%nat) as [Hb|Hb].
  - rewrite lookup_app_l by lia. unfold pair_transform.
    rewrite lookup_tabulate by (rewrite length_take; lia).
    pose proof (pair_low_le t (Z.of_nat x) ltac:(lia)).
    destruct (Z.ltb_spec (pair_low t (Z.of_nat x)) (2 ^ n)); [|lia].
    f_equal. unfold hadamard_at. destruct (Z.testbit (Z.of_nat x) t) eqn:E.
    + pose proof (sub_pow2_nonneg (Z.of_nat x) t ltac:(lia) ltac:(lia) E).
      by rewrite !aget_take by lia.
    + pose proof (add_pow2_lt (Z.of_nat x) t n Ht ltac:(lia) E).
      by rewrite !aget_take by lia.
  - rewrite lookup_app_r by lia. rewrite Hlen, lookup_drop.
    replace (N + (x - N))%nat with x by lia.
    pose proof (pair_low_ge_block (Z.of_nat x) t n Ht ltac:(lia)).
    destruct (Z.ltb_spec (pair_low t (Z.of_nat x)) (2 ^ n)); [lia|].
    unfold aget. rewrite Nat2Z.id.
    by destruct (lookup_lt_is_Some_2 amp x Hx) as [c ->].
Qed.

End LongerBuffer.

Lemma run_apply_hadamard_python_longer self st amp t n m :
  holds_array m st amp -> 0 <= t < n -> (Z.to_nat (2 ^ n) <= length amp)%nat ->
  _apply_hadamard_python self st t n m
  = (Ret (length (heap m)),
     Machine (heap m ++ [NdArray (pair_transform (take (Z.to_nat (2 ^ n)) amp) t
                                  ++ drop (Z.to_nat (2 ^ n)) amp)])
             (files m) (libraries m) (stdout m)
             (writes m ++ map (pair (length (heap m)))
                            (flat_map (pair_writes t) (range (2 ^ n))))).
Proof.
  intros Hst Ht Hlen. unfold _apply_hadamard_python.
  assert (Hpn : 0 < 2 ^ n) by (apply Z.pow_pos_nonneg; lia).
  assert (Hdim : 2 ^ n <= Z.of_nat (length amp)) by lia.
  assert (Hcopy : ndarray_copy st m
                  = (Ret (length (heap m)), set_heap (heap m ++ [NdArray amp]) m)).
  { unfold ndarray_copy. by rewrite Hst. }
  rewrite (run_bind _ _ _ _ _ Hcopy).
  erewrite run_bind; [|apply run_lshift_1; lia].
  unfold range. erewrite run_bind.
  2:{ apply (run_hadamard_loop_within amp t n (length (heap m)) Ht Hdim
               (Z.to_nat (2 ^ n)) 0%nat); [done|].
      rewrite pair_partial_0 by lia.
      unfold holds_array. simpl. rewrite lookup_app_r by done.
      by rewrite Nat.sub_diag. }
  rewrite (pair_partial_block amp t n Ht Hdim).
  unfold ret, with_array. simpl. f_equal. f_equal.
  rewrite insert_app_r_alt by done. by rewrite Nat.sub_diag.
Qed.

(** X13.  The software path does not check the length of the state
    against [num_qubits]: on a buffer longer than [2^num_qubits], with a
    target inside the register, it returns without raising a fresh buffer
    of the same length, whose first [2^num_qubits] amplitudes are the pair
    transform of the first [2^num_qubits] amplitudes of the input and
    whose other amplitudes are those of the input; the input is
    unchanged. *)
Theorem apply_hadamard_python_longer_state self st amp t n m :
  holds_array m st amp -> 0 <= t < n -> (Z.to_nat (2 ^ n) <= length amp)%nat ->
  exists r m',
    run (_apply_hadamard_python self st t n) m = (Ret r, m')
    /\ holds_array m' r (pair_transform (take (Z.to_nat (2 ^ n)) amp) t
                         ++ drop (Z.to_nat (2 ^ n)) amp)
    /\ r <> st
    /\ holds_array m' st amp.
Proof.
  intros Hst Ht Hlen. unfold run.
  rewrite (run_apply_hadamard_python_longer self st amp t n m Hst Ht Hlen).
  pose proof (lookup_lt_Some _ _ _ Hst) as Hlt.
  eexists _, _. split; [done|]. unfold holds_array. simpl. split; [|split].
  - rewrite lookup_app_r by done. by rewrite Nat.sub_diag.
  - lia.
  - by apply lookup_app_l_Some.
Qed.

Lemma apply_hadamard_python_longer_state_witness :
  let amp := ket0 ++ [RtoC 1] in
  let m := machine_of [NdArray amp] in
  exists r m',
    run (_apply_hadamard_python 0%nat 0%nat 0 1) m = (Ret r, m')
    /\ holds_array m' r (pair_transform (take (Z.to_nat (2 ^ 1)) amp) 0
                         ++ drop (Z.to_nat (2 ^ 1)) amp)
    /\ r <> 0%nat
    /\ holds_array m' 0%nat amp.
Proof.
  apply (apply_hadamard_python_longer_state 0%nat 0%nat (ket0 ++ [RtoC 1]) 0 1
           (machine_of [NdArray (ket0 ++ [RtoC 1])])).
  - reflexivity.
  - lia.
  - simpl. lia.
Defined.

(** ** Constructing a device and executing on it *)

Lemma loaded_library_faithful so_path m d :
  (forall lib, libraries m so_path = Ret lib ->
     forall amp t n, well_formed amp t n -> n <= c_int_qubits ->
       kernel_faithful lib (xclbin_path d) amp t n) ->
  cpp_lib d = loaded_library so_path m -> library_faithful d.
Proof.
  intros Hlib Hd. unfold library_faithful. rewrite Hd. unfold loaded_library.
  destruct (files m so_path); [|done].
  destruct (libraries m so_path) as [lib|e] eqn:El; [|done].
  destruct (hadamard_kernel_execute_c lib); [|done].
  intros amp t n Hwf Hn. by apply Hlib.
Qed.

(** X14.  The constructor followed by [execute]: on arguments that
    [super().__init__] accepts, with at most [max_qubits] wires, and
    whatever the file system holds, provided loading the library is not
    interrupted and the library found at [so_path], if one loads, has a
    faithful kernel, the pair returns the uniform superposition on
    [n = len(wires)] qubits ([n = 1] without wires): [2^n] amplitudes, each
    [1/sqrt(2^n)].  Neither [use_fpga] nor the bitstream path changes the
    result. *)
Theorem construct_then_execute so_path shots_arg wires_arg path_arg use_arg m :
  device_args_ok shots_arg wires_arg -> load_catchable so_path m ->
  (forall lib, libraries m so_path = Ret lib ->
     forall amp t n, well_formed amp t n -> n <= c_int_qubits ->
       kernel_faithful lib (str_or path_arg "libadf.xclbin") amp t n) ->
  let n := wire_count wires_arg in
  n <= max_qubits ->
  exists r m' final,
    run (self <- __init__ so_path shots_arg wires_arg path_arg use_arg ;; execute self) m
    = (Ret r, m')
    /\ holds_array m' r final
    /\ length final = Z.to_nat (2 ^ n)
    /\ (forall i, 0 <= i < 2 ^ n -> aget final i = RtoC (1 / sqrt (IZR (2 ^ n))))
    /\ preserved m m'.
Proof.
  intros Hargs Hcatch Hlib n Hmax.
  destruct (run_init so_path shots_arg wires_arg path_arg use_arg m Hargs Hcatch)
    as (m1 & E & Hm1 & _).
  set (d := Dev wires_arg shots_arg (str_or path_arg "libadf.xclbin")
                (use_arg && files m (str_or path_arg "libadf.xclbin"))
                (loaded_library so_path m)) in Hm1.
  assert (Hself : heap m1 !! length (heap m) = Some (DeviceObj d)).
  { rewrite Hm1, lookup_app_r by done. by rewrite Nat.sub_diag. }
  assert (Hfaith : library_faithful d) by (by eapply loaded_library_faithful).
  pose proof (wire_count_pos wires_arg) as Hn. fold n in Hn.
  destruct (steps_execute (heap m1) (length (heap m)) d Hself Hfaith)
    as (r & h' & Hsteps & Hpre & Hr).
  { change (wire_count (wires d)) with n. unfold max_qubits, c_int_qubits in *. lia. }
  change (wire_count (wires d)) with n in Hpre, Hr.
  destruct (steps_run _ _ _ _ m1 Hsteps eq_refl) as (m' & E' & Hm').
  exists r, m', (uniform_upto n (Z.to_nat n)).
  split; [unfold run in *; by rewrite (run_bind _ _ _ _ _ E)|].
  split; [unfold holds_array; by rewrite Hm'|].
  split; [apply length_uniform_upto|]. split.
  - intros i Hi. rewrite uniform_upto_all by lia.
    by rewrite sqrt2_inv_pow, Z2Nat.id by lia.
  - unfold preserved. rewrite Hm'. etrans; [|exact Hpre].
    rewrite Hm1, <- app_assoc. by apply prefix_app_r.
Qed.

Lemma construct_then_execute_witness :
  let m := machine_with_library (CDLL (Some reference_kernel)) in
  let n := wire_count (Some [0; 1]) in
  exists r m' final,
    run (self <- __init__ "librtd_custom_device.so" None (Some [0; 1]) None true ;;
         execute self) m
    = (Ret r, m')
    /\ holds_array m' r final
    /\ length final = Z.to_nat (2 ^ n)
    /\ (forall i, 0 <= i < 2 ^ n -> aget final i = RtoC (1 / sqrt (IZR (2 ^ n))))
    /\ preserved m m'.
Proof.
  apply (construct_then_execute "librtd_custom_device.so" None (Some [0; 1]) None true
           (machine_with_library (CDLL (Some reference_kernel)))).
  - split; [exact I|]. simpl. apply NoDup_cons. split.
    + intros Hin. apply list_elem_of_singleton in Hin. discriminate Hin.
    + apply NoDup_singleton.
  - intros _ e He. discriminate He.
  - intros lib Hl amp t n Hwf Hn. simpl in Hl. injection Hl as <-.
    by apply reference_kernel_faithful.
  - simpl. unfold max_qubits. lia.
Defined.
